(** * three-dxf: line intersection, bulge arcs and the batch scheduler

    A shallow embedding of the geometric core of three-dxf:
    - [findCrossPoint], [getCoefficienConst] and [solveSimultaneousEquation]
      (the intersection worker),
    - [asynccParallel] and [createIntersectPoints] (the viewer),
    - [THREEx.BulgeGeometry], [THREEx.Math.angle2] and [THREEx.Math.polar].

    JavaScript numbers are taken as exact numbers: canonical rationals [Qc]
    for the intersection code, which only adds, multiplies, divides and
    compares, so every definition there runs; real numbers for the bulge code,
    which needs [atan], [sin], [cos] and [acos]. A quotient by 0 is an
    infinity or NaN in JavaScript and 0 in [Qc]: the chain of the
    intersection worker keeps such a quotient apart from the numbers
    ([Quotient0]), and the solver divides by pivots it has tested.

    [math.lusolve] belongs to the library mathjs. The intersection worker is
    defined for any solver (class [Solver]); [Mathjs.lusolve] is the
    algorithm of mathjs on a 2x2 system, with its comparisons up to 2^-52,
    in exact arithmetic, and is the solver of the examples. *)

From Stdlib Require Import QArith Qcanon Qcabs.
From Stdlib Require Import Reals Lra.
From Stdlib Require Import List Bool Arith Lia Permutation.
Import ListNotations.
Close Scope Q_scope.
Close Scope Qc_scope.

(** ** Exact numbers *)

Module Num.

(** The numbers of the intersection code. *)
Abbreviation num := Qc.

Definition of_Z (z : Z) : num := Q2Qc (inject_Z z).

(** [a == b] on two numbers. *)
Definition eqb (a b : num) : bool :=
  match Qccompare a b with Eq => true | _ => false end.

(** [a < b]. *)
Definition ltb (a b : num) : bool :=
  match Qccompare a b with Lt => true | _ => false end.

(** [a <= b]. *)
Definition leb (a b : num) : bool :=
  match Qccompare a b with Gt => false | _ => true end.

(** [math.min(a, b)] and [math.max(a, b)] on two numbers. *)
Definition min (a b : num) : num := if ltb b a then b else a.
Definition max (a b : num) : num := if ltb a b then b else a.

End Num.

(** ** The linear solver: [math.lusolve] of mathjs on a 2x2 system

    mathjs is a library the repository calls; its algorithm for a dense
    matrix of numbers is written out here: [nearlyEqual] of utils/number,
    [equalScalar], [larger], and [lup], [lsolve], [usolve] and [lusolve] of
    function/algebra. The arithmetic is exact: where the library rounds, a
    number it compares with 2^-52 can fall on the other side of it than its
    exact value does, which is why the properties of the worker that hold
    for every input are proved for every solver, and those proved of this
    solver carry hypotheses on the numbers it compares with 0. *)

Module Mathjs.
Import Num.
Local Open Scope Qc_scope.

(** A 2x2 matrix by rows, and a column of two numbers. *)
Definition matrix : Type := (num * num) * (num * num).
Definition vector : Type := num * num.

(** [DBL_EPSILON], 2^-52, and [config.epsilon], 1e-12. *)
Definition DBL_EPSILON : num := Q2Qc (1 # 4503599627370496).
Definition epsilon : num := Q2Qc (1 # 1000000000000).

(** [nearlyEqual(x, y, epsilon)] on two numbers. *)
Definition nearlyEqual (a b : num) : bool :=
  if eqb a b then true
  else
    let diff := Qcabs (a - b) in
    if ltb diff DBL_EPSILON then true
    else leb diff (max (Qcabs a) (Qcabs b) * epsilon).

(** [equalScalar(x, y)] and [larger(x, y)] on two numbers. *)
Definition equalScalar (a b : num) : bool := nearlyEqual a b.

Definition larger (a b : num) : bool := ltb b a && negb (nearlyEqual a b).

(** The search of the pivot of the first column in [lup]: from
    [pabsv = 0] and [vjj = 0], the rows whose entry is [larger] in absolute
    value than those before; [true] when the rows are exchanged. *)
Definition pivot (A : matrix) : bool * num :=
  let '((a00, _), (a10, _)) := A in
  let '(pabsv, vjj) :=
    if larger (Qcabs a00) 0 then (Qcabs a00, a00) else (0, 0) in
  if larger (Qcabs a10) pabsv then (true, a10) else (false, vjj).

(** [lup(A)]: the factors [L] and [U] and whether the rows were exchanged.
    The entry under the pivot is divided by it unless it is [equalScalar]
    to 0. *)
Definition lup (A : matrix) : matrix * matrix * bool :=
  let '(swap, vjj) := pivot A in
  let '((d00, d01), (d10, d11)) := if swap then (snd A, fst A) else A in
  let l10 := if equalScalar d10 0 then d10 else d10 / vjj in
  let u11 := d11 - l10 * d01 in
  (((1, 0), (l10, 1)), ((d00, d01), (0, u11)), swap).

(** [lsolve(L, b)], forward substitution: a row whose right-hand side is
    [equalScalar] to 0 gets 0; otherwise a pivot [equalScalar] to 0 raises
    the error (here [None]). *)
Definition lsolve (L : matrix) (b : vector) : option vector :=
  let '((l00, _), (l10, l11)) := L in
  let '(b0, b1) := b in
  let column0 :=
    if equalScalar b0 0 then Some (0, b1)
    else if equalScalar l00 0 then None
    else let x0 := b0 / l00 in Some (x0, b1 - x0 * l10) in
  match column0 with
  | None => None
  | Some (x0, b1) =>
      if equalScalar b1 0 then Some (x0, 0)
      else if equalScalar l11 0 then None
      else Some (x0, b1 / l11)
  end.

(** [usolve(U, b)], backward substitution, from the last row. *)
Definition usolve (U : matrix) (b : vector) : option vector :=
  let '((u00, u01), (_, u11)) := U in
  let '(b0, b1) := b in
  let column1 :=
    if equalScalar b1 0 then Some (0, b0)
    else if equalScalar u11 0 then None
    else let x1 := b1 / u11 in Some (x1, b0 - x1 * u01) in
  match column1 with
  | None => None
  | Some (x1, b0) =>
      if equalScalar b0 0 then Some (0, x1)
      else if equalScalar u00 0 then None
      else Some (b0 / u00, x1)
  end.

(** [math.lusolve(A, b)]: [lup], the rows of [b] exchanged as those of [A],
    [lsolve], then [usolve]; [None] is the error
    "Linear system cannot be solved since matrix is singular". *)
Definition lusolve (A : matrix) (b : vector) : option vector :=
  let '(L, U, swap) := lup A in
  let b := if swap then (snd b, fst b) else b in
  match lsolve L b with
  | None => None
  | Some y => usolve U y
  end.

(** A number that is 0 or at least 2^-52 away from 0: [equalScalar] with 0
    is [==] on it. *)
Definition zero_or_far (q : num) : Prop := q = 0 \/ DBL_EPSILON <= Qcabs q.

End Mathjs.

(** ** The intersection worker: [findCrossPoint] and its helpers *)

Module Intersect.
Import Num.
Local Open Scope Qc_scope.

(** [{ x, y }]; the [z] the viewer's vectors carry is 0 and is never read. *)
Record Point := { x : num; y : num }.

(** [{ start, end }], an entry of [lineVecs]. *)
Record Line := { start : Point; end_ : Point }.

(** [math.lusolve] on a 2x2 system given by rows, [None] standing for the
    error it raises: the function of the library that the worker calls. The
    worker is defined for any such function, so that what is proved of it for
    every solver holds whatever [math.lusolve] returns; the instance
    [mathjs], at the end of this module, is the algorithm of mathjs, and is
    the solver wherever none is named. *)
Class Solver :=
  lusolve : Mathjs.matrix -> Mathjs.vector -> option Mathjs.vector.

(** An entry of the array [getCoefficienConst] returns: [None] is [null]. *)
Definition coef := option num.

(** What the chain of [== null] tests of [findCrossPoint] does with the
    coefficients [ao, ko] of the query and [at, kt] of a candidate. *)
Inductive chain :=
| Continue                       (* [continue]: the candidate is skipped *)
| Assign (intersectX intersectY : num)
| Quotient0 (intersectY : num)   (* [intersectX] is a quotient by 0: an infinity or NaN *)
| Caught.                        (* the solver raised inside [try]; nothing is assigned *)

(** [intersectY = iY; intersectX = n / d]: in JavaScript a quotient by 0 is
    an infinity or NaN, not a number. *)
Definition quotient (n d iY : num) : chain :=
  if eqb d 0 then Quotient0 iY else Assign (n / d) iY.

(** [is_null c] is [c == null]; [number c] is the number an operand stands
    for, a [null] counting as 0 in arithmetic. *)
Definition is_null (c : coef) : bool :=
  match c with None => true | Some _ => false end.

Definition number (c : coef) : num :=
  match c with Some n => n | None => 0 end.

(** The variables of [findCrossPoint] that live across iterations:
    [intersects], and [intersectX] and [intersectY], which [var] declares for
    the whole function; [None] is a value that is not a number: [undefined],
    their value before the first assignment, or the infinity or NaN of a
    quotient by 0. The test of the last [if] fails on each of them. *)
Record vars := {
  intersects : list Point;
  intersectX : option num;
  intersectY : option num
}.

(** The bounding box of a segment, as [minx, miny, maxx, maxy]. *)
Definition box (p q : Point) : num * num * num * num :=
  (min (x p) (x q), min (y p) (y q), max (x p) (x q), max (y p) (y q)).

(** The test of the last [if] of the loop body on the numbers [iX], [iY]. *)
Definition accept (point1 point2 : Point) (bo bt : num * num * num * num)
  (iX iY : num) : bool :=
  let '(minxo, minyo, maxxo, maxyo) := bo in
  let '(minxt, minyt, maxxt, maxyt) := bt in
  leb (max minxo minxt) iX &&
  leb iX (min maxxo maxxt) &&
  leb (max minyo minyt) iY &&
  leb iY (min maxyo maxyt) &&
  negb (eqb iX (x point1) && eqb iY (y point1)) &&
  negb (eqb iX (x point2) && eqb iY (y point2)).

(** The last [if] of the loop body: a comparison with [undefined] is false,
    so nothing is pushed before the first assignment. *)
Definition test_and_push (point1 point2 : Point)
  (bo bt : num * num * num * num) (st : vars) : vars :=
  match intersectX st, intersectY st with
  | Some iX, Some iY =>
      if accept point1 point2 bo bt iX iY
      then {| intersects := intersects st ++ [ {| x := iX; y := iY |} ];
              intersectX := intersectX st;
              intersectY := intersectY st |}
      else st
  | _, _ => st
  end.

(** The rectangles are disjoint: the first [if] of the loop body. *)
Definition disjoint (bo bt : num * num * num * num) : bool :=
  let '(minxo, minyo, maxxo, maxyo) := bo in
  let '(minxt, minyt, maxxt, maxyt) := bt in
  ltb maxxt minxo || ltb maxxo minxt || ltb maxyt minyo || ltb maxyo minyt.

(** The state after the chain has run and the last [if] of the loop body
    has been tested. *)
Definition after_chain (point1 point2 : Point)
  (bo bt : num * num * num * num) (st : vars) (r : chain) : vars :=
  match r with
  | Continue => st
  | Assign iX iY =>
      test_and_push point1 point2 bo bt
        {| intersects := intersects st;
           intersectX := Some iX;
           intersectY := Some iY |}
  | Quotient0 iY =>
      test_and_push point1 point2 bo bt
        {| intersects := intersects st;
           intersectX := None;
           intersectY := Some iY |}
  | Caught => test_and_push point1 point2 bo bt st
  end.

(** The coefficient model of the specification. *)
Inductive CoefficientModel :=
| Vertical (vx : num)
| Horizontal (hy : num)
| Sloped (slope intercept : num)
| Degenerate.

(** The model an array [[a, k]] of [getCoefficienConst] stands for, and the
    array of a model. *)
Definition model_of (c : coef * coef) : CoefficientModel :=
  match c with
  | (None, None) => Degenerate
  | (Some vx, None) => Vertical vx
  | (None, Some hy) => Horizontal hy
  | (Some a, Some k) => Sloped a k
  end.

Definition coefs_of (m : CoefficientModel) : coef * coef :=
  match m with
  | Degenerate => (None, None)
  | Vertical vx => (Some vx, None)
  | Horizontal hy => (None, Some hy)
  | Sloped a k => (Some a, Some k)
  end.

Section Worker.
Context {solver : Solver}.

(** [solveSimultaneousEquation(formula, results)]: the pair stands for the
    column [[r0], [r1]] that [._data] holds. *)
Definition solveSimultaneousEquation (formula : Mathjs.matrix)
  (results : Mathjs.vector) : option Mathjs.vector :=
  lusolve formula results.

(** [getCoefficienConst(point1, point2)]; [None] when the solver raises,
    which nothing here catches. *)
Definition getCoefficienConst (point1 point2 : Point) : option (coef * coef) :=
  if eqb (x point1) (x point2) && eqb (y point1) (y point2) then
    Some (None, None)
  else if eqb (x point1) (x point2) then
    Some (Some (x point1), None)
  else if eqb (y point1) (y point2) then
    Some (None, Some (y point1))
  else
    match solveSimultaneousEquation
            ((x point1, 1), (x point2, 1)) (y point1, y point2) with
    | Some (r0, r1) => Some (Some r0, Some r1)
    | None => None
    end.

(** The [if / else if] chain, one row per branch and in its order; the first
    row that matches is taken, as the first test that holds is. *)
Definition cross (ao ko at_ kt : coef) : chain :=
  match ao, ko, at_, kt with
  | _, _, None, None => Continue                 (* at == null && kt == null *)
  | None, None, _, _ => Continue                 (* ao == null && ko == null *)
  | _, None, _, None => Continue                 (* ko == null && kt == null *)
  | None, _, None, _ => Continue                 (* ao == null && at == null *)
  | Some ao, None, None, Some kt =>              (* ko == null && at == null *)
      Assign ao kt
  | None, Some ko, Some at_, None =>             (* ao == null && kt == null *)
      Assign at_ ko
  | Some ao, None, Some at_, Some kt =>          (* ko == null *)
      Assign ao (at_ * ao + kt)
  | None, Some ko, Some at_, Some kt =>          (* ao == null *)
      quotient (ko - kt) at_ ko
  | Some ao, Some ko, Some at_, None =>          (* kt == null *)
      Assign at_ (ao * at_ + ko)
  | Some ao, Some ko, None, Some kt =>           (* at == null *)
      quotient (kt - ko) ao kt
  | Some ao, Some ko, Some at_, Some kt =>       (* else: try { ... } catch *)
      match solveSimultaneousEquation
              ((1, - (1) * ao), (1, - (1) * at_)) (ko, kt) with
      | Some (r0, r1) => Assign r1 r0
      | None => Caught
      end
  end.

(** The same chain written test by test. Lemma [cross_tests] shows that it
    is [cross]: no [null] reaches an assignment or an operator. *)
Definition cross_tests_chain (ao ko at_ kt : coef) : chain :=
  if is_null at_ && is_null kt then Continue
  else if is_null ao && is_null ko then Continue
  else if is_null ko && is_null kt then Continue
  else if is_null ao && is_null at_ then Continue
  else if is_null ko && is_null at_ then
    Assign (number ao) (number kt)
  else if is_null ao && is_null kt then
    Assign (number at_) (number ko)
  else if is_null ko then
    Assign (number ao) (number at_ * number ao + number kt)
  else if is_null ao then
    quotient (number ko - number kt) (number at_) (number ko)
  else if is_null kt then
    Assign (number at_) (number ao * number at_ + number ko)
  else if is_null at_ then
    quotient (number kt - number ko) (number ao) (number kt)
  else
    match solveSimultaneousEquation
            ((1, - (1) * number ao), (1, - (1) * number at_))
            (number ko, number kt) with
    | Some (r0, r1) => Assign r1 r0
    | None => Caught
    end.

(** One iteration of the [for] loop on the candidate [c]; [None] when
    [getCoefficienConst] raises. *)
Definition iteration (point1 point2 : Point) (ao ko : coef) (st : vars)
  (c : Line) : option vars :=
  let bo := box point1 point2 in
  let bt := box (start c) (end_ c) in
  if disjoint bo bt then Some st
  else
    match getCoefficienConst (start c) (end_ c) with
    | None => None
    | Some (at_, kt) =>
        Some (after_chain point1 point2 bo bt st (cross ao ko at_ kt))
    end.

(** The [for] loop over [finieshLines] from the state [st]. *)
Fixpoint loop (point1 point2 : Point) (ao ko : coef) (st : vars)
  (finieshLines : list Line) : option vars :=
  match finieshLines with
  | [] => Some st
  | c :: rest =>
      match iteration point1 point2 ao ko st c with
      | None => None
      | Some st' => loop point1 point2 ao ko st' rest
      end
  end.

(** [findCrossPoint(point1, point2, finieshLines)]: the points it returns,
    each the vertex of one [THREE.Points]; [None] when it raises. *)
Definition findCrossPoint (point1 point2 : Point) (finieshLines : list Line)
  : option (list Point) :=
  match getCoefficienConst point1 point2 with
  | None => None
  | Some (ao, ko) =>
      option_map intersects
        (loop point1 point2 ao ko
           {| intersects := []; intersectX := None; intersectY := None |}
           finieshLines)
  end.

(** [classify(p1, p2)]: the array of [getCoefficienConst] read as a model. *)
Definition classify (p1 p2 : Point) : option CoefficientModel :=
  option_map model_of (getCoefficienConst p1 p2).

End Worker.

(** *** The specification's reading of the arrays *)

(** [intersect(modelA, modelB)]: the case table, as the specification words
    it; the last row gives the solution of the system when [a1 <> a2]. *)
Definition intersect (A B : CoefficientModel) : option Point :=
  match A, B with
  | Degenerate, _ | _, Degenerate => None
  | Vertical _, Vertical _ => None
  | Horizontal _, Horizontal _ => None
  | Vertical vx, Horizontal hy | Horizontal hy, Vertical vx =>
      Some {| x := vx; y := hy |}
  | Vertical vx, Sloped a k | Sloped a k, Vertical vx =>
      Some {| x := vx; y := a * vx + k |}
  | Horizontal hy, Sloped a k | Sloped a k, Horizontal hy =>
      Some {| x := (hy - k) / a; y := hy |}
  | Sloped a1 k1, Sloped a2 k2 =>
      if eqb a1 a2 then None
      else
        let ix := (k2 - k1) / (a1 - a2) in
        Some {| x := ix; y := a1 * ix + k1 |}
  end.


(** Equality tests on points, models and results, by [==] on the numbers. *)
Definition Point_eqb (p q : Point) : bool :=
  eqb (x p) (x q) && eqb (y p) (y q).

Definition model_eqb (m n : CoefficientModel) : bool :=
  match m, n with
  | Vertical a, Vertical b => eqb a b
  | Horizontal a, Horizontal b => eqb a b
  | Sloped a k, Sloped b l => eqb a b && eqb k l
  | Degenerate, Degenerate => true
  | _, _ => false
  end.

Fixpoint list_eqb {A : Type} (eqbA : A -> A -> bool) (l m : list A) : bool :=
  match l, m with
  | [], [] => true
  | a :: l', b :: m' => eqbA a b && list_eqb eqbA l' m'
  | _, _ => false
  end.

Definition option_eqb {A : Type} (eqbA : A -> A -> bool) (o p : option A)
  : bool :=
  match o, p with
  | Some a, Some b => eqbA a b
  | None, None => true
  | _, _ => false
  end.

Definition coefs_eqb (c d : coef * coef) : bool :=
  option_eqb eqb (fst c) (fst d) && option_eqb eqb (snd c) (snd d).

Definition chain_eqb (r s : chain) : bool :=
  match r, s with
  | Continue, Continue => true
  | Assign a b, Assign c d => eqb a c && eqb b d
  | Quotient0 a, Quotient0 b => eqb a b
  | Caught, Caught => true
  | _, _ => false
  end.

(** Points and segments with integer coordinates. *)
Definition pt (a b : Z) : Point := {| x := of_Z a; y := of_Z b |}.
Definition seg (a b c d : Z) : Line := {| start := pt a b; end_ := pt c d |}.

(** The solver of mathjs. *)
#[export] Instance mathjs : Solver := Mathjs.lusolve.

End Intersect.

(** ** The batch scheduler: [asynccParallel] *)

Module Scheduler.

Section Pool.

(** The values work items give, and the errors they may raise. *)
Variables T E : Type.

(** How [await result.value()] ends: with the value the item's promise is
    fulfilled with, or with the error it is rejected with. *)
Inductive settled :=
| Value (v : T)
| Raise (e : E).

(** A work item, a function of no argument. *)
Definition item := unit -> settled.

(** The state of a promise. *)
Inductive promise (A : Type) :=
| Pending
| Fulfilled (a : A)
| Rejected (e : E).

(** One of the [concurrency] executors of [asynccParallel] with its local
    [vals]: in its [for] loop, after [resolve(vals)], or stopped by the error
    an [await] raised. *)
Inductive worker :=
| Looping (vals : list T)
| Resolved (vals : list T)
| Stopped (vals : list T) (e : E).

Definition vals_of (w : worker) : list T :=
  match w with
  | Looping vals | Resolved vals | Stopped vals _ => vals
  end.

(** The promise [new Promise(async (resolve) => ...)] makes for a worker. The
    executor takes [resolve] only, and the error of an [await] rejects the
    promise of the [async] executor itself, which [new Promise] drops: the
    worker's promise stays pending. *)
Definition promise_of (w : worker) : promise (list T) :=
  match w with
  | Looping _ => Pending _
  | Resolved vals => Fulfilled _ vals
  | Stopped _ _ => Pending _
  end.

(** [Promise.all]: rejected as soon as one promise is, fulfilled with the
    values in the order of the promises once all are, pending otherwise. *)
Fixpoint all_values {A : Type} (ps : list (promise A)) : option (list A) :=
  match ps with
  | [] => Some []
  | Fulfilled _ a :: rest => option_map (cons a) (all_values rest)
  | _ :: _ => None
  end.

Fixpoint first_rejected {A : Type} (ps : list (promise A)) : option E :=
  match ps with
  | [] => None
  | Rejected _ e :: _ => Some e
  | _ :: rest => first_rejected rest
  end.

Definition Promise_all {A : Type} (ps : list (promise A)) : promise (list A) :=
  match first_rejected ps with
  | Some e => Rejected _ e
  | None =>
      match all_values ps with
      | Some l => Fulfilled _ l
      | None => Pending _
      end
  end.

(** The shared state of a call: what the single iterator has still to yield,
    and the workers. [yielded] and [executed] are ghosts: how many items the
    iterator has yielded, and the positions of the items called so far, in the
    order of the calls. *)
Record state := {
  iterator : list item;
  yielded : nat;
  workers : list worker;
  executed : list nat
}.

Fixpoint set_nth {A : Type} (n : nat) (a : A) (l : list A) : list A :=
  match l, n with
  | [], _ => []
  | _ :: rest, 0 => a :: rest
  | b :: rest, S n' => b :: set_nth n' a rest
  end.

(** One step of the worker [id], from one suspension to the next:
    [iterator.next()], then either [resolve(vals)] when it is done, or the
    call [result.value()], its [await] and [vals.push(val)]. A worker that has
    resolved or stopped takes no step. *)
Definition turn (id : nat) (s : state) : state :=
  match nth_error (workers s) id with
  | Some (Looping vals) =>
      match iterator s with
      | [] =>
          {| iterator := [];
             yielded := yielded s;
             workers := set_nth id (Resolved vals) (workers s);
             executed := executed s |}
      | result :: rest =>
          {| iterator := rest;
             yielded := S (yielded s);
             workers :=
               set_nth id
                 match result tt with
                 | Value val => Looping (vals ++ [val])
                 | Raise e => Stopped vals e
                 end
                 (workers s);
             executed := executed s ++ [yielded s] |}
      end
  | _ => s
  end.

(** The workers take their steps in the order [schedule] gives. *)
Definition run (schedule : list nat) (s : state) : state :=
  fold_left (fun s id => turn id s) schedule s.

(** The state [Array.from({ length: concurrency }, ...)] starts from. *)
Definition init (iterable : list item) (concurrency : nat) : state :=
  {| iterator := iterable;
     yielded := 0;
     workers := repeat (Looping []) concurrency;
     executed := [] |}.

(** The order of the event loop: the executors start in the order of their
    [id], each runs up to its first [await], and they are resumed in that
    same order again and again. *)
Definition round_robin (concurrency rounds : nat) : list nat :=
  concat (repeat (seq 0 concurrency) rounds).

(** What [Promise.all(promises)] is in the state [s]. *)
Definition outcome (s : state) : promise (list (list T)) :=
  Promise_all (map promise_of (workers s)).

(** The state a call of [asynccParallel(iterable, concurrency)] ends in:
    one round more than there are items lets every worker see the iterator
    done. *)
Definition final (iterable : list item) (concurrency : nat) : state :=
  run (round_robin concurrency (S (length iterable))) (init iterable concurrency).

(** [asynccParallel(iterable, concurrency)]: the promise the caller awaits. *)
Definition asynccParallel (iterable : list item) (concurrency : nat)
  : promise (list (list T)) :=
  outcome (final iterable concurrency).

(** The value an item gives, if it gives one, and whether it raises. *)
Definition value (it : item) : list T :=
  match it tt with
  | Value v => [v]
  | Raise _ => []
  end.

Definition raises (it : item) : bool :=
  match it tt with
  | Value _ => false
  | Raise _ => true
  end.

Definition is_looping (w : worker) : bool :=
  match w with Looping _ => true | _ => false end.

Definition is_resolved (w : worker) : bool :=
  match w with Resolved _ => true | _ => false end.

Definition is_stopped (w : worker) : bool :=
  match w with Stopped _ _ => true | _ => false end.

(** *** What the proofs keep along a run *)

(** In a call on [items]: the iterator holds the items not yet yielded; the
    items yielded are the items executed, once each and in their order; their
    values are in the lists of the workers; a worker has resolved only once
    the iterator was done; and an item that raised has stopped a worker. *)
Record Inv (items : list item) (s : state) : Prop := {
  inv_iterator : iterator s = skipn (yielded s) items;
  inv_yielded : yielded s <= length items;
  inv_executed : executed s = seq 0 (yielded s);
  inv_vals :
    Permutation (concat (map vals_of (workers s)))
      (flat_map value (firstn (yielded s) items));
  inv_resolved :
    (exists w, In w (workers s) /\ is_resolved w = true) -> iterator s = [];
  inv_stopped :
    (forall w, In w (workers s) -> is_stopped w = false) ->
    forall it, In it (firstn (yielded s) items) -> raises it = false
}.

(** With [concurrency] workers and no item that raises: no worker is
    stopped, and all are looping as long as the iterator is not done. *)
Definition Good (concurrency : nat) (s : state) : Prop :=
  length (workers s) = concurrency /\
  (forall w, In w (workers s) -> is_stopped w = false) /\
  (forall it, In it (iterator s) -> raises it = false) /\
  (iterator s <> [] -> forall w, In w (workers s) -> is_looping w = true).

End Pool.

Arguments Value {T E} v.
Arguments Raise {T E} e.
Arguments Pending {E A}.
Arguments Fulfilled {E A} a.
Arguments Rejected {E A} e.
Arguments Looping {T E} vals.
Arguments Resolved {T E} vals.
Arguments Stopped {T E} vals e.
Arguments vals_of {T E} w.
Arguments promise_of {T E} w.
Arguments Promise_all {E A} ps.
Arguments all_values {E A} ps.
Arguments first_rejected {E A} ps.
Arguments iterator {T E} s.
Arguments yielded {T E} s.
Arguments workers {T E} s.
Arguments executed {T E} s.
Arguments set_nth {A} n a l.
Arguments turn {T E} id s.
Arguments run {T E} schedule s.
Arguments init {T E} iterable concurrency.
Arguments outcome {T E} s.
Arguments final {T E} iterable concurrency.
Arguments asynccParallel {T E} iterable concurrency.
Arguments value {T E} it.
Arguments raises {T E} it.
Arguments is_looping {T E} w.
Arguments is_resolved {T E} w.
Arguments is_stopped {T E} w.
Arguments Inv {T E} items s.
Arguments Good {T E} concurrency s.

(** Four items, the first of which raises. *)
Definition faulty_batch : list (item nat nat) :=
  [fun _ => Raise 7; fun _ => Value 1; fun _ => Value 2; fun _ => Value 3].

(** Three items that give 10, 20 and 30. *)
Definition sound_batch : list (item nat unit) :=
  [fun _ => Value 10; fun _ => Value 20; fun _ => Value 30].

End Scheduler.

(** ** The intersection phase of the viewer: [createIntersectPoints] *)

Module Viewer.
Import Intersect Scheduler.

(** The errors a work item raises. *)
Inductive error :=
| SingularMatrix   (* the error of [math.lusolve] *)
| TypeError.       (* a property of [undefined] is read *)

(** The entries of [lineVecs] before the first one that is [undefined], and
    whether there is none: [createObjects] leaves an [undefined] entry for
    every entity that gives no [lineVecs]. *)
Fixpoint defined_prefix (lineVecs : list (option Line)) : list Line * bool :=
  match lineVecs with
  | [] => ([], true)
  | Some c :: rest =>
      let '(candidates, all) := defined_prefix rest in (c :: candidates, all)
  | None :: _ => ([], false)
  end.

Section Worker.
Context {solver : Solver}.

(** [createIntersectPoint(start, end, finieshLines)], as its promise
    settles: [resolve(findCrossPoint(...))] inside the executor. The loop of
    [findCrossPoint] reads [finieshLines[c].start] at the top of its body: on
    the first entry that is [undefined] it raises a TypeError, unless
    [getCoefficienConst] has raised before. *)
Definition createIntersectPoint (start end_ : Point)
  (finieshLines : list (option Line)) : settled (list Point) error :=
  let '(candidates, all) := defined_prefix finieshLines in
  match findCrossPoint start end_ candidates with
  | Some points => if all then Value points else Raise TypeError
  | None => Raise SingularMatrix
  end.

(** The function [createGenerator] yields for [line] and [finieshLines]:
    [line.start] is read when it is called, and raises a TypeError when
    [line] is [undefined]. *)
Definition work (line : option Line) (finieshLines : list (option Line))
  : item (list Point) error :=
  fun _ =>
    match line with
    | Some line => createIntersectPoint (start line) (end_ line) finieshLines
    | None => Raise TypeError
    end.

(** The body of [createGenerator] from [index], for at most [n] more
    iterations: [lines[index]], [lines.slice(0, index)] and the function it
    yields. *)
Fixpoint generate (lines : list (option Line)) (index n : nat)
  : list (item (list Point) error) :=
  match n with
  | 0 => []
  | S n' =>
      match nth_error lines index with
      | Some line =>
          let finieshLines := firstn index lines in
          work line finieshLines :: generate lines (S index) n'
      | None => []
      end
  end.

(** The generator of [createIntersectPoints]: [index] from [INIT = 0] while
    it is below [MAX = lines.length]. *)
Definition createGenerator (lines : list (option Line))
  : list (item (list Point) error) :=
  generate lines 0 (length lines).

Definition CONCURRENCY : nat := 10.

(** [createIntersectPoints(lines)]: the groups of the workers, concatenated
    in their order. *)
Definition createIntersectPoints (lines : list (option Line))
  : promise error (list Point) :=
  match asynccParallel (createGenerator lines) CONCURRENCY with
  | Fulfilled results => Fulfilled (concat (concat results))
  | Rejected e => Rejected e
  | Pending => Pending
  end.

End Worker.

End Viewer.

(** ** Bulge arcs: [THREEx.Math.angle2], [THREEx.Math.polar] and
    [THREEx.BulgeGeometry] *)

Module THREEx.
Local Open Scope R_scope.

(** A [THREE.Vector3] of the plane: its [z] is 0 wherever this code makes
    one, and adds nothing to a length. *)
Record Vector3 := { x : R; y : R }.

(** [v.sub(w)], [v.length()], [v.normalize()], which divides by
    [length() || 1], and [v.distanceTo(w)], of three.js. *)
Definition sub (v w : Vector3) : Vector3 :=
  {| x := x v - x w; y := y v - y w |}.

Definition length (v : Vector3) : R :=
  sqrt (x v * x v + y v * y v).

Definition normalize (v : Vector3) : Vector3 :=
  let l := length v in
  let s := if Req_dec_T l 0 then 1 else l in
  {| x := x v / s; y := y v / s |}.

Definition distanceTo (v w : Vector3) : R :=
  length (sub v w).

(** [THREEx.Math.angle2(p1, p2)]. *)
Definition angle2 (p1 p2 : Vector3) : R :=
  let v2 := normalize (sub p2 p1) in
  if Rlt_dec (y v2) 0 then - acos (x v2) else acos (x v2).

(** [THREEx.Math.polar(point, distance, angle)]. *)
Definition polar (point : Vector3) (distance angle : R) : Vector3 :=
  {| x := x point + distance * cos angle;
     y := y point + distance * sin angle |}.

(** [bulge || 1]: [None] is an argument left out; 0 is falsy too. *)
Definition bulge_or_1 (bulge : option R) : R :=
  match bulge with
  | Some b => if Req_dec_T b 0 then 1 else b
  | None => 1
  end.

(** [Math.max(Math.abs(Math.ceil(angle / (Math.PI / 18))), 6)]. *)
Definition default_segments (angle : R) : nat :=
  Z.to_nat (Z.max (Z.abs (Zceil (angle / (PI / 18)))) 6).

(** [segments || ...]: [None] is an argument left out; 0 is falsy too. A
    segment count is a natural number. *)
Definition segments_or_default (segments : option nat) (angle : R) : nat :=
  match segments with
  | Some (S n) => S n
  | _ => default_segments angle
  end.

(** What the constructor leaves in [this]. *)
Record Geometry := {
  startPoint : Vector3;
  endPoint : Vector3;
  bulge : R;
  segments : nat;
  vertices : list Vector3
}.

(** The interior points its [for] loop pushes, [i] from 1 to [segments - 1]. *)
Definition arc_points (center : Vector3) (radius startAngle thetaAngle : R)
  (segments : nat) : list Vector3 :=
  map (fun i => polar center (Rabs radius) (startAngle + thetaAngle * INR i))
    (seq 1 (segments - 1)).

(** [new THREEx.BulgeGeometry(startPoint, endPoint, bulge, segments)]. The
    start point is read by [polar] as it is given, so it is no option here;
    the end point left out is (1, 0, 0). *)
Definition BulgeGeometry (startPoint : Vector3) (endPoint : option Vector3)
  (bulge : option R) (segments : option nat) : Geometry :=
  let p0 := startPoint in
  let p1 := match endPoint with Some e => e | None => {| x := 1; y := 0 |} end in
  let bulge := bulge_or_1 bulge in
  let angle := 4 * atan bulge in
  let radius := distanceTo p0 p1 / 2 / sin (angle / 2) in
  let center :=
    polar startPoint radius (angle2 p0 p1 + (PI / 2 - angle / 2)) in
  let segments := segments_or_default segments angle in
  let startAngle := angle2 center p0 in
  let thetaAngle := angle / INR segments in
  {| startPoint := p0;
     endPoint := p1;
     bulge := bulge;
     segments := segments;
     vertices := p0 :: arc_points center radius startAngle thetaAngle segments |}.

(** The default segment count as the specification words it:
    [max(ceil(|includedAngle| / 10 degrees), 6)]. *)
Definition spec_segment_count (angle : R) : nat :=
  Z.to_nat (Z.max (Zceil (Rabs angle / (PI / 18))) 6).

(** The semicircle from (0,0) to (2,0), of bulge 1, with the default
    segment count. *)
Definition semicircle : Geometry :=
  BulgeGeometry {| x := 0; y := 0 |} (Some {| x := 2; y := 0 |}) (Some 1) None.

End THREEx.

(** ** Lines through two points, and the intersection code of the older viewer *)

Module Lines.
Import Num Intersect.
Local Open Scope Qc_scope.

(** The point [p] is on the line through [p1] and [p2]. *)
Definition collinear (p1 p2 p : Point) : Prop :=
  (x p - x p1) * (y p2 - y p1) = (y p - y p1) * (x p2 - x p1).

(** The point [p] is on the line a coefficient model stands for. *)
Definition on_line (m : CoefficientModel) (p : Point) : Prop :=
  match m with
  | Vertical vx => x p = vx
  | Horizontal hy => y p = hy
  | Sloped a k => y p = a * x p + k
  | Degenerate => False
  end.

(** The column [r] solves the system [A . r = b]. *)
Definition solves (A : Mathjs.matrix) (b r : Mathjs.vector) : Prop :=
  fst (fst A) * fst r + snd (fst A) * snd r = fst b /\
  fst (snd A) * fst r + snd (snd A) * snd r = snd b.




Section Worker.
Context {solver : Solver}.

(** What the solver returns for the system [A . r = b], if anything, solves
    it. *)
Definition answers (A : Mathjs.matrix) (b : Mathjs.vector) : Prop :=
  forall r, lusolve A b = Some r -> solves A b r.


End Worker.

End Lines.

Module Dist.
Import Num Intersect.



Section Worker.
Context {solver : Solver}.

(** One iteration of the loop of [createIntersectPoint(point1, point2)] of
    dist/three-dxf.js: the body of the loop of [findCrossPoint], with the same
    chain and the same last test, without the test of the boxes before. *)
Definition iteration (point1 point2 : Point) (ao ko : coef) (st : vars)
  (c : Line) : option vars :=
  let bo := box point1 point2 in
  let bt := box (start c) (end_ c) in
  match getCoefficienConst (start c) (end_ c) with
  | None => None
  | Some (at_, kt) =>
      Some (after_chain point1 point2 bo bt st (cross ao ko at_ kt))
  end.

Fixpoint loop (point1 point2 : Point) (ao ko : coef) (st : vars)
  (lineVecs : list Line) : option vars :=
  match lineVecs with
  | [] => Some st
  | c :: rest =>
      match iteration point1 point2 ao ko st c with
      | None => None
      | Some st' => loop point1 point2 ao ko st' rest
      end
  end.

(** [createIntersectPoint(point1, point2)] on the [lineVecs] and the
    [intersects] of the viewer: the [intersects] it leaves; [None] when it
    raises. *)
Definition createIntersectPoint (point1 point2 : Point)
  (lineVecs : list Line) (intersects0 : list Point) : option (list Point) :=
  match getCoefficienConst point1 point2 with
  | None => None
  | Some (ao, ko) =>
      option_map intersects
        (loop point1 point2 ao ko
           {| intersects := intersects0;
              intersectX := None;
              intersectY := None |}
           lineVecs)
  end.


End Worker.

End Dist.

(** ** The order of the results *)

Module Deal.
Import Intersect Scheduler Viewer.

Section Dealt.

Variables T E : Type.

(** After [m] steps of the event loop on [concurrency] workers, [m] items at
    most have been taken, and the worker [j] holds the values of the items
    [j], [j + concurrency], [j + 2 * concurrency], ... among them, in that
    order; [vs] are the values of the items. *)
Definition dealt (concurrency : nat) (vs : list T) (m : nat)
  (s : state T E) : Prop :=
  yielded s = Nat.min m (length vs) /\
  forall j w,
    nth_error (workers s) j = Some w ->
    forall i,
      nth_error (vals_of w) i =
      if j + i * concurrency <? Nat.min m (length vs)
      then nth_error vs (j + i * concurrency)
      else None.

End Dealt.

Arguments dealt {T E} concurrency vs m s.

Section Worker.
Context {solver : Solver}.



End Worker.

End Deal.

(** ** Polylines: [drawLine] *)

Module Polyline.
Import THREEx.
Local Open Scope R_scope.

(** An entry of [entity.vertices]; [None] is a [bulge] left out. *)
Record Vertex := { vx : R; vy : R; vbulge : option R }.

(** [new THREE.Vector3(vertex.x, vertex.y, 0)]. *)
Definition vec (v : Vertex) : Vector3 := {| x := vx v; y := vy v |}.

(** The bulge of a vertex when [if (entity.vertices[i].bulge)] holds: 0 is
    falsy, as a bulge left out is. *)
Definition truthy_bulge (v : Vertex) : option R :=
  match vbulge v with
  | Some b => if Req_dec_T b 0 then None else Some b
  | None => None
  end.

(** The first loop of [drawLine] from the vertex [i] on: [rest] are the
    vertices [i], [i + 1], ... and [acc] is [geometry.vertices]. The end
    point of the arc of a vertex with a bulge is the next vertex, or, after
    the last one, [geometry.vertices[0]], which is [undefined] as long as
    nothing has been pushed. *)
Fixpoint geometry_loop (rest : list Vertex) (acc : list Vector3)
  : list Vector3 :=
  match rest with
  | [] => acc
  | v :: rest' =>
      match truthy_bulge v with
      | Some bulge =>
          let endPoint :=
            match rest' with
            | w :: _ => Some (vec w)
            | [] => hd_error acc
            end in
          let bulgeGeometry :=
            BulgeGeometry (vec v) endPoint (Some bulge) None in
          geometry_loop rest' (acc ++ vertices bulgeGeometry)
      | None => geometry_loop rest' (acc ++ [vec v])
      end
  end.

Definition geometry_vertices (entity_vertices : list Vertex) : list Vector3 :=
  geometry_loop entity_vertices [].

(** [if (entity.shape) geometry.vertices.push(geometry.vertices[0])], as the
    loop of the segments reads it: on no vertex at all the push adds one
    [undefined], which that loop, from [i = 1], pairs with nothing. *)
Definition closed (shape : bool) (vs : list Vector3) : list Vector3 :=
  if shape then
    match vs with
    | [] => []
    | v0 :: _ => vs ++ [v0]
    end
  else vs.

(** [{ start, end }], an entry of [lineVecs]. *)
Record Segment := { start : Vector3; end_ : Vector3 }.

(** The loop of the segments: [i] from 1, the vertices [i - 1] and [i]. *)
Fixpoint pairs (vs : list Vector3) : list Segment :=
  match vs with
  | a :: (b :: _) as rest => {| start := a; end_ := b |} :: pairs rest
  | _ => []
  end.

(** The [lineVecs] of [drawLine(entity, data)]. *)
Definition drawLine (entity_vertices : list Vertex) (shape : bool)
  : list Segment :=
  pairs (closed shape (geometry_vertices entity_vertices)).

End Polyline.

(** ** Colors and solids: [getColor], [drawSolid] *)

Module Entities.
Import Num.
Local Open Scope Qc_scope.

Definition white : Z := 16777215.   (* 0xffffff *)

(** [getColor(entity, data)]. [entity_color] is [entity.color], [None] when
    it is left out; [layer] is [data.tables.layer.layers[entity.layer]],
    [None] when the tables, the layers or that layer are missing, and
    otherwise the [color] of the layer, [None] when it has none. *)
Definition getColor (entity_color : option Z) (layer : option (option Z))
  : Z :=
  let color : option Z :=
    match entity_color with
    | Some c =>
        if (c =? 0)%Z then
          match layer with Some l => l | None => Some 0%Z end
        else Some c
    | None =>
        match layer with Some l => l | None => Some 0%Z end
    end in
  match color with
  | None => 0%Z                                   (* color == null *)
  | Some c => if (c =? white)%Z then 0%Z else c   (* color === 0xffffff *)
  end.

(** A point of [entity.points]. *)
Record Point3 := { px : num; py : num; pz : num }.

(** The [z] of the cross product of [b - a] and [c - a]: twice the signed
    area of the triangle [a], [b], [c] seen from above. *)
Definition cross_z (a b c : Point3) : num :=
  (px b - px a) * (py c - py a) - (py b - py a) * (px c - px a).

(** The faces [drawSolid(entity, data)] pushes, by the indices of their
    vertices; [None] when [entity.points] has fewer than four points, which
    raises a [TypeError]. *)
Definition drawSolid (points : list Point3) : option (list (nat * nat * nat)) :=
  match points with
  | p0 :: p1 :: p2 :: p3 :: _ =>
      if ltb (cross_z p0 p1 p2) 0
      then Some [(2, 1, 0); (2, 3, 0)]%nat
      else Some [(0, 1, 2); (0, 3, 2)]%nat
  | _ => None
  end.

End Entities.

(** ** The scope of the view: [createViewScope] and the viewport of
    [Viewer] *)

Module ViewScope.
Import Num.
Local Open Scope Qc_scope.

(** The [min] and [max] of a [THREE.Box3]. *)
Record Box3 := {
  min_x : num; min_y : num; min_z : num;
  max_x : num; max_y : num; max_z : num
}.

(** [dims]: [None] is [false]. *)
Record Dims := {
  dmin_x : option num; dmin_y : option num; dmin_z : option num;
  dmax_x : option num; dmax_y : option num; dmax_z : option num
}.

(** [if (b && (d === false || d > b)) d = b]: 0 is falsy. *)
Definition lower (d : option num) (b : num) : option num :=
  if negb (eqb b 0) &&
     match d with None => true | Some v => ltb b v end
  then Some b else d.

(** [if (b && (d === false || d < b)) d = b]. *)
Definition upper (d : option num) (b : num) : option num :=
  if negb (eqb b 0) &&
     match d with None => true | Some v => ltb v b end
  then Some b else d.

(** The shape the six tests share, [before b v] being the comparison that
    lets the bound [b] of a box take the place of the value [v] of [dims]. *)
Definition pick (before : num -> num -> bool) (d : option num) (b : num)
  : option num :=
  if negb (eqb b 0) &&
     match d with None => true | Some v => before b v end
  then Some b else d.

(** A field of [dims] is the least, or the greatest, of the bounds other
    than 0, and [false] when all the bounds are 0. *)
Definition least_nonzero (bounds : list num) (d : option num) : Prop :=
  match d with
  | None => Forall (fun b => b = 0) bounds
  | Some m =>
      m <> 0 /\ In m bounds /\
      forall b, In b bounds -> b <> 0 -> m <= b
  end.

Definition greatest_nonzero (bounds : list num) (d : option num) : Prop :=
  match d with
  | None => Forall (fun b => b = 0) bounds
  | Some m =>
      m <> 0 /\ In m bounds /\
      forall b, In b bounds -> b <> 0 -> b <= m
  end.

(** The body of the loop of [createViewScope] on the box of one object. *)
Definition scope_step (dims : Dims) (bbox : Box3) : Dims :=
  {| dmin_x := lower (dmin_x dims) (min_x bbox);
     dmin_y := lower (dmin_y dims) (min_y bbox);
     dmin_z := lower (dmin_z dims) (min_z bbox);
     dmax_x := upper (dmax_x dims) (max_x bbox);
     dmax_y := upper (dmax_y dims) (max_y bbox);
     dmax_z := upper (dmax_z dims) (max_z bbox) |}.

(** [createViewScope(objs)], on the boxes [setFromObject] gives for the
    objects. *)
Definition createViewScope (boxes : list Box3) : Dims :=
  fold_left scope_step boxes
    {| dmin_x := None; dmin_y := None; dmin_z := None;
       dmax_x := None; dmax_y := None; dmax_z := None |}.

(** A field of [dims] in arithmetic: [false] counts as 0. *)
Definition number_of (d : option num) : num :=
  match d with Some v => v | None => 0 end.

(** [viewPort], with its [center]. *)
Record ViewPort := {
  bottom : num; left : num; top : num; right : num;
  center_x : num; center_y : num
}.

(** The viewport [Viewer] computes from [width], [height] and [dims].
    [None] stands for the divisions by 0, which leave the exact numbers:
    [width / height], [vp_width / vp_height] and [vp_width / aspectRatio]. *)
Definition viewPort (width height : num) (dims : Dims) : option ViewPort :=
  if eqb height 0 then None else
  let aspectRatio := width / height in
  let upperRightCorner_x := number_of (dmax_x dims) in
  let upperRightCorner_y := number_of (dmax_y dims) in
  let lowerLeftCorner_x := number_of (dmin_x dims) in
  let lowerLeftCorner_y := number_of (dmin_y dims) in
  let vp_width := upperRightCorner_x - lowerLeftCorner_x in
  let vp_height := upperRightCorner_y - lowerLeftCorner_y in
  let cx := vp_width / of_Z 2 + lowerLeftCorner_x in
  let cy := vp_height / of_Z 2 + lowerLeftCorner_y in
  if eqb vp_height 0 then None else
  let extentsAspectRatio := Qcabs (vp_width / vp_height) in
  if ltb extentsAspectRatio aspectRatio then
    let vp_width := vp_height * aspectRatio in
    Some {| bottom := - vp_height / of_Z 2; left := - vp_width / of_Z 2;
            top := vp_height / of_Z 2; right := vp_width / of_Z 2;
            center_x := cx; center_y := cy |}
  else
    if eqb aspectRatio 0 then None else
    let vp_height := vp_width / aspectRatio in
    Some {| bottom := - vp_height / of_Z 2; left := - vp_width / of_Z 2;
            top := vp_height / of_Z 2; right := vp_width / of_Z 2;
            center_x := cx; center_y := cy |}.

End ViewScope.

(** ** The camera after [resize] *)

Module Resize.
Import Num.
Local Open Scope Qc_scope.

(** The frustum of the orthographic camera. *)
Record Camera := {
  left : num; right : num; top : num; bottom : num
}.

(** The camera and the size of [renderer.domElement], which
    [renderer.setSize(width, height)] sets to [width] and [height] for sizes
    in whole pixels and the pixel ratio 1 of a new renderer. *)
Record View := {
  camera : Camera;
  domElement_width : Z;
  domElement_height : Z
}.

(** [this.resize(width, height)]. [None] stands for the divisions by 0 of a
    canvas without width or height, which leave the exact numbers. *)
Definition resize (width height : Z) (v : View) : option View :=
  let originalWidth := domElement_width v in
  let originalHeight := domElement_height v in
  if (originalWidth =? 0)%Z || (originalHeight =? 0)%Z then None else
  let hscale := of_Z width / of_Z originalWidth in
  let vscale := of_Z height / of_Z originalHeight in
  Some {| camera :=
            {| top := vscale * top (camera v);
               bottom := vscale * bottom (camera v);
               left := hscale * left (camera v);
               right := hscale * right (camera v) |};
          domElement_width := width;
          domElement_height := height |}.

End Resize.

(** ** The objects of the scene: [createObjects] *)

Module Objects.
Import Intersect Scheduler Viewer.

Section Draw.

(** The entities of the drawing, the objects of three.js, and
    [drawEntity(entity, data, font)] as the promise of [createObject]
    settles: with what [drawEntity] returns, or with the error it raises. *)
Variables Entity Mesh E : Type.

(** [{ mesh, lineVecs }]; [None] is a [mesh] or a [lineVecs] that is
    [undefined]: [drawEntity] returns [lineVecs] as [drawBlock] gives it, and
    [drawBlock] gives none for a block without entities. *)
Record drawn := { mesh : option Mesh; lineVecs : option (list Line) }.

Variable drawEntity : Entity -> settled drawn E.

(** The generator of [createObjects]: one item for each entity. *)
Definition createGenerator (entities : list Entity)
  : list (item drawn E) :=
  map (fun entity _ => drawEntity entity) entities.

(** [lineVecs.concat(v)]: the entries of an array, or [v] itself, an
    [undefined] here, as one more entry. *)
Definition concat_lineVecs (acc : list (option Line))
  (v : option (list Line)) : list (option Line) :=
  acc ++ match v with
         | Some l => map Some l
         | None => [None]
         end.

(** The two loops over [results]: the items of the groups in their order;
    an item without mesh is skipped, with its [lineVecs]. *)
Definition collect (results : list (list drawn))
  : list Mesh * list (option Line) :=
  fold_left
    (fun acc item =>
       match mesh item with
       | None => acc
       | Some obj => (fst acc ++ [obj], concat_lineVecs (snd acc) (lineVecs item))
       end)
    (concat results) ([], []).

(** [createObjects(data, font)]: [objs] and [lineVecs]. *)
Definition createObjects (entities : list Entity)
  : promise E (list Mesh * list (option Line)) :=
  match asynccParallel (createGenerator entities) CONCURRENCY with
  | Fulfilled results => Fulfilled (collect results)
  | Rejected e => Rejected e
  | Pending => Pending
  end.

(** The objects and the segments of what was drawn, in its order. *)
Definition objs_of (ds : list drawn) : list Mesh :=
  flat_map (fun d => match mesh d with Some obj => [obj] | None => [] end) ds.

Definition lineVecs_of (ds : list drawn) : list (option Line) :=
  flat_map
    (fun d =>
       match mesh d with
       | Some _ => concat_lineVecs [] (lineVecs d)
       | None => []
       end) ds.

End Draw.

Arguments mesh {Mesh} d.
Arguments lineVecs {Mesh} d.
Arguments createGenerator {Entity Mesh E} drawEntity entities.
Arguments concat_lineVecs acc v : simpl never.
Arguments collect {Mesh} results.
Arguments createObjects {Entity Mesh E} drawEntity entities.
Arguments objs_of {Mesh} ds.
Arguments lineVecs_of {Mesh} ds.

End Objects.

(** * Properties *)

(** ** Exact numbers *)

Module NumFacts.
Import Num.
Local Open Scope Qc_scope.

Lemma eqb_spec a b : reflect (a = b) (eqb a b).
Proof.
  unfold eqb. destruct (Qccompare a b) eqn:E; constructor;
    rewrite Qceq_alt, E; congruence.
Qed.

Lemma ltb_spec a b : reflect (a < b) (ltb a b).
Proof.
  unfold ltb. destruct (Qccompare a b) eqn:E; constructor;
    rewrite Qclt_alt, E; congruence.
Qed.

Lemma leb_spec a b : reflect (a <= b) (leb a b).
Proof.
  unfold leb. destruct (Qccompare a b) eqn:E; constructor;
    rewrite Qcle_alt, E; congruence.
Qed.

Lemma eqb_refl a : eqb a a = true.
Proof. destruct (eqb_spec a a); congruence. Qed.

Lemma eqb_neq a b : a <> b -> eqb a b = false.
Proof. destruct (eqb_spec a b); congruence. Qed.







(** A number of absolute value at most that of 0 is 0. *)
Lemma abs_le_0 a b : ~ Qcabs a < Qcabs b -> a = 0 -> b = 0.
Proof.
  intros H ->. apply Qcabs_null. apply Qcle_antisym.
  - apply Qcnot_lt_le in H.
    now rewrite (Qcabs_pos 0 (Qcle_refl 0)) in H.
  - apply Qcabs_nonneg.
Qed.

Lemma abs_lt_nonzero a b : Qcabs a < Qcabs b -> b <> 0.
Proof.
  intros H ->. apply (Qclt_not_le _ _ H). apply Qcabs_nonneg.
Qed.

End NumFacts.

(** ** The linear solver *)

Module ZFacts.
Import Num NumFacts.
Local Open Scope Qc_scope.

Lemma of_Z_add a b : of_Z (a + b) = of_Z a + of_Z b.
Proof.
  unfold of_Z. apply Qc_is_canon. cbn [this Qcplus Q2Qc].
  rewrite !Qred_correct, inject_Z_plus. reflexivity.
Qed.

Lemma of_Z_mul a b : of_Z (a * b) = of_Z a * of_Z b.
Proof.
  unfold of_Z. apply Qc_is_canon. cbn [this Qcmult Q2Qc].
  rewrite !Qred_correct, inject_Z_mult. reflexivity.
Qed.

Lemma of_Z_opp a : of_Z (- a) = - of_Z a.
Proof.
  unfold of_Z. apply Qc_is_canon. cbn [this Qcopp Q2Qc].
  rewrite !Qred_correct, inject_Z_opp. reflexivity.
Qed.

Lemma of_Z_sub a b : of_Z (a - b) = of_Z a - of_Z b.
Proof.
  unfold Qcminus. rewrite <- of_Z_opp, <- of_Z_add. reflexivity.
Qed.

Lemma of_Z_le a b : (a <= b)%Z <-> of_Z a <= of_Z b.
Proof.
  unfold of_Z, Qcle. cbn [this Q2Qc]. rewrite !Qred_correct.
  rewrite Zle_Qle. reflexivity.
Qed.

Lemma of_Z_lt a b : (a < b)%Z <-> of_Z a < of_Z b.
Proof.
  unfold of_Z, Qclt. cbn [this Q2Qc]. rewrite !Qred_correct.
  rewrite Zlt_Qlt. reflexivity.
Qed.

Lemma of_Z_inj a b : of_Z a = of_Z b -> a = b.
Proof.
  intros H. apply Z.le_antisymm; apply of_Z_le; rewrite H; apply Qcle_refl.
Qed.

Lemma of_Z_abs a : Qcabs (of_Z a) = of_Z (Z.abs a).
Proof.
  destruct (Z.le_ge_cases 0 a) as [H|H].
  - rewrite Z.abs_eq by exact H. apply Qcabs_pos.
    now apply (of_Z_le 0 a).
  - rewrite Z.abs_neq by exact H. rewrite of_Z_opp. apply Qcabs_neg.
    now apply (of_Z_le a 0).
Qed.

End ZFacts.

Module MathjsFacts.
Import Num NumFacts Mathjs ZFacts.
Local Open Scope Qc_scope.

Arguments lusolve : simpl never.

Lemma Qcabs_0 : Qcabs 0 = 0.
Proof. apply Qcabs_pos, Qcle_refl. Qed.

Lemma abs_pos q : q <> 0 -> 0 < Qcabs q.
Proof.
  intros Hq. destruct (Qcle_lt_or_eq _ _ (Qcabs_nonneg q)) as [H|H]; auto.
  symmetry in H. apply Qcabs_null in H. contradiction.
Qed.

(** A number is [equalScalar] to 0 when it is within 2^-52 of 0. *)
Lemma equalScalar_0 q : equalScalar q 0 = true <-> Qcabs q < DBL_EPSILON.
Proof.
  unfold equalScalar, nearlyEqual.
  replace (q - 0) with q by ring.
  destruct (eqb_spec q 0) as [->|Hq].
  - split; [intros _|reflexivity]. rewrite Qcabs_0. reflexivity.
  - destruct (ltb_spec (Qcabs q) DBL_EPSILON) as [H|H]; [tauto|].
    split; [|contradiction]. intros Hle. exfalso.
    apply (reflect_iff _ _ (leb_spec _ _)) in Hle.
    rewrite Qcabs_0 in Hle.
    assert (Hm : max (Qcabs q) 0 = Qcabs q).
    { unfold max. destruct (ltb_spec (Qcabs q) 0) as [Hlt|_]; [|reflexivity].
      exfalso. apply (Qclt_not_le _ _ Hlt), Qcabs_nonneg. }
    rewrite Hm in Hle. apply (Qcle_not_lt _ _ Hle).
    rewrite <- (Qcmult_1_r (Qcabs q)) at 2. rewrite !(Qcmult_comm (Qcabs q)).
    apply Qcmult_lt_compat_r; [now apply abs_pos|reflexivity].
Qed.

Lemma equalScalar_0_false q :
  equalScalar q 0 = false <-> DBL_EPSILON <= Qcabs q.
Proof.
  pose proof (equalScalar_0 q) as H.
  destruct (equalScalar q 0); split; intros H1; try reflexivity.
  - discriminate.
  - exfalso. apply (Qcle_not_lt _ _ H1). now apply H.
  - apply Qcnot_lt_le. intros H2. apply H in H2. discriminate.
Qed.

Lemma far_nonzero q : DBL_EPSILON <= Qcabs q -> q <> 0.
Proof.
  intros H ->. rewrite Qcabs_0 in H. apply (Qcle_not_lt _ _ H). reflexivity.
Qed.

(** On a number that is 0 or at least 2^-52 away from it, [equalScalar]
    with 0 is [==]. *)
Lemma equalScalar_far q : zero_or_far q -> equalScalar q 0 = eqb q 0.
Proof.
  intros [->|H].
  - rewrite eqb_refl. apply equalScalar_0. rewrite Qcabs_0. reflexivity.
  - rewrite (eqb_neq _ _ (far_nonzero _ H)). now apply equalScalar_0_false.
Qed.

Lemma equalScalar_1 : equalScalar 1 0 = false.
Proof. reflexivity. Qed.

(** [larger] than 0: at least 2^-52. *)
Lemma larger_0 q : larger (Qcabs q) 0 = true <-> DBL_EPSILON <= Qcabs q.
Proof.
  unfold larger. rewrite andb_true_iff, negb_true_iff.
  change (nearlyEqual (Qcabs q) 0) with (equalScalar (Qcabs q) 0).
  rewrite equalScalar_0_false.
  rewrite (Qcabs_pos (Qcabs q)) by apply Qcabs_nonneg.
  split; [tauto|]. intros H. split; [|exact H].
  apply (reflect_iff _ _ (ltb_spec _ _)).
  apply Qclt_le_trans with DBL_EPSILON; [reflexivity|exact H].
Qed.

Lemma larger_lt a b : larger a b = true -> b < a.
Proof.
  unfold larger. rewrite andb_true_iff. intros [H _].
  now apply (reflect_iff _ _ (ltb_spec _ _)).
Qed.

Lemma some_pair (a b c d : Qc) : a = c -> b = d -> Some (a, b) = Some (c, d).
Proof. now intros -> ->. Qed.

Lemma div_1 (q : Qc) : q / 1 = q.
Proof. field. discriminate. Qed.

Lemma div_0_l (q : Qc) : 0 / q = 0.
Proof. unfold Qcdiv. ring. Qed.

(** The forward substitution on right-hand sides that are 0 or far from
    it. *)
Lemma lsolve_far z l10 b0 b1 :
  zero_or_far b0 -> zero_or_far (b1 - b0 * l10) ->
  lsolve ((1, z), (l10, 1)) (b0, b1) = Some (b0, b1 - b0 * l10).
Proof.
  intros H0 H1. unfold lsolve.
  rewrite (equalScalar_far _ H0), equalScalar_1, !div_1.
  destruct (eqb_spec b0 0) as [E0|E0].
  - subst b0. replace (b1 - 0 * l10) with b1 in * by ring.
    rewrite (equalScalar_far _ H1), div_1.
    destruct (eqb_spec b1 0) as [E1|E1]; [now subst|reflexivity].
  - rewrite (equalScalar_far _ H1), div_1.
    destruct (eqb_spec (b1 - b0 * l10) 0) as [E1|E1]; [|reflexivity].
    now rewrite E1.
Qed.

(** The backward substitution, when it divides by pivots far from 0. *)
Lemma usolve_far u00 u01 z u11 b0 b1 :
  zero_or_far b1 -> (b1 <> 0 -> DBL_EPSILON <= Qcabs u11) ->
  zero_or_far (b0 - b1 / u11 * u01) ->
  (b0 - b1 / u11 * u01 <> 0 -> DBL_EPSILON <= Qcabs u00) ->
  usolve ((u00, u01), (z, u11)) (b0, b1)
  = Some ((b0 - b1 / u11 * u01) / u00, b1 / u11).
Proof.
  intros H1 P1 H0 P0. unfold usolve.
  rewrite (equalScalar_far _ H1).
  destruct (eqb_spec b1 0) as [E1|E1].
  - subst b1. rewrite div_0_l in *.
    replace (b0 - 0 * u01) with b0 in * by ring.
    rewrite (equalScalar_far _ H0).
    destruct (eqb_spec b0 0) as [E0|E0].
    + subst b0. now rewrite div_0_l.
    + apply P0, equalScalar_0_false in E0. now rewrite E0.
  - apply P1, equalScalar_0_false in E1. rewrite E1.
    rewrite (equalScalar_far _ H0).
    destruct (eqb_spec (b0 - b1 / u11 * u01) 0) as [E0|E0].
    + now rewrite E0, div_0_l.
    + apply P0, equalScalar_0_false in E0. now rewrite E0.
Qed.

(** The backward substitution raises on a second pivot within 2^-52 of 0
    when the right-hand side of its row is not 0. *)
Lemma usolve_raises u00 u01 z u11 b0 b1 :
  zero_or_far b1 -> b1 <> 0 -> Qcabs u11 < DBL_EPSILON ->
  usolve ((u00, u01), (z, u11)) (b0, b1) = None.
Proof.
  intros H1 N1 P1. unfold usolve.
  rewrite (equalScalar_far _ H1), (eqb_neq _ _ N1).
  apply equalScalar_0 in P1. now rewrite P1.
Qed.

(** The backward substitution on a second row whose right-hand side and
    pivot are away from 0. *)
Lemma usolve_regular u00 u01 z u11 b0 b1 :
  zero_or_far b1 -> b1 <> 0 -> DBL_EPSILON <= Qcabs u11 ->
  usolve ((u00, u01), (z, u11)) (b0, b1) =
  if equalScalar (b0 - b1 / u11 * u01) 0 then Some (0, b1 / u11)
  else if equalScalar u00 0 then None
  else Some ((b0 - b1 / u11 * u01) / u00, b1 / u11).
Proof.
  intros H1 N1 P1. unfold usolve.
  rewrite (equalScalar_far _ H1), (eqb_neq _ _ N1).
  apply equalScalar_0_false in P1. now rewrite P1.
Qed.

(** [lusolve] raises only on a pivot within 2^-52 of 0. *)
Lemma lusolve_raises A b :
  lusolve A b = None ->
  let '(_, U, _) := lup A in
  Qcabs (fst (fst U)) < DBL_EPSILON \/ Qcabs (snd (snd U)) < DBL_EPSILON.
Proof.
  unfold lusolve, lup. destruct (pivot A) as [swap vjj].
  destruct (if swap then (snd A, fst A) else A) as [[d00 d01] [d10 d11]].
  destruct (if swap then (snd b, fst b) else b) as [b0 b1].
  cbn [fst snd]. unfold lsolve, usolve. rewrite equalScalar_1.
  repeat match goal with
         | |- context [if equalScalar ?q 0 then _ else _] =>
             let E := fresh "E" in destruct (equalScalar q 0) eqn:E
         end;
    try discriminate; intros _;
    match goal with
    | E : equalScalar d00 0 = true |- _ => left; now apply equalScalar_0
    | E : equalScalar _ 0 = true |- _ \/ Qcabs ?u < _ =>
        right; now apply equalScalar_0
    end.
Qed.

End MathjsFacts.

Module IntegerFacts.
Import Num NumFacts Mathjs ZFacts MathjsFacts.
Local Open Scope Qc_scope.

Lemma of_Z_neq_0 n : n <> 0%Z -> of_Z n <> 0.
Proof. intros H E. apply H. now apply of_Z_inj. Qed.

Lemma DBL_EPSILON_2_52 : DBL_EPSILON * of_Z (2 ^ 52) = 1.
Proof. apply Qc_is_canon. reflexivity. Qed.

(** A quotient of two integers, the divisor at most 2^52 in absolute value,
    is 0 or at least 2^-52 away from 0. *)
Lemma quotient_far_nonzero n d :
  n <> 0%Z -> d <> 0%Z -> (Z.abs d <= 2 ^ 52)%Z ->
  DBL_EPSILON <= Qcabs (of_Z n / of_Z d).
Proof.
  intros Hn Hd Hb.
  pose proof (of_Z_neq_0 d Hd) as HD.
  apply Qcmult_lt_0_le_reg_r with (Qcabs (of_Z d)); [now apply abs_pos|].
  rewrite <- Qcabs_Qcmult.
  replace (of_Z n / of_Z d * of_Z d) with (of_Z n) by (field; exact HD).
  rewrite !of_Z_abs.
  apply Qcle_trans with (DBL_EPSILON * of_Z (2 ^ 52)).
  - rewrite !(Qcmult_comm DBL_EPSILON).
    apply Qcmult_le_compat_r; [apply (proj1 (of_Z_le _ _)); exact Hb|].
    apply Qclt_le_weak. reflexivity.
  - rewrite DBL_EPSILON_2_52. apply (proj1 (of_Z_le 1 _)). lia.
Qed.

Lemma quotient_far n d :
  d <> 0%Z -> (Z.abs d <= 2 ^ 52)%Z -> zero_or_far (of_Z n / of_Z d).
Proof.
  intros Hd Hb. destruct (Z.eq_dec n 0) as [->|Hn].
  - left. apply div_0_l.
  - right. now apply quotient_far_nonzero.
Qed.

Lemma integer_far n : zero_or_far (of_Z n).
Proof.
  rewrite <- (div_1 (of_Z n)). apply (quotient_far n 1); [discriminate|].
  cbn. lia.
Qed.

Lemma integer_far_nonzero n : n <> 0%Z -> DBL_EPSILON <= Qcabs (of_Z n).
Proof.
  intros Hn. rewrite <- (div_1 (of_Z n)).
  apply (quotient_far_nonzero n 1); [exact Hn|discriminate|cbn; lia].
Qed.

(** The two substitutions on the system of the line through two points of
    integer coordinates, the row of the pivot first. *)
Lemma substitutions_line (p yp o yo : Z) (z z' : Qc) :
  p <> 0%Z -> p <> o ->
  (Z.abs p <= 2 ^ 51)%Z -> (Z.abs o <= 2 ^ 51)%Z ->
  match lsolve ((1, z), (of_Z o / of_Z p, 1)) (of_Z yp, of_Z yo) with
  | Some v => usolve ((of_Z p, 1), (z', 1 - of_Z o / of_Z p * 1)) v
  | None => None
  end
  = Some (of_Z (yp - yo) / of_Z (p - o),
          of_Z (yo * p - yp * o) / of_Z (p - o)).
Proof.
  intros Hp Hpo Bp Bo.
  pose proof (of_Z_neq_0 p Hp) as HP.
  assert (Hd : (p - o <> 0)%Z) by lia.
  pose proof (of_Z_neq_0 _ Hd) as HD. rewrite of_Z_sub in HD.
  assert (E1 : of_Z yo - of_Z yp * (of_Z o / of_Z p)
               = of_Z (yo * p - yp * o) / of_Z p).
  { rewrite of_Z_sub, !of_Z_mul. field. exact HP. }
  assert (E2 : 1 - of_Z o / of_Z p * 1 = of_Z (p - o) / of_Z p).
  { rewrite of_Z_sub. field. exact HP. }
  assert (E3 : of_Z yp
               - of_Z (yo * p - yp * o) / of_Z p
                 / (of_Z (p - o) / of_Z p) * 1
               = of_Z (p * (yp - yo)) / of_Z (p - o)).
  { rewrite of_Z_mul, !of_Z_sub, !of_Z_mul. field. split; assumption. }
  rewrite lsolve_far.
  - rewrite E1, E2. rewrite usolve_far.
    + rewrite E3. apply some_pair.
      * rewrite of_Z_mul, !of_Z_sub. field. split; assumption.
      * rewrite !of_Z_sub, !of_Z_mul. field. split; assumption.
    + apply quotient_far; [exact Hp|lia].
    + intros _. apply quotient_far_nonzero; [exact Hd|exact Hp|lia].
    + rewrite E3. apply quotient_far; [exact Hd|lia].
    + intros _. now apply integer_far_nonzero.
  - apply integer_far.
  - rewrite E1. apply quotient_far; [exact Hp|lia].
Qed.

(** The pivot of the system of the line through two points of integer
    coordinates and different abscissas: one of the abscissas, and not 0. *)
Lemma pivot_line (x1 x2 : Z) (u v : Qc) :
  x1 <> x2 ->
  exists swap : bool,
    pivot ((of_Z x1, u), (of_Z x2, v))
    = (swap, of_Z (if swap then x2 else x1)) /\
    (if swap then x2 else x1) <> 0%Z.
Proof.
  intros Hx. unfold pivot.
  destruct (larger (Qcabs (of_Z x1)) 0) eqn:L1.
  - apply larger_0, far_nonzero in L1.
    destruct (larger (Qcabs (of_Z x2)) (Qcabs (of_Z x1))) eqn:L2.
    + exists true. split; [reflexivity|]. intros ->.
      apply larger_lt in L2. apply (Qclt_not_le _ _ L2).
      change (of_Z 0) with (Q2Qc 0). rewrite Qcabs_0. apply Qcabs_nonneg.
    + exists false. split; [reflexivity|]. intros ->. now apply L1.
  - assert (x1 = 0%Z) as ->.
    { destruct (Z.eq_dec x1 0) as [|H]; [assumption|].
      apply integer_far_nonzero, larger_0 in H. congruence. }
    assert (L2 : larger (Qcabs (of_Z x2)) 0 = true).
    { apply larger_0, integer_far_nonzero. congruence. }
    rewrite L2. exists true. split; [reflexivity|congruence].
Qed.

(** On the system of the line through two points of integer coordinates of
    absolute value at most 2^51 and of different abscissas, the solver of
    mathjs returns the slope and the intercept of the line. *)
Lemma lusolve_line (x1 y1 x2 y2 : Z) :
  x1 <> x2 ->
  (Z.abs x1 <= 2 ^ 51)%Z -> (Z.abs x2 <= 2 ^ 51)%Z ->
  lusolve ((of_Z x1, 1), (of_Z x2, 1)) (of_Z y1, of_Z y2)
  = Some (of_Z (y2 - y1) / of_Z (x2 - x1),
          of_Z (y1 * x2 - y2 * x1) / of_Z (x2 - x1)).
Proof.
  intros Hx B1 B2.
  destruct (pivot_line x1 x2 1 1 Hx) as (swap & Hp & Hn).
  unfold lusolve, lup. rewrite Hp.
  assert (Hl : forall o p : Z,
             (if equalScalar (of_Z o) 0 then of_Z o else of_Z o / of_Z p)
             = of_Z o / of_Z p).
  { intros o p. rewrite (equalScalar_far _ (integer_far o)).
    destruct (eqb_spec (of_Z o) 0) as [->|]; [|reflexivity].
    now rewrite div_0_l. }
  destruct swap; cbn [fst snd]; rewrite Hl.
  - apply substitutions_line; auto.
  - rewrite substitutions_line; auto.
    assert (H12 : of_Z x1 - of_Z x2 <> 0).
    { rewrite <- of_Z_sub. apply of_Z_neq_0. lia. }
    assert (H21 : of_Z x2 - of_Z x1 <> 0).
    { rewrite <- of_Z_sub. apply of_Z_neq_0. lia. }
    apply some_pair; rewrite !of_Z_sub, ?of_Z_mul; field; repeat split; assumption.
Qed.

End IntegerFacts.

(** ** The intersection worker *)

Module IntersectFacts.
Import Num NumFacts Intersect.
Local Open Scope Qc_scope.

Lemma minus_eq_0 (a b : Qc) : a - b = 0 -> a = b.
Proof. intros H. replace a with ((a - b) + b) by ring. rewrite H. ring. Qed.

Lemma minus_neq_0 (a b : Qc) : a <> b -> a - b <> 0.
Proof. intros H E. apply H. now apply minus_eq_0. Qed.

Lemma model_of_coefs_of m : model_of (coefs_of m) = m.
Proof. now destruct m. Qed.

Lemma coefs_of_model_of c : coefs_of (model_of c) = c.
Proof. now destruct c as [[a|] [k|]]. Qed.

(** *** Values compared by computation *)

Lemma Point_eqb_eq p q : Point_eqb p q = true -> p = q.
Proof.
  unfold Point_eqb. destruct p as [px py], q as [qx qy]. cbn [x y].
  destruct (eqb_spec px qx), (eqb_spec py qy); cbn [andb];
    congruence.
Qed.

Lemma model_eqb_eq m n : model_eqb m n = true -> m = n.
Proof.
  destruct m as [a|a|a k|], n as [b|b|b l|]; cbn [model_eqb];
    try discriminate; try reflexivity.
  - destruct (eqb_spec a b); congruence.
  - destruct (eqb_spec a b); congruence.
  - destruct (eqb_spec a b), (eqb_spec k l); cbn [andb]; congruence.
Qed.

Lemma list_eqb_eq {A : Type} (eqbA : A -> A -> bool) :
  (forall a b, eqbA a b = true -> a = b) ->
  forall l m, list_eqb eqbA l m = true -> l = m.
Proof.
  intros HA. induction l as [|a l IH]; intros [|b m]; cbn [list_eqb];
    try discriminate; try reflexivity.
  intros H. apply andb_prop in H. destruct H as [Hab Hlm].
  f_equal; auto.
Qed.

Lemma option_eqb_eq {A : Type} (eqbA : A -> A -> bool) :
  (forall a b, eqbA a b = true -> a = b) ->
  forall o p, option_eqb eqbA o p = true -> o = p.
Proof.
  intros HA [a|] [b|]; cbn [option_eqb]; try discriminate; try reflexivity.
  intros H. f_equal. auto.
Qed.

Lemma eqb_eq a b : eqb a b = true -> a = b.
Proof. now destruct (eqb_spec a b). Qed.

Lemma points_eq (o p : option (list Point)) :
  option_eqb (list_eqb Point_eqb) o p = true -> o = p.
Proof. apply option_eqb_eq, list_eqb_eq, Point_eqb_eq. Qed.

Lemma model_eq (o p : option CoefficientModel) :
  option_eqb model_eqb o p = true -> o = p.
Proof. apply option_eqb_eq, model_eqb_eq. Qed.

Lemma coefs_eqb_eq c d : coefs_eqb c d = true -> c = d.
Proof.
  destruct c as [a k], d as [a' k']. unfold coefs_eqb. cbn [fst snd].
  intros H. apply andb_prop in H. destruct H as [Ha Hk].
  apply (option_eqb_eq eqb eqb_eq) in Ha, Hk. congruence.
Qed.

Lemma coefs_eq (o p : option (coef * coef)) :
  option_eqb coefs_eqb o p = true -> o = p.
Proof. apply option_eqb_eq, coefs_eqb_eq. Qed.

Lemma chain_eq r s : chain_eqb r s = true -> r = s.
Proof.
  destruct r as [|a b|a|], s as [|c d|c|]; cbn [chain_eqb];
    try discriminate; try reflexivity.
  - intros H. apply andb_prop in H. destruct H as [H1 H2].
    apply eqb_eq in H1, H2. congruence.
  - intros H. apply eqb_eq in H. congruence.
Qed.

(** *** The last test of the loop body *)



Local Close Scope Qc_scope.

(** The test pushes at most one point, after those already there. *)
Lemma test_and_push_intersects point1 point2 bo bt st :
  exists t,
    intersects (test_and_push point1 point2 bo bt st) = intersects st ++ t /\
    length t <= 1.
Proof.
  unfold test_and_push.
  destruct (intersectX st) as [iX|], (intersectY st) as [iY|];
    try solve [exists []; rewrite app_nil_r; auto].
  destruct (accept point1 point2 bo bt iX iY).
  - exists [ {| x := iX; y := iY |} ]. auto.
  - exists []. rewrite app_nil_r. auto.
Qed.

Lemma after_chain_intersects point1 point2 bo bt st r :
  exists t,
    intersects (after_chain point1 point2 bo bt st r) = intersects st ++ t /\
    length t <= 1.
Proof.
  destruct r as [|iX iY|iY|]; cbn [after_chain].
  - exists []. rewrite app_nil_r. auto.
  - apply (test_and_push_intersects _ _ _ _
             {| intersects := intersects st;
                intersectX := Some iX; intersectY := Some iY |}).
  - apply (test_and_push_intersects _ _ _ _
             {| intersects := intersects st;
                intersectX := None; intersectY := Some iY |}).
  - apply test_and_push_intersects.
Qed.


(** *** The worker, whatever the solver returns *)

Section Worker.
Context {solver : Solver}.

Lemma classify_coefs p1 p2 m :
  classify p1 p2 = Some m -> getCoefficienConst p1 p2 = Some (coefs_of m).
Proof.
  unfold classify. destruct (getCoefficienConst p1 p2) as [c|]; [|discriminate].
  simpl. intros [= <-]. now rewrite coefs_of_model_of.
Qed.

(** The four cases of [getCoefficienConst], in the order of its tests; in
    the last one the array holds what the solver returns. *)
Lemma getCoefficienConst_cases p1 p2 :
  (x p1 = x p2 -> y p1 = y p2 ->
   getCoefficienConst p1 p2 = Some (None, None)) /\
  (x p1 = x p2 -> y p1 <> y p2 ->
   getCoefficienConst p1 p2 = Some (Some (x p1), None)) /\
  (x p1 <> x p2 -> y p1 = y p2 ->
   getCoefficienConst p1 p2 = Some (None, Some (y p1))) /\
  (x p1 <> x p2 -> y p1 <> y p2 ->
   getCoefficienConst p1 p2 =
   option_map (fun r => (Some (fst r), Some (snd r)))
     (lusolve ((x p1, 1%Qc), (x p2, 1%Qc)) (y p1, y p2))).
Proof.
  unfold getCoefficienConst, solveSimultaneousEquation.
  destruct (eqb_spec (x p1) (x p2)) as [Hx|Hx];
    destruct (eqb_spec (y p1) (y p2)) as [Hy|Hy];
    cbn [andb]; repeat split;
    try congruence; try (intros; contradiction).
  intros _ _. now destruct (lusolve _ _) as [[r0 r1]|].
Qed.

(** The rows of [cross] are the tests of the chain, in their order. *)
Lemma cross_tests ao ko at_ kt :
  cross ao ko at_ kt = cross_tests_chain ao ko at_ kt.
Proof.
  destruct ao, ko, at_, kt; reflexivity.
Qed.

(** The chain against the case table, the slopes of sloped lines being other
    than 0: it computes the point of the table when one of the lines is
    vertical or horizontal and there is one, skips the candidate when there
    is none, and gives two sloped lines to the solver. *)
Lemma cross_table A B :
  (forall a k, A = Sloped a k -> a <> 0%Qc) ->
  (forall a k, B = Sloped a k -> a <> 0%Qc) ->
  cross (fst (coefs_of A)) (snd (coefs_of A))
        (fst (coefs_of B)) (snd (coefs_of B)) =
  match A, B with
  | Sloped a1 k1, Sloped a2 k2 =>
      match solveSimultaneousEquation
              ((1, - (1) * a1), (1, - (1) * a2))%Qc (k1, k2) with
      | Some (r0, r1) => Assign r1 r0
      | None => Caught
      end
  | _, _ =>
      match intersect A B with
      | Some p => Assign (x p) (y p)
      | None => Continue
      end
  end.
Proof.
  intros HA HB.
  destruct A as [vx|hy|a1 k1|], B as [vx'|hy'|a2 k2|];
    cbn [coefs_of fst snd cross intersect x y]; try reflexivity.
  - unfold quotient. now rewrite (eqb_neq _ _ (HB a2 k2 eq_refl)).
  - unfold quotient. now rewrite (eqb_neq _ _ (HA a1 k1 eq_refl)).
Qed.

(** *** The loop *)

Lemma loop_app p1 p2 ao ko l1 l2 :
  forall st,
    loop p1 p2 ao ko st (l1 ++ l2) =
    match loop p1 p2 ao ko st l1 with
    | Some st' => loop p1 p2 ao ko st' l2
    | None => None
    end.
Proof.
  induction l1 as [|c rest IH]; intros st; cbn [loop app]; [reflexivity|].
  destruct (iteration p1 p2 ao ko st c); [apply IH|reflexivity].
Qed.

(** An iteration pushes at most one point after those already there. *)
Lemma iteration_intersects p1 p2 ao ko st c st' :
  iteration p1 p2 ao ko st c = Some st' ->
  exists t, intersects st' = intersects st ++ t /\ length t <= 1.
Proof.
  unfold iteration.
  destruct (disjoint _ _).
  { intros [= <-]. exists []. rewrite app_nil_r. auto. }
  destruct (getCoefficienConst (start c) (end_ c)) as [[at_ kt]|];
    [|discriminate].
  intros [= <-]. apply after_chain_intersects.
Qed.

Lemma loop_intersects p1 p2 ao ko finieshLines :
  forall st st',
    loop p1 p2 ao ko st finieshLines = Some st' ->
    exists t, intersects st' = intersects st ++ t /\
              length t <= length finieshLines.
Proof.
  induction finieshLines as [|c rest IH]; intros st st'; cbn [loop].
  - intros [= <-]. exists []. rewrite app_nil_r. auto.
  - destruct (iteration p1 p2 ao ko st c) as [st1|] eqn:E1; [|discriminate].
    intros E2. apply iteration_intersects in E1. destruct E1 as (t1 & E1 & L1).
    apply IH in E2. destruct E2 as (t2 & E2 & L2).
    exists (t1 ++ t2). rewrite E2, E1, app_assoc. split; [reflexivity|].
    rewrite length_app. cbn [length]. lia.
Qed.


(** *** When the worker raises *)




(** A call that returns has returned on every shorter list of candidates,
    with a prefix of its result. *)
Lemma findCrossPoint_app point1 point2 cs1 cs2 l :
  findCrossPoint point1 point2 (cs1 ++ cs2) = Some l ->
  exists l1 l2,
    findCrossPoint point1 point2 cs1 = Some l1 /\
    l = l1 ++ l2 /\ length l2 <= length cs2.
Proof.
  unfold findCrossPoint.
  destruct (getCoefficienConst point1 point2) as [[ao ko]|]; [|discriminate].
  rewrite loop_app.
  destruct (loop point1 point2 ao ko _ cs1) as [st1|]; [|discriminate].
  destruct (loop point1 point2 ao ko st1 cs2) as [st2|] eqn:E2;
    [|discriminate].
  cbn [option_map]. intros [= <-].
  apply loop_intersects in E2. destruct E2 as (t & E & L).
  exists (intersects st1), t. auto.
Qed.

End Worker.

(** *** The worker with the solver of mathjs *)

Import ZFacts MathjsFacts IntegerFacts.
Local Open Scope Qc_scope.

(** C3, as the specification states it, fails on the points (2^53, 0) and
    (2^53 - 1, 1), of different abscissas and different ordinates: the solver
    refuses the second pivot, 2^-53, and [getCoefficienConst] raises. *)
Lemma classify_raises :
  x (pt (2 ^ 53) 0) <> x (pt (2 ^ 53 - 1) 1) /\
  y (pt (2 ^ 53) 0) <> y (pt (2 ^ 53 - 1) 1) /\
  classify (pt (2 ^ 53) 0) (pt (2 ^ 53 - 1) 1) = None.
Proof.
  split; [discriminate|split; [discriminate|]]. vm_compute. reflexivity.
Qed.

(** It raises as well on the points (0.7000000000000001, 0) and (0.7, 1),
    whose abscissas are the two floating-point numbers
    6305039478318695 / 2^53 and 6305039478318694 / 2^53. *)
Lemma classify_raises_close :
  classify {| x := of_Z 6305039478318695 / of_Z (2 ^ 53); y := of_Z 0 |}
           {| x := of_Z 6305039478318694 / of_Z (2 ^ 53); y := of_Z 1 |}
  = None.
Proof. vm_compute. reflexivity. Qed.

(** C3, amended: [classify] gives [Degenerate] on two equal points,
    [Vertical] with the common abscissa when only the abscissas are equal,
    [Horizontal] with the common ordinate when only the ordinates are equal,
    and otherwise what the solver gives for the system
    [x1 * a + k = y1], [x2 * a + k = y2]: an error when the solver raises
    one, [Sloped a k] when it returns [a] and [k]. With the solver of mathjs,
    on points of integer coordinates whose abscissas are at most 2^51 in
    absolute value, it returns, and [a] and [k] solve the system. It gives
    [Vertical 0], [Horizontal 3] and [Sloped 1 0] on the three segments of
    the specification. *)
Theorem classify_cases :
  (forall (solver : Solver) p1 p2,
      (x p1 = x p2 -> y p1 = y p2 -> classify p1 p2 = Some Degenerate) /\
      (x p1 = x p2 -> y p1 <> y p2 ->
       classify p1 p2 = Some (Vertical (x p1))) /\
      (x p1 <> x p2 -> y p1 = y p2 ->
       classify p1 p2 = Some (Horizontal (y p1))) /\
      (x p1 <> x p2 -> y p1 <> y p2 ->
       classify p1 p2 =
       option_map (fun r => Sloped (fst r) (snd r))
         (lusolve ((x p1, 1), (x p2, 1)) (y p1, y p2)))) /\
  (forall x1 y1 x2 y2 : Z,
      x1 <> x2 -> y1 <> y2 ->
      (Z.abs x1 <= 2 ^ 51)%Z -> (Z.abs x2 <= 2 ^ 51)%Z ->
      exists a k,
        classify (pt x1 y1) (pt x2 y2) = Some (Sloped a k) /\
        of_Z x1 * a + k = of_Z y1 /\ of_Z x2 * a + k = of_Z y2) /\
  classify (pt 0 0) (pt 0 5) = Some (Vertical (of_Z 0)) /\
  classify (pt 0 3) (pt 5 3) = Some (Horizontal (of_Z 3)) /\
  classify (pt 0 0) (pt 2 2) = Some (Sloped (of_Z 1) (of_Z 0)).
Proof.
  split; [|split; [|repeat split; apply model_eq; vm_compute; reflexivity]].
  - intros solver p1 p2.
    destruct (getCoefficienConst_cases p1 p2) as (H1 & H2 & H3 & H4).
    unfold classify. repeat split; intros Hx Hy.
    + now rewrite H1.
    + now rewrite H2.
    + now rewrite H3.
    + rewrite H4 by assumption.
      destruct (lusolve _ _) as [[r0 r1]|]; reflexivity.
  - intros x1 y1 x2 y2 Hx Hy B1 B2.
    assert (Nx : of_Z x1 <> of_Z x2) by (intros E; now apply of_Z_inj in E).
    assert (Ny : of_Z y1 <> of_Z y2) by (intros E; now apply of_Z_inj in E).
    destruct (getCoefficienConst_cases (pt x1 y1) (pt x2 y2))
      as (_ & _ & _ & H4).
    unfold classify. rewrite (H4 Nx Ny). cbn [pt x y].
    change (@lusolve mathjs) with Mathjs.lusolve.
    rewrite (lusolve_line x1 y1 x2 y2 Hx B1 B2).
    cbn [option_map model_of fst snd].
    eexists. eexists. split; [reflexivity|].
    assert (D : of_Z x2 - of_Z x1 <> 0) by now apply minus_neq_0, not_eq_sym.
    rewrite !of_Z_sub, !of_Z_mul. split; field; exact D.
Qed.

(** The hypotheses of the second part of [classify_cases] hold of the points
    (1, 2) and (4, 8). *)
Lemma classify_cases_witness :
  exists a k,
    classify (pt 1 2) (pt 4 8) = Some (Sloped a k) /\
    of_Z 1 * a + k = of_Z 2 /\ of_Z 4 * a + k = of_Z 8.
Proof.
  apply (proj1 (proj2 classify_cases) 1%Z 2%Z 4%Z 8%Z);
    try discriminate; cbn; lia.
Defined.

(** *** The system of two sloped lines *)

(** The factors of the system of two sloped lines do not depend on the
    slopes: no row is exchanged. *)
Lemma lusolve_ones (u v k1 k2 : Qc) :
  Mathjs.lusolve ((1, u), (1, v)) (k1, k2) =
  match Mathjs.lsolve ((1, 0), (1, 1)) (k1, k2) with
  | Some w => Mathjs.usolve ((1, u), (0, v - u)) w
  | None => None
  end.
Proof.
  unfold Mathjs.lusolve, Mathjs.lup.
  change (Mathjs.pivot ((1, u), (1, v))) with (false, 1).
  cbv iota. cbn [fst snd]. rewrite (div_1 1).
  destruct (Mathjs.equalScalar 1 0);
    now replace (v - 1 * u) with (v - u) by ring.
Qed.

(** With the solver of mathjs, the intercepts and their difference being 0
    or at least 2^-52 away from it: two sloped lines of equal intercepts get
    the point (0, k1), whatever their slopes; with different intercepts the
    solver raises when the slopes are within 2^-52 of each other, and
    otherwise returns the point of the case table, when its ordinate too is
    0 or at least 2^-52 away from it. *)
Lemma sloped_system (a1 k1 a2 k2 : Qc) :
  Mathjs.zero_or_far k1 -> Mathjs.zero_or_far (k2 - k1) ->
  let system :=
    solveSimultaneousEquation ((1, - (1) * a1), (1, - (1) * a2)) (k1, k2) in
  (k1 = k2 -> system = Some (k1, 0)) /\
  (k1 <> k2 -> Qcabs (a1 - a2) < Mathjs.DBL_EPSILON -> system = None) /\
  (k1 <> k2 -> Mathjs.DBL_EPSILON <= Qcabs (a1 - a2) ->
   Mathjs.zero_or_far (a1 * ((k2 - k1) / (a1 - a2)) + k1) ->
   system
   = Some (a1 * ((k2 - k1) / (a1 - a2)) + k1, (k2 - k1) / (a1 - a2))).
Proof.
  intros F1 Fd system. unfold system, solveSimultaneousEquation.
  change (@lusolve mathjs) with Mathjs.lusolve. rewrite lusolve_ones.
  replace (- (1) * a2 - - (1) * a1) with (a1 - a2) by ring.
  rewrite lsolve_far;
    [|exact F1|now replace (k2 - k1 * 1) with (k2 - k1) by ring].
  replace (k2 - k1 * 1) with (k2 - k1) by ring.
  assert (H1 : Mathjs.DBL_EPSILON <= Qcabs 1)
    by (apply equalScalar_0_false; reflexivity).
  repeat split.
  - intros <-. replace (k1 - k1) with 0 by ring.
    rewrite usolve_far.
    + rewrite div_0_l, div_1. apply some_pair; [ring|reflexivity].
    + now left.
    + intros H. now contradiction H.
    + rewrite div_0_l. now replace (k1 - 0 * (- (1) * a1)) with k1 by ring.
    + intros _. exact H1.
  - intros Hk Ha. apply usolve_raises; [exact Fd| |exact Ha].
    now apply minus_neq_0, not_eq_sym.
  - intros Hk Ha Fy.
    assert (E : k1 - (k2 - k1) / (a1 - a2) * (- (1) * a1)
                = a1 * ((k2 - k1) / (a1 - a2)) + k1).
    { pose proof (far_nonzero _ Ha). field. assumption. }
    rewrite usolve_far.
    + rewrite E. apply some_pair; [apply div_1|reflexivity].
    + exact Fd.
    + intros _. exact Ha.
    + now rewrite E.
    + intros _. exact H1.
Qed.

(** The last row of the case table: no point exactly when the slopes are
    equal, and otherwise the solution of the system
    [y - a1 * x = k1], [y - a2 * x = k2]. *)
Lemma intersect_sloped a1 k1 a2 k2 :
  (intersect (Sloped a1 k1) (Sloped a2 k2) = None <-> a1 = a2) /\
  (forall p,
      intersect (Sloped a1 k1) (Sloped a2 k2) = Some p ->
      1 * y p + - (1) * a1 * x p = k1 /\ 1 * y p + - (1) * a2 * x p = k2).
Proof.
  cbn [intersect]. destruct (eqb_spec a1 a2) as [Ha|Ha].
  - split; [tauto|discriminate].
  - split; [split; [discriminate|contradiction]|].
    intros p [= <-]. cbn [x y].
    pose proof (minus_neq_0 _ _ Ha) as Hd. split; field; exact Hd.
Qed.

Local Close Scope Qc_scope.

(** *** The claims on [findCrossPoint] *)



(** Two parallel segments, (0,0)-(1,0) and (0,1)-(1,1): no point, and no
    error. *)
Lemma parallel_horizontal_example :
  findCrossPoint (pt 0 0) (pt 1 0) [seg 0 1 1 1] = Some [].
Proof. apply points_eq. vm_compute. reflexivity. Qed.

(** The query (0,0)-(2^60,1) against (0,1)-(2^60,0): the slopes, 2^-60 and
    -2^-60, are within 2^-52 of each other, the solver raises, the chain
    catches the error and no point is computed, where the lines cross at
    (2^59, 1/2). *)
Lemma near_parallel_example :
  cross (Some (/ of_Z (2 ^ 60))%Qc) (Some (of_Z 0))
        (Some (- / of_Z (2 ^ 60))%Qc) (Some (of_Z 1)) = Caught /\
  findCrossPoint (pt 0 0) (pt (2 ^ 60) 1) [seg 0 1 (2 ^ 60) 0] = Some [].
Proof.
  split; [vm_compute; reflexivity|].
  apply points_eq. vm_compute. reflexivity.
Qed.

(** The query (-1,-1)-(1,1) against (-2,-2)-(2,2), on the same line: the
    right-hand sides of the system are 0, the solver does not look at the
    pivot and returns (0, 0), which is accepted. *)
Lemma coincident_example :
  findCrossPoint (pt (-1) (-1)) (pt 1 1) [seg (-2) (-2) 2 2]
  = Some [pt 0 0].
Proof. apply points_eq. vm_compute. reflexivity. Qed.

(** C2, at the input where the code leaves the case table: the query
    (0,0)-(2,2) and the candidate (0,1)-(1,2) are two sloped lines of slope 1,
    for which the table gives no point, and the chain catches the error of
    the solver; the candidate is not skipped for all that: the test that
    follows accepts the point (1,1) left by the candidate before, and the
    result has it twice. In the same way the query (0,0)-(4,4) gets the
    point (2,2), which neither (0,4)-(1,3) nor (1,2)-(3,4) gives alone. *)
Theorem singular_system_not_skipped :
  classify (pt 0 0) (pt 2 2) = Some (Sloped (of_Z 1) (of_Z 0)) /\
  classify (pt 0 1) (pt 1 2) = Some (Sloped (of_Z 1) (of_Z 1)) /\
  intersect (Sloped (of_Z 1) (of_Z 0)) (Sloped (of_Z 1) (of_Z 1)) = None /\
  cross (Some (of_Z 1)) (Some (of_Z 0)) (Some (of_Z 1)) (Some (of_Z 1))
  = Caught /\
  findCrossPoint (pt 0 0) (pt 2 2) [seg 0 1 1 2] = Some [] /\
  findCrossPoint (pt 0 0) (pt 2 2) [seg 0 2 2 0] = Some [pt 1 1] /\
  findCrossPoint (pt 0 0) (pt 2 2) [seg 0 2 2 0; seg 0 1 1 2]
  = Some [pt 1 1; pt 1 1] /\
  findCrossPoint (pt 0 0) (pt 4 4) [seg 0 4 1 3] = Some [] /\
  findCrossPoint (pt 0 0) (pt 4 4) [seg 1 2 3 4] = Some [] /\
  findCrossPoint (pt 0 0) (pt 4 4) [seg 0 4 1 3; seg 1 2 3 4]
  = Some [pt 2 2].
Proof.
  repeat split;
    try (apply model_eq; vm_compute; reflexivity);
    try (apply points_eq; vm_compute; reflexivity);
    vm_compute; reflexivity.
Qed.

(** C10: [findCrossPoint] is a function of its arguments, and, whatever the
    solver returns, its result lists the accepted points in the order of the
    candidates: when the call on the candidates [cs1 ++ cs2] returns, the
    call on [cs1] returns a prefix of its result, and the candidates of [cs2]
    add at most one point each. *)
Theorem findCrossPoint_ordered :
  (forall (solver : Solver) p1 p2 cs p1' p2' cs',
      p1 = p1' -> p2 = p2' -> cs = cs' ->
      findCrossPoint p1 p2 cs = findCrossPoint p1' p2' cs') /\
  (forall (solver : Solver) p1 p2 cs1 cs2 l,
      findCrossPoint p1 p2 (cs1 ++ cs2) = Some l ->
      exists l1 l2,
        findCrossPoint p1 p2 cs1 = Some l1 /\
        l = l1 ++ l2 /\
        length l2 <= length cs2).
Proof.
  split.
  - intros solver p1 p2 cs p1' p2' cs' -> -> ->. reflexivity.
  - intros solver p1 p2 cs1 cs2 l H.
    unfold findCrossPoint in *.
    destruct (getCoefficienConst p1 p2) as [[ao ko]|]; [|discriminate].
    rewrite loop_app in H.
    destruct (loop p1 p2 ao ko _ cs1) as [st1|]; [|discriminate].
    destruct (loop p1 p2 ao ko st1 cs2) as [st2|] eqn:E2; [|discriminate].
    cbn [option_map] in *. injection H as <-.
    apply loop_intersects in E2. destruct E2 as (t & E & L).
    exists (intersects st1), t. auto.
Qed.

(** The second part of [findCrossPoint_ordered] on the diagonal (0,0)-(4,4)
    against two segments that cross it, then two more. *)
Lemma findCrossPoint_ordered_witness :
  exists l1 l2,
    findCrossPoint (pt 0 0) (pt 4 4) [seg 0 2 2 0; seg 0 4 4 0] = Some l1 /\
    [pt 1 1; pt 2 2; pt 3 3] = l1 ++ l2 /\
    length l2 <= length [seg 9 9 9 8; seg 2 4 4 2].
Proof.
  apply (proj2 findCrossPoint_ordered mathjs (pt 0 0) (pt 4 4)
           [seg 0 2 2 0; seg 0 4 4 0] [seg 9 9 9 8; seg 2 4 4 2]
           [pt 1 1; pt 2 2; pt 3 3]).
  apply points_eq. vm_compute. reflexivity.
Defined.

End IntersectFacts.

(** ** The batch scheduler *)

Module SchedulerFacts.
Import Scheduler.

(** *** Lists *)

Lemma set_nth_length {A : Type} (n : nat) (a : A) l :
  length (set_nth n a l) = length l.
Proof.
  revert n. induction l as [|b l IH]; intros [|n]; cbn [set_nth length];
    auto.
Qed.

Lemma set_nth_same {A : Type} (n : nat) (a : A) l :
  n < length l -> nth_error (set_nth n a l) n = Some a.
Proof.
  revert n. induction l as [|b l IH]; intros [|n]; cbn [set_nth length];
    intros H; try lia; cbn [nth_error]; auto.
  apply IH. lia.
Qed.

Lemma set_nth_other {A : Type} (n m : nat) (a : A) l :
  n <> m -> nth_error (set_nth n a l) m = nth_error l m.
Proof.
  revert n m. induction l as [|b l IH]; intros [|n] [|m] H;
    cbn [set_nth nth_error]; auto; try lia.
Qed.

Lemma set_nth_split {A : Type} (n : nat) (a b : A) l :
  nth_error l n = Some b ->
  exists l1 l2, l = l1 ++ b :: l2 /\ set_nth n a l = l1 ++ a :: l2.
Proof.
  revert n. induction l as [|c l IH]; intros [|n]; cbn [nth_error set_nth];
    try discriminate.
  - intros [= ->]. now exists [], l.
  - intros H. destruct (IH n H) as (l1 & l2 & -> & ->).
    now exists (c :: l1), l2.
Qed.

Lemma skipn_cons_firstn {A : Type} (n : nat) (l : list A) a rest :
  skipn n l = a :: rest ->
  firstn (S n) l = firstn n l ++ [a] /\ skipn (S n) l = rest /\ n < length l.
Proof.
  revert l. induction n as [|n IH]; intros [|b l]; cbn [skipn];
    try discriminate.
  - intros [= -> ->]. cbn. repeat split. lia.
  - intros H. destruct (IH l H) as (H1 & H2 & H3).
    change (firstn (S (S n)) (b :: l)) with (b :: firstn (S n) l).
    rewrite H1. cbn [firstn app skipn length]. repeat split; auto. lia.
Qed.


(** *** One step *)

Section Steps.

Variables T E : Type.

Implicit Types (s : state T E) (w : worker T E) (it : item T E).

(** The three ways a step goes. *)
Lemma turn_cases id s :
  (turn id s = s /\
   forall vals, nth_error (workers s) id <> Some (Looping vals)) \/
  (exists vals,
      nth_error (workers s) id = Some (Looping vals) /\
      iterator s = [] /\
      turn id s =
      {| iterator := []; yielded := yielded s;
         workers := set_nth id (Resolved vals) (workers s);
         executed := executed s |}) \/
  (exists vals it rest,
      nth_error (workers s) id = Some (Looping vals) /\
      iterator s = it :: rest /\
      turn id s =
      {| iterator := rest; yielded := S (yielded s);
         workers :=
           set_nth id
             match it tt with
             | Value val => Looping (vals ++ [val])
             | Raise e => Stopped vals e
             end (workers s);
         executed := executed s ++ [yielded s] |}).
Proof.
  unfold turn.
  destruct (nth_error (workers s) id) as [[vals|vals|vals e]|] eqn:Hw;
    try (left; split; [reflexivity|congruence]).
  destruct (iterator s) as [|it rest] eqn:Hi.
  - right. left. now exists vals.
  - right. right. now exists vals, it, rest.
Qed.

Lemma nth_error_lt {A : Type} (l : list A) n a :
  nth_error l n = Some a -> n < length l.
Proof. intros H. apply nth_error_Some. congruence. Qed.

(** A step changes the worker that takes it, and no other. *)
Lemma turn_other id s j :
  j <> id -> nth_error (workers (turn id s)) j = nth_error (workers s) j.
Proof.
  intros Hj.
  destruct (turn_cases id s)
    as [[-> _]|[(vals & _ & _ & ->)|(vals & it & rest & _ & _ & ->)]];
    cbn [workers]; auto using set_nth_other.
Qed.

Lemma turn_length id s :
  length (workers (turn id s)) = length (workers s).
Proof.
  destruct (turn_cases id s)
    as [[-> _]|[(vals & _ & _ & ->)|(vals & it & rest & _ & _ & ->)]];
    cbn [workers]; auto using set_nth_length.
Qed.

(** A worker that is not looping stays as it is. *)
Lemma turn_settled id s j w :
  nth_error (workers s) j = Some w -> is_looping w = false ->
  nth_error (workers (turn id s)) j = Some w.
Proof.
  intros Hw Hl. destruct (Nat.eq_dec j id) as [->|Hj].
  - destruct (turn_cases id s)
      as [[-> _]|[(vals & H & _)|(vals & it & rest & H & _)]]; auto;
      rewrite Hw in H; injection H as ->; discriminate.
  - now rewrite turn_other.
Qed.

(** The iterator is single-pass: a step leaves it as it is or takes its
    first item. *)
Lemma turn_iterator id s :
  iterator (turn id s) = iterator s \/
  exists it, iterator s = it :: iterator (turn id s).
Proof.
  destruct (turn_cases id s)
    as [[-> _]|[(vals & _ & Hi & ->)|(vals & it & rest & _ & Hi & ->)]];
    cbn [iterator]; auto.
  right. now exists it.
Qed.

Lemma turn_iterator_length id s :
  length (iterator (turn id s)) <= length (iterator s).
Proof.
  destruct (turn_iterator id s) as [->|[it ->]]; cbn [length]; lia.
Qed.

Lemma run_app l1 l2 s : run (l1 ++ l2) s = run l2 (run l1 s).
Proof. unfold run. apply fold_left_app. Qed.

Lemma run_cons id l s : run (id :: l) s = run l (turn id s).
Proof. reflexivity. Qed.

(** *** What every schedule keeps *)

Variable items : list (item T E).

Let Inv := Inv items.

Lemma Inv_init concurrency : Inv (init items concurrency).
Proof.
  constructor; cbn [init iterator yielded workers executed firstn skipn seq];
    auto.
  - lia.
  - induction concurrency as [|n IH]; cbn; auto.
  - intros (w & Hw & Hr). apply repeat_spec in Hw. now subst w.
  - intros _ it [].
Qed.

Lemma In_set_nth {A : Type} n (a : A) l b :
  In b (set_nth n a l) -> b = a \/ In b l.
Proof.
  revert n. induction l as [|c l IH]; intros [|n]; cbn [set_nth In]; auto.
  - intros [->|H]; auto.
  - intros [->|H]; auto. destruct (IH n H); auto.
Qed.

Lemma vals_of_step vals it :
  vals_of match it tt with
          | Value val => Looping (vals ++ [val])
          | Raise e => Stopped vals e
          end = vals ++ value it.
Proof.
  unfold value. destruct (it tt); cbn [vals_of]; auto using app_nil_r.
Qed.

Lemma Inv_turn id s : Inv s -> Inv (turn id s).
Proof.
  intros [Hi Hy He Hv Hr Hs].
  destruct (turn_cases id s)
    as [[-> _]|[(vals & Hw & Hnil & ->)|(vals & it & rest & Hw & Hcons & ->)]].
  - now constructor.
  - destruct (set_nth_split id (Resolved vals) _ _ Hw) as (l1 & l2 & E1 & E2).
    constructor; cbn [iterator yielded workers executed]; auto.
    + congruence.
    + rewrite E2. rewrite E1 in Hv.
      rewrite map_app, concat_app in *. exact Hv.
    + intros Hin. apply Hs. intros w Hw'. rewrite E1 in Hw'.
      apply in_app_or in Hw'. destruct Hw' as [H|[<-|H]]; [|reflexivity|];
        apply Hin; rewrite E2; apply in_or_app; cbn [In]; auto.
  - set (w1 := match it tt with
               | Value val => Looping (vals ++ [val])
               | Raise e => Stopped vals e
               end).
    destruct (set_nth_split id w1 _ _ Hw) as (l1 & l2 & E1 & E2).
    rewrite Hi in Hcons.
    destruct (skipn_cons_firstn _ _ _ _ Hcons) as (F1 & F2 & F3).
    constructor; cbn [iterator yielded workers executed]; auto.
    + rewrite He, seq_S. reflexivity.
    + rewrite E2, F1, flat_map_app. rewrite E1 in Hv.
      rewrite map_app, concat_app in *. cbn [map concat flat_map] in *.
      unfold w1. rewrite vals_of_step, app_nil_r. cbn [vals_of] in Hv.
      rewrite <- Hv, <- !app_assoc.
      apply Permutation_app_head, Permutation_app_head, Permutation_app_comm.
    + intros (w & Hin & Hres). exfalso.
      assert (Hnil : iterator s = []).
      { apply Hr. exists w. split; [|exact Hres].
        rewrite E2 in Hin. rewrite E1.
        apply in_app_or in Hin. apply in_or_app.
        destruct Hin as [H|[<-|H]]; cbn [In]; auto.
        unfold w1 in Hres. destruct (it tt); discriminate. }
      rewrite Hi, Hcons in Hnil. discriminate.
    + intros Hin it' Hit'. rewrite F1 in Hit'. apply in_app_or in Hit'.
      destruct Hit' as [H|[<-|[]]].
      * apply Hs; auto. intros w Hw'. rewrite E1 in Hw'.
        apply in_app_or in Hw'. destruct Hw' as [H'|[<-|H']]; [|reflexivity|];
          apply Hin; rewrite E2; apply in_or_app; cbn [In]; auto.
      * assert (Hw1 : is_stopped w1 = false).
        { apply Hin. rewrite E2. apply in_or_app. cbn [In]. auto. }
        unfold w1 in Hw1. unfold raises. now destruct (it tt).
Qed.

Lemma Inv_run schedule : forall s, Inv s -> Inv (run schedule s).
Proof.
  induction schedule as [|id l IH]; intros s H; [exact H|].
  rewrite run_cons. apply IH, Inv_turn, H.
Qed.

(** *** The promise of the call *)

Lemma first_rejected_none (ws : list (worker T E)) :
  first_rejected (map promise_of ws) = None.
Proof.
  induction ws as [|[vals|vals|vals e] ws IH]; cbn; auto.
Qed.

Lemma all_values_resolved (ws : list (worker T E)) r :
  all_values (map promise_of ws) = Some r ->
  (forall w, In w ws -> is_resolved w = true) /\ r = map vals_of ws.
Proof.
  revert r. induction ws as [|[vals|vals|vals e] ws IH]; intros r;
    cbn [map promise_of all_values]; try discriminate.
  - intros [= <-]. split; [intros w []|reflexivity].
  - destruct (all_values (map promise_of ws)) as [r'|]; [|discriminate].
    cbn [option_map]. intros [= <-].
    destruct (IH r' eq_refl) as [H ->]. split; [|reflexivity].
    intros w [<-|Hw]; auto.
Qed.

Lemma resolved_all_values (ws : list (worker T E)) :
  (forall w, In w ws -> is_resolved w = true) ->
  all_values (map promise_of ws) = Some (map vals_of ws).
Proof.
  induction ws as [|w ws IH]; intros H; [reflexivity|].
  assert (Hw : is_resolved w = true) by (apply H; now left).
  destruct w as [vals|vals|vals e]; try discriminate.
  cbn [map promise_of all_values vals_of]. rewrite IH; [reflexivity|].
  intros w' Hw'. apply H. now right.
Qed.

(** The call is fulfilled exactly when every worker has resolved, with the
    lists of the workers; and it is never rejected. *)
Lemma outcome_fulfilled s r :
  outcome s = Fulfilled r ->
  (forall w, In w (workers s) -> is_resolved w = true) /\
  r = map vals_of (workers s).
Proof.
  unfold outcome, Promise_all. rewrite first_rejected_none.
  destruct (all_values _) as [l|] eqn:Hl; [|discriminate].
  intros [= <-]. now apply all_values_resolved.
Qed.

Lemma resolved_outcome s :
  (forall w, In w (workers s) -> is_resolved w = true) ->
  outcome s = Fulfilled (map vals_of (workers s)).
Proof.
  intros H. unfold outcome, Promise_all.
  now rewrite first_rejected_none, resolved_all_values.
Qed.

Lemma outcome_not_rejected s e : outcome s <> Rejected e.
Proof.
  unfold outcome, Promise_all. rewrite first_rejected_none.
  destruct (all_values _); discriminate.
Qed.

(** When the call is fulfilled, with at least one worker, every item has
    been executed and none has raised. *)
Lemma fulfilled_all_executed s r :
  Inv s -> workers s <> [] -> outcome s = Fulfilled r ->
  yielded s = length items /\
  (forall it, In it items -> raises it = false) /\
  Permutation (concat r) (flat_map value items).
Proof.
  intros [Hi Hy He Hv Hr Hs] Hne Ho.
  apply outcome_fulfilled in Ho. destruct Ho as [Hres ->].
  assert (Hnil : iterator s = []).
  { apply Hr. destruct (workers s) as [|w ws]; [congruence|].
    exists w. split; [now left|]. apply Hres. now left. }
  assert (Hall : yielded s = length items).
  { rewrite Hi in Hnil. apply (f_equal (@length _)) in Hnil.
    rewrite length_skipn in Hnil. cbn [length] in Hnil. lia. }
  rewrite Hall, firstn_all in *. repeat split; auto.
  apply Hs. intros w Hw. specialize (Hres w Hw). now destruct w.
Qed.

(** The values of items that do not raise, in the order of the items. *)
Lemma values_Forall2 (l : list (item T E)) :
  (forall it, In it l -> raises it = false) ->
  exists vs, Forall2 (fun it v => it tt = Value v) l vs /\
             flat_map value l = vs.
Proof.
  induction l as [|it l IH]; intros H.
  - exists []. split; constructor.
  - destruct IH as (vs & F & Evs); [intros it' Hit'; apply H; now right|].
    assert (Hit : raises it = false) by (apply H; now left).
    unfold raises in Hit. destruct (it tt) as [v|e] eqn:Ev; [|discriminate].
    exists (v :: vs). split; [now constructor|].
    cbn [flat_map]. unfold value at 1. rewrite Ev, Evs. reflexivity.
Qed.

(** *** The rounds of the event loop *)

Lemma Good_init concurrency :
  (forall it, In it items -> raises it = false) ->
  Good concurrency (init items concurrency).
Proof.
  intros H. unfold Good, init. cbn [workers iterator].
  rewrite repeat_length. repeat split; auto.
  - intros w Hw. apply repeat_spec in Hw. now subst w.
  - intros _ w Hw. apply repeat_spec in Hw. now subst w.
Qed.

Lemma Good_turn concurrency id s :
  Good concurrency s -> Good concurrency (turn id s).
Proof.
  intros (Hlen & Hstop & Hits & Hloop).
  destruct (turn_cases id s)
    as [[-> _]|[(vals & Hw & Hnil & ->)|(vals & it & rest & Hw & Hcons & ->)]].
  - repeat split; auto.
  - unfold Good. cbn [workers iterator]. rewrite set_nth_length.
    split; [exact Hlen|split; [|split]].
    + intros w Hin. apply In_set_nth in Hin. destruct Hin as [->|Hin]; auto.
    + intros it [].
    + congruence.
  - assert (Hit : raises it = false)
      by (apply Hits; rewrite Hcons; now left).
    unfold raises in Hit. destruct (it tt) as [v|e]; [|discriminate].
    unfold Good. cbn [workers iterator]. rewrite set_nth_length.
    split; [exact Hlen|split; [|split]].
    + intros w Hin. apply In_set_nth in Hin. destruct Hin as [->|Hin]; auto.
    + intros it' Hin. apply Hits. rewrite Hcons. now right.
    + intros _ w Hin. apply In_set_nth in Hin.
      destruct Hin as [->|Hin]; auto.
      apply Hloop; auto. congruence.
Qed.

Lemma Good_run concurrency schedule :
  forall s, Good concurrency s -> Good concurrency (run schedule s).
Proof.
  induction schedule as [|id l IH]; intros s H; [exact H|].
  rewrite run_cons. apply IH, Good_turn, H.
Qed.

Lemma run_iterator_length schedule :
  forall s, length (iterator (run schedule s)) <= length (iterator s).
Proof.
  induction schedule as [|id l IH]; intros s; [reflexivity|].
  rewrite run_cons. specialize (IH (turn id s)).
  pose proof (turn_iterator_length id s). lia.
Qed.

(** Once the iterator is done, a round leaves no worker looping. *)
Lemma round_done k :
  forall a s,
    iterator s = [] ->
    (forall j w, j < a -> nth_error (workers s) j = Some w ->
                 is_looping w = false) ->
    forall j w, j < a + k ->
                nth_error (workers (run (seq a k) s)) j = Some w ->
                is_looping w = false.
Proof.
  induction k as [|k IH]; intros a s Hnil Hbefore j w Hj.
  - cbn [seq run fold_left]. apply Hbefore. lia.
  - cbn [seq]. rewrite run_cons. apply IH; try lia.
    + destruct (turn_iterator a s) as [->|[it H]]; congruence.
    + clear j w Hj. intros j w Hj Hw.
      destruct (Nat.eq_dec j a) as [->|Hne].
      * destruct (turn_cases a s)
          as [[Et Hno]|[(vals & Hv & _ & Et)|(vals & it & rest & _ & Hc & _)]].
        -- rewrite Et in Hw. destruct w; auto. now apply Hno in Hw.
        -- rewrite Et in Hw. cbn [workers] in Hw.
           rewrite set_nth_same in Hw by (eapply nth_error_lt; eauto).
           now injection Hw as <-.
        -- congruence.
      * rewrite turn_other in Hw by exact Hne. apply (Hbefore j); auto. lia.
Qed.

(** While it is not done, a round takes at least one item: the worker 0 is
    looping. *)
Lemma round_progress concurrency s :
  1 <= concurrency -> Good concurrency s -> iterator s <> [] ->
  length (iterator (run (seq 0 concurrency) s)) < length (iterator s).
Proof.
  intros HC (Hlen & Hstop & Hits & Hloop) Hne.
  destruct concurrency as [|c]; [lia|]. cbn [seq]. rewrite run_cons.
  pose proof (run_iterator_length (seq 1 c) (turn 0 s)) as Hle.
  destruct (workers s) as [|w ws] eqn:Ews; [discriminate|].
  assert (Hw : is_looping w = true) by (apply Hloop; auto; now left).
  destruct w as [vals|vals|vals e]; try discriminate.
  destruct (turn_cases 0 s)
    as [[_ Hno]|[(v & _ & Hnil & _)|(v & it & rest & _ & Hc & Et)]].
  - exfalso. apply (Hno vals). now rewrite Ews.
  - congruence.
  - assert (Hr : iterator (turn 0 s) = rest) by now rewrite Et.
    rewrite Hr in Hle. rewrite Hc. cbn [length]. lia.
Qed.

Lemma round_robin_S concurrency rounds :
  round_robin concurrency (S rounds) =
  seq 0 concurrency ++ round_robin concurrency rounds.
Proof. reflexivity. Qed.

(** One round more than there are items left resolves every worker. *)
Lemma rounds_resolve concurrency :
  1 <= concurrency ->
  forall k s,
    Good concurrency s -> length (iterator s) <= k ->
    forall w, In w (workers (run (round_robin concurrency (S k)) s)) ->
              is_resolved w = true.
Proof.
  intros HC. induction k as [|k IH]; intros s HG Hk w Hw.
  - rewrite round_robin_S, run_app in Hw. cbn [round_robin repeat concat run
      fold_left] in Hw.
    pose proof (Good_run concurrency (seq 0 concurrency) s HG)
      as (Hlen & Hstop & _).
    apply In_nth_error in Hw. destruct Hw as [j Hj].
    assert (Hl : is_looping w = false).
    { apply (round_done concurrency 0 s) with (j := j); auto.
      - destruct (iterator s); [reflexivity|cbn [length] in Hk; lia].
      - intros j' w' Hj'. lia.
      - apply nth_error_lt in Hj. cbn [Nat.add]. lia. }
    assert (Hs : is_stopped w = false)
      by (apply Hstop; eapply nth_error_In; eauto).
    now destruct w.
  - rewrite round_robin_S, run_app in Hw.
    apply (IH (run (seq 0 concurrency) s)); auto.
    + now apply Good_run.
    + destruct (iterator s) as [|it rest] eqn:Hi.
      * pose proof (run_iterator_length (seq 0 concurrency) s) as H.
        rewrite Hi in H. cbn [length] in H. lia.
      * pose proof (round_progress concurrency s HC HG) as H.
        rewrite Hi in H. cbn [length] in *.
        assert (it :: rest <> []) by discriminate. specialize (H H0). lia.
Qed.

(** With at least one worker and no item that raises, the call is fulfilled:
    the values, in the order of the items, are a rearrangement of the
    concatenated groups, and every position has been executed once. *)
Lemma asynccParallel_complete concurrency :
  1 <= concurrency ->
  (forall it, In it items -> raises it = false) ->
  exists r vs,
    asynccParallel items concurrency = Fulfilled r /\
    Forall2 (fun it v => it tt = Value v) items vs /\
    Permutation (concat r) vs /\
    executed (final items concurrency) = seq 0 (length items).
Proof.
  intros HC Hok.
  pose proof (Inv_run (round_robin concurrency (S (length items))) _
                (Inv_init concurrency)) as HI.
  fold (final items concurrency) in HI.
  assert (Hres : forall w, In w (workers (final items concurrency)) ->
                           is_resolved w = true).
  { apply rounds_resolve; auto using Good_init. }
  pose proof (resolved_outcome _ Hres) as Ho.
  assert (Hne : workers (final items concurrency) <> []).
  { pose proof (Good_run concurrency
                  (round_robin concurrency (S (length items))) _
                  (Good_init concurrency Hok)) as (Hlen & _).
    fold (final items concurrency) in Hlen.
    intros Ew. rewrite Ew in Hlen. cbn [length] in Hlen. lia. }
  destruct (fulfilled_all_executed _ _ HI Hne Ho) as (Hy & _ & Hp).
  destruct (values_Forall2 items Hok) as (vs & F & Evs).
  exists (map vals_of (workers (final items concurrency))), vs.
  repeat split; auto.
  - now rewrite <- Evs.
  - rewrite <- Hy. apply HI.
Qed.

(** Whatever the schedule, a call that is fulfilled has executed every item
    once, none has raised, and the groups hold their values. *)
Lemma fulfilled_sound concurrency schedule r :
  1 <= concurrency ->
  outcome (run schedule (init items concurrency)) = Fulfilled r ->
  executed (run schedule (init items concurrency)) = seq 0 (length items) /\
  exists vs,
    Forall2 (fun it v => it tt = Value v) items vs /\
    Permutation (concat r) vs.
Proof.
  intros HC Ho.
  pose proof (Inv_run schedule _ (Inv_init concurrency)) as HI.
  assert (Hne : workers (run schedule (init items concurrency)) <> []).
  { intros Ew. apply (f_equal (@length _)) in Ew.
    assert (Hlen : forall l s, length (workers (run l s))
                               = length (workers s)).
    { induction l as [|id l IH]; intros s; [reflexivity|].
      rewrite run_cons, IH. apply turn_length. }
    rewrite Hlen in Ew. cbn [init workers length] in Ew.
    rewrite repeat_length in Ew. lia. }
  destruct (fulfilled_all_executed _ _ HI Hne Ho) as (Hy & Hok & Hp).
  split.
  - rewrite <- Hy. apply HI.
  - destruct (values_Forall2 items Hok) as (vs & F & Evs).
    exists vs. split; auto. now rewrite <- Evs.
Qed.

End Steps.

(** C8: with a concurrency of at least 1, whatever it is against the number
    of items, a result of [asynccParallel] has, over all its groups, exactly
    one entry per item, the value of that item, and every item has been
    executed exactly once; there is a result when no item raises; and the
    first part holds in whatever order the workers take their steps. *)
Theorem asynccParallel_each_once (T E : Type) (items : list (item T E))
  (concurrency : nat) :
  1 <= concurrency ->
  (forall r,
      asynccParallel items concurrency = Fulfilled r ->
      length (concat r) = length items /\
      executed (final items concurrency) = seq 0 (length items) /\
      exists vs,
        Forall2 (fun it v => it tt = Value v) items vs /\
        Permutation (concat r) vs) /\
  ((forall it, In it items -> raises it = false) ->
   exists r, asynccParallel items concurrency = Fulfilled r) /\
  (forall schedule r,
      outcome (run schedule (init items concurrency)) = Fulfilled r ->
      length (concat r) = length items /\
      executed (run schedule (init items concurrency))
      = seq 0 (length items) /\
      exists vs,
        Forall2 (fun it v => it tt = Value v) items vs /\
        Permutation (concat r) vs).
Proof.
  intros HC.
  assert (Hany : forall schedule r,
             outcome (run schedule (init items concurrency)) = Fulfilled r ->
             length (concat r) = length items /\
             executed (run schedule (init items concurrency))
             = seq 0 (length items) /\
             exists vs,
               Forall2 (fun it v => it tt = Value v) items vs /\
               Permutation (concat r) vs).
  { intros schedule r Hr.
    destruct (fulfilled_sound T E items concurrency schedule r HC Hr)
      as (Hex & vs & F & P).
    split; [|split; [exact Hex|now exists vs]].
    rewrite (Permutation_length P). symmetry.
    eapply Forall2_length; eauto. }
  split; [|split; [|exact Hany]].
  - intros r Hr. now apply Hany.
  - intros Hok.
    destruct (asynccParallel_complete T E items concurrency HC Hok)
      as (r & _ & Hr & _).
    now exists r.
Qed.

(** Three items on two workers, and on five. *)
Lemma asynccParallel_each_once_witness :
  ((forall r,
       asynccParallel sound_batch 2 = Fulfilled r ->
       length (concat r) = length sound_batch /\
       executed (final sound_batch 2) = seq 0 (length sound_batch) /\
       exists vs,
         Forall2 (fun it v => it tt = Value v) sound_batch vs /\
         Permutation (concat r) vs) /\
   ((forall it, In it sound_batch -> raises it = false) ->
    exists r, asynccParallel sound_batch 2 = Fulfilled r) /\
   (forall schedule r,
       outcome (run schedule (init sound_batch 2)) = Fulfilled r ->
       length (concat r) = length sound_batch /\
       executed (run schedule (init sound_batch 2))
       = seq 0 (length sound_batch) /\
       exists vs,
         Forall2 (fun it v => it tt = Value v) sound_batch vs /\
         Permutation (concat r) vs)) /\
  asynccParallel sound_batch 2 = Fulfilled [[10; 30]; [20]] /\
  asynccParallel sound_batch 5 = Fulfilled [[10]; [20]; [30]; []; []].
Proof.
  split; [|split; reflexivity].
  apply (asynccParallel_each_once nat unit sound_batch 2). lia.
Defined.

(** C9, as the specification states it, fails on four items, the first of
    which raises the error 7, with two workers: the call is not rejected with
    7, it stays pending; and the batch is not aborted, the second worker goes
    on to execute the three other items. *)
Lemma error_not_propagated :
  asynccParallel faulty_batch 2 <> Rejected 7 /\
  asynccParallel faulty_batch 2 = Pending /\
  executed (final faulty_batch 2) = [0; 1; 2; 3] /\
  workers (final faulty_batch 2) = [Stopped [] 7; Resolved [1; 2; 3]].
Proof.
  repeat split; try reflexivity. discriminate.
Qed.

(** C9, amended: when an item raises, with at least one worker, the
    scheduler neither catches the error nor hands it to its caller: the call
    stays pending, under the order of the event loop and under any other, so
    no result, partial or complete, is returned; and a worker that is still
    looping executes the next item of the iterator, whatever has become of
    the others. *)
Theorem error_leaves_call_pending (T E : Type) (items : list (item T E))
  (concurrency : nat) :
  1 <= concurrency ->
  (exists it, In it items /\ raises it = true) ->
  asynccParallel items concurrency = Pending /\
  (forall schedule,
      outcome (run schedule (init items concurrency)) = Pending) /\
  (forall (s : state T E) id vals it rest,
      nth_error (workers s) id = Some (Looping vals) ->
      iterator s = it :: rest ->
      iterator (turn id s) = rest /\
      executed (turn id s) = executed s ++ [yielded s]).
Proof.
  intros HC (bad & Hin & Hbad).
  assert (Hp : forall schedule,
             outcome (run schedule (init items concurrency)) = Pending).
  { intros schedule.
    destruct (outcome (run schedule (init items concurrency)))
      as [|r|e] eqn:Ho; [reflexivity| |].
    - exfalso.
      pose proof (Inv_run T E items schedule _ (Inv_init T E items concurrency))
        as HI.
      destruct (fulfilled_sound T E items concurrency schedule r HC Ho)
        as (_ & vs & F & _).
      clear - F Hin Hbad. induction F as [|it v l vs Hv F IH]; [destruct Hin|].
      destruct Hin as [->|Hin]; auto.
      unfold raises in Hbad. rewrite Hv in Hbad. discriminate.
    - exfalso. now apply outcome_not_rejected in Ho. }
  split; [apply Hp|split; [exact Hp|]].
  intros s id vals it rest Hw Hi.
  destruct (turn_cases T E id s)
    as [[_ Hno]|[(v & _ & Hnil & _)|(v & it' & rest' & _ & Hc & ->)]].
  - now apply Hno in Hw.
  - congruence.
  - cbn [iterator executed]. split; congruence.
Qed.

(** Four items, the first of which raises, on two workers. *)
Lemma error_leaves_call_pending_witness :
  asynccParallel faulty_batch 2 = Pending /\
  (forall schedule, outcome (run schedule (init faulty_batch 2)) = Pending) /\
  (forall (s : state nat nat) id vals it rest,
      nth_error (workers s) id = Some (Looping vals) ->
      iterator s = it :: rest ->
      iterator (turn id s) = rest /\
      executed (turn id s) = executed s ++ [yielded s]).
Proof.
  apply (error_leaves_call_pending nat nat faulty_batch 2).
  - lia.
  - exists (fun _ => Raise 7). split; [now left|reflexivity].
Defined.

End SchedulerFacts.

(** ** The intersection phase of the viewer *)

Module ViewerFacts.
Import Intersect Scheduler Viewer.

Lemma defined_prefix_map candidates :
  defined_prefix (map Some candidates) = (candidates, true).
Proof.
  induction candidates as [|c rest IH]; [reflexivity|].
  cbn [map defined_prefix]. now rewrite IH.
Qed.

Lemma defined_prefix_undefined finieshLines :
  In None finieshLines -> snd (defined_prefix finieshLines) = false.
Proof.
  induction finieshLines as [|[c|] rest IH]; cbn [defined_prefix].
  - intros [].
  - intros [H|H]; [discriminate|].
    destruct (defined_prefix rest) as [candidates all]. now apply IH.
  - reflexivity.
Qed.

Section Worker.
Context {solver : Solver}.

Lemma generate_length lines n :
  forall index,
    index + n <= length lines -> length (generate lines index n) = n.
Proof.
  induction n as [|n IH]; intros index H; cbn [generate]; [reflexivity|].
  destruct (nth_error lines index) as [line|] eqn:E.
  - cbn [length]. rewrite IH; [reflexivity|lia].
  - apply nth_error_None in E. lia.
Qed.

Lemma generate_nth lines n :
  forall index i line,
    i < n -> nth_error lines (index + i) = Some line ->
    nth_error (generate lines index n) i =
    Some (work line (firstn (index + i) lines)).
Proof.
  induction n as [|n IH]; intros index i line Hi Hl; [lia|].
  cbn [generate].
  destruct (nth_error lines index) as [line0|] eqn:E0.
  - destruct i as [|i].
    + rewrite Nat.add_0_r in *. rewrite E0 in Hl. injection Hl as ->.
      reflexivity.
    + cbn [nth_error]. rewrite <- Nat.add_succ_comm in *.
      apply IH; [lia|exact Hl].
  - apply nth_error_None in E0.
    assert (index + i < length lines) by (apply nth_error_Some; congruence).
    lia.
Qed.

(** On entries that are all segments the work item is the call of
    [findCrossPoint]. *)
Lemma work_defined line candidates :
  work (Some line) (map Some candidates) tt =
  match findCrossPoint (start line) (end_ line) candidates with
  | Some points => Value points
  | None => Raise SingularMatrix
  end.
Proof.
  unfold work, createIntersectPoint. now rewrite defined_prefix_map.
Qed.

(** The work item raises when its entry, or an entry before it, is
    [undefined]. *)
Lemma work_undefined line finieshLines :
  line = None \/ In None finieshLines ->
  exists e, work line finieshLines tt = Raise e.
Proof.
  intros [->|H]; [now exists TypeError|].
  destruct line as [line|]; [|now exists TypeError].
  unfold work, createIntersectPoint.
  apply defined_prefix_undefined in H.
  destruct (defined_prefix finieshLines) as [candidates all].
  cbn [snd] in H. subst all.
  destruct (findCrossPoint _ _ _); eauto.
Qed.

End Worker.

(** C7: the generator of [createIntersectPoints] yields one work item per
    entry of [lines]; the item of the entry [i] is made of that entry and of
    the entries before it in the list, [lines.slice(0, i)], none for
    [i = 0]; when these are segments it is the call of [findCrossPoint] with
    the ends of the segment [i] and the segments [0..i) as candidates, and
    when one of them is [undefined] it raises; a call that is fulfilled has
    executed every item once, so that a pair of segments is looked at from
    its later segment only. This holds whatever the solver returns. *)
Theorem createGenerator_prefix :
  forall (solver : Solver) (lines : list (option Line)),
    length (createGenerator lines) = length lines /\
    (forall i line,
        nth_error lines i = Some line ->
        nth_error (createGenerator lines) i
        = Some (work line (firstn i lines))) /\
    (forall (segments : list Line) i line,
        lines = map Some segments ->
        nth_error segments i = Some line ->
        exists it,
          nth_error (createGenerator lines) i = Some it /\
          it tt =
          match findCrossPoint (start line) (end_ line) (firstn i segments)
          with
          | Some points => Value points
          | None => Raise SingularMatrix
          end) /\
    (forall line finieshLines,
        line = None \/ In None finieshLines ->
        exists e, work line finieshLines tt = Raise e) /\
    firstn 0 lines = [] /\
    (forall r,
        asynccParallel (createGenerator lines) CONCURRENCY = Fulfilled r ->
        createIntersectPoints lines = Fulfilled (concat (concat r)) /\
        executed (final (createGenerator lines) CONCURRENCY)
        = seq 0 (length lines) /\
        exists vs,
          Forall2 (fun it v => it tt = Value v) (createGenerator lines) vs /\
          Permutation (concat r) vs).
Proof.
  intros solver lines.
  assert (Hlen : length (createGenerator lines) = length lines)
    by (apply generate_length; lia).
  assert (Hnth : forall i line,
             nth_error lines i = Some line ->
             nth_error (createGenerator lines) i
             = Some (work line (firstn i lines))).
  { intros i line Hl.
    apply (generate_nth lines (length lines) 0 i line); auto.
    apply nth_error_Some. congruence. }
  split; [exact Hlen|]. split; [exact Hnth|].
  split; [|split; [apply work_undefined|split; [reflexivity|]]].
  - intros segments i line -> Hl.
    exists (work (Some line) (firstn i (map Some segments))). split.
    + apply Hnth. now rewrite nth_error_map, Hl.
    + rewrite firstn_map. apply work_defined.
  - intros r Hr. unfold createIntersectPoints. rewrite Hr.
    split; [reflexivity|]. rewrite <- Hlen.
    apply (SchedulerFacts.fulfilled_sound _ _ (createGenerator lines)
             CONCURRENCY _ r); [unfold CONCURRENCY; lia|exact Hr].
Qed.

End ViewerFacts.

(** ** Bulge arcs *)

Module THREExFacts.
Import THREEx.
Local Open Scope R_scope.

(** *** Numbers *)

(** The first two partial sums of the series of [atan] frame it. *)
Lemma atan_series_bounds x : 0 < x < 1 -> x - x ^ 3 / 3 <= atan x <= x.
Proof.
  intros Hx. rewrite atan_eq_ps_atan by exact Hx. unfold ps_atan.
  destruct (Ratan.in_int x) as [h|h]; [|lra].
  destruct (ps_atan_exists_1 x h) as [v Pv].
  assert (H01 : 0 <= x <= 1) by lra.
  destruct (alternated_series_ineq (Ratan_seq x) v 0
              (Ratan_seq_decreasing x H01) (Ratan_seq_converging x H01) Pv)
    as [L U].
  unfold tg_alt, Ratan_seq in L, U. simpl in L, U.
  lra.
Qed.

Lemma PI_bounds : 3 < PI /\ PI < 33 / 10.
Proof.
  split.
  - pose proof PI2_3_2. lra.
  - pose proof Machin_2_3_7 as M.
    assert (H3 : 0 < / 3 < 1) by lra.
    assert (H7 : 0 < / 7 < 1) by lra.
    pose proof (atan_series_bounds _ H3) as [_ U3].
    pose proof (atan_series_bounds _ H7) as [_ U7].
    lra.
Qed.

Lemma atan_third : 7 * (PI / 72) < atan (/ 3) < 8 * (PI / 72).
Proof.
  destruct PI_bounds as [Lo Hi].
  assert (H3 : 0 < / 3 < 1) by lra.
  pose proof (atan_series_bounds _ H3) as [L U].
  assert (E : / 3 - (/ 3) ^ 3 / 3 = 26 / 81) by field.
  rewrite E in L. split; lra.
Qed.

Lemma div_bounds a p lo hi :
  0 < p -> lo * p < a < hi * p -> lo < a / p < hi.
Proof.
  intros Hp [H1 H2].
  assert (E : a / p * p = a) by (field; lra).
  split; apply Rmult_lt_reg_r with p; auto; rewrite E; auto.
Qed.

Lemma tenth_pos : 0 < PI / 18.
Proof. pose proof PI_RGT_0. lra. Qed.

(** *** The bulge and the segment count *)

Lemma bulge_or_1_nonzero bulge : bulge_or_1 bulge <> 0.
Proof.
  unfold bulge_or_1. destruct bulge as [b|]; [|lra].
  destruct (Req_dec_T b 0); lra.
Qed.

Lemma bulge_or_1_falsy bulge :
  bulge = None \/ bulge = Some 0 -> bulge_or_1 bulge = 1.
Proof.
  intros [->| ->]; cbn [bulge_or_1]; [reflexivity|].
  destruct (Req_dec_T 0 0); [reflexivity|lra].
Qed.

Lemma bulge_or_1_given b : b <> 0 -> bulge_or_1 (Some b) = b.
Proof.
  intros H. cbn [bulge_or_1]. destruct (Req_dec_T b 0); [contradiction|].
  reflexivity.
Qed.

(** Of an angle that is not negative the code takes the count of the
    specification. *)
Lemma default_segments_nonneg angle :
  0 <= angle -> default_segments angle = spec_segment_count angle.
Proof.
  intros H. unfold default_segments, spec_segment_count.
  rewrite (Rabs_pos_eq _ H).
  assert (Hq : 0 <= angle / (PI / 18)).
  { pose proof tenth_pos. apply Rmult_le_pos; [exact H|].
    apply Rlt_le, Rinv_0_lt_compat. assumption. }
  assert (Hc : (0 <= Zceil (angle / (PI / 18)))%Z).
  { apply le_IZR. destruct (Zceil_bound (angle / (PI / 18))). lra. }
  now rewrite Z.abs_eq.
Qed.

(** Of a negative angle it takes the floor where the specification has the
    ceiling. *)
Lemma default_segments_neg angle :
  angle < 0 ->
  default_segments angle =
  Z.to_nat (Z.max (Zfloor (Rabs angle / (PI / 18))) 6).
Proof.
  intros H. unfold default_segments.
  rewrite (Rabs_left _ H).
  replace (angle / (PI / 18)) with (- (- angle / (PI / 18)))
    by (field; apply PI_neq0).
  rewrite ZceilN, Z.abs_opp.
  assert (Hq : 0 <= - angle / (PI / 18)).
  { pose proof tenth_pos. apply Rmult_le_pos; [lra|].
    apply Rlt_le, Rinv_0_lt_compat. assumption. }
  assert (Hc : (0 <= Zfloor (- angle / (PI / 18)))%Z).
  { apply Zfloor_lub. exact Hq. }
  now rewrite Z.abs_eq.
Qed.

Lemma angle_sign b :
  (0 <= b -> 0 <= 4 * atan b) /\ (b < 0 -> 4 * atan b < 0).
Proof.
  split; intros H.
  - destruct H as [H|<-]; [|rewrite atan_0; lra].
    pose proof (atan_increasing 0 b H) as Ha. rewrite atan_0 in Ha. lra.
  - pose proof (atan_increasing b 0 H) as Ha. rewrite atan_0 in Ha. lra.
Qed.

(** The bulge -1/3: an included angle between -80 and -70 degrees. *)
Lemma third_code : default_segments (4 * atan (- / 3)) = 7%nat.
Proof.
  unfold default_segments. rewrite atan_opp.
  destruct atan_third as [L U]. pose proof PI_RGT_0 as Hpi.
  destruct (div_bounds (4 * atan (/ 3)) (PI / 18) 7 8 tenth_pos) as [L' U'];
    [lra|].
  replace (4 * - atan (/ 3) / (PI / 18))
    with (- (4 * atan (/ 3) / (PI / 18))) by (field; lra).
  rewrite (Zceil_eq (-7)); [reflexivity|]. lra.
Qed.

Lemma third_spec : spec_segment_count (4 * atan (- / 3)) = 8%nat.
Proof.
  unfold spec_segment_count. rewrite atan_opp.
  destruct atan_third as [L U]. pose proof PI_RGT_0 as Hpi.
  destruct (div_bounds (4 * atan (/ 3)) (PI / 18) 7 8 tenth_pos) as [L' U'];
    [lra|].
  rewrite Rabs_left by lra.
  replace (- (4 * - atan (/ 3)) / (PI / 18))
    with (4 * atan (/ 3) / (PI / 18)) by (field; lra).
  rewrite (Zceil_eq 8); [reflexivity|]. lra.
Qed.


(** C5, as the specification states it, fails on the bulge -1/3, whose
    included angle is between -80 and -70 degrees: the code takes 7 segments,
    the absolute value of the ceiling, where the specification has the
    ceiling of the absolute value, 8. *)
Lemma negative_bulge_count :
  segments (BulgeGeometry {| x := 0; y := 0 |} (Some {| x := 1; y := 0 |})
              (Some (- / 3)) None) = 7%nat /\
  spec_segment_count (4 * atan (- / 3)) = 8%nat.
Proof.
  split; [|exact third_spec].
  cbn [BulgeGeometry segments segments_or_default].
  rewrite bulge_or_1_given by lra. exact third_code.
Qed.

(** C5, amended: with the segment count left out, or 0, a falsy bulge (left
    out, or 0) is taken as 1, a bulge other than 0 as it is, and the segment
    count is [max(|ceil(includedAngle / 10 degrees)|, 6)] for the included
    angle [4 * atan(bulge)]: the count of the specification,
    [max(ceil(|includedAngle| / 10 degrees), 6)], when the bulge is not
    negative, and [max(floor(|includedAngle| / 10 degrees), 6)] when it is. *)
Theorem segment_count_default (startPoint0 : Vector3)
  (endPoint0 : option Vector3) (bulge0 : option R) (segments0 : option nat) :
  segments0 = None \/ segments0 = Some 0%nat ->
  let g := BulgeGeometry startPoint0 endPoint0 bulge0 segments0 in
  let angle := 4 * atan (bulge g) in
  (bulge0 = None \/ bulge0 = Some 0 -> bulge g = 1) /\
  (forall b, bulge0 = Some b -> b <> 0 -> bulge g = b) /\
  segments g = Z.to_nat (Z.max (Z.abs (Zceil (angle / (PI / 18)))) 6) /\
  (0 <= bulge g -> segments g = spec_segment_count angle) /\
  (bulge g < 0 ->
   segments g = Z.to_nat (Z.max (Zfloor (Rabs angle / (PI / 18))) 6)).
Proof.
  intros Hs g angle.
  assert (Hseg : segments g = default_segments angle)
    by (destruct Hs as [-> | ->]; reflexivity).
  repeat split.
  - apply bulge_or_1_falsy.
  - intros b -> Hb. now apply bulge_or_1_given.
  - exact Hseg.
  - intros Hb. rewrite Hseg. apply default_segments_nonneg.
    now apply angle_sign.
  - intros Hb. rewrite Hseg. apply default_segments_neg.
    now apply angle_sign.
Qed.

(** The segment count and the bulge both left out. *)
Lemma segment_count_default_witness :
  let g := BulgeGeometry {| x := 0; y := 0 |} None None None in
  let angle := 4 * atan (bulge g) in
  (@None R = None \/ @None R = Some 0 -> bulge g = 1) /\
  (forall b, None = Some b -> b <> 0 -> bulge g = b) /\
  segments g = Z.to_nat (Z.max (Z.abs (Zceil (angle / (PI / 18)))) 6) /\
  (0 <= bulge g -> segments g = spec_segment_count angle) /\
  (bulge g < 0 ->
   segments g = Z.to_nat (Z.max (Zfloor (Rabs angle / (PI / 18))) 6)).
Proof.
  apply (segment_count_default {| x := 0; y := 0 |} None None None).
  left. reflexivity.
Defined.

(** *** The semicircle *)

Lemma semicircle_segments : segments semicircle = 18%nat.
Proof.
  cbn [semicircle BulgeGeometry segments segments_or_default].
  rewrite bulge_or_1_given by lra. rewrite atan_1.
  unfold default_segments.
  replace (4 * (PI / 4) / (PI / 18)) with 18 by (field; apply PI_neq0).
  rewrite (Zceil_eq 18); [reflexivity|lra].
Qed.

Lemma semicircle_chord :
  distanceTo {| x := 0; y := 0 |} {| x := 2; y := 0 |} = 2.
Proof.
  unfold distanceTo, length, sub. cbn [x y].
  replace ((0 - 2) * (0 - 2) + (0 - 0) * (0 - 0)) with (2 * 2) by ring.
  apply sqrt_square. lra.
Qed.

Lemma semicircle_vertices :
  vertices semicircle =
  {| x := 0; y := 0 |}
    :: arc_points {| x := 1; y := 0 |} 1 PI (PI / 18) 18.
Proof.
  pose proof semicircle_segments as Hseg.
  cbn [semicircle BulgeGeometry segments vertices] in *. rewrite Hseg.
  rewrite bulge_or_1_given by lra. rewrite atan_1.
  replace (4 * (PI / 4)) with PI by field.
  pose proof semicircle_chord as Hd.
  assert (Ha : angle2 {| x := 0; y := 0 |} {| x := 2; y := 0 |} = 0).
  { unfold angle2, normalize, length, sub. cbn [x y].
    replace ((2 - 0) * (2 - 0) + (0 - 0) * (0 - 0)) with (2 * 2) by ring.
    rewrite sqrt_square by lra.
    destruct (Req_dec_T 2 0); [lra|].
    destruct (Rlt_dec ((0 - 0) / 2) 0); [lra|].
    replace ((2 - 0) / 2) with 1 by field. apply acos_1. }
  rewrite Hd, Ha, sin_PI2.
  replace (2 / 2 / 1) with 1 by field.
  replace (0 + (PI / 2 - PI / 2)) with 0 by ring.
  assert (Hc : polar {| x := 0; y := 0 |} 1 0 = {| x := 1; y := 0 |}).
  { unfold polar. cbn [x y]. rewrite cos_0, sin_0. f_equal; ring. }
  rewrite Hc.
  assert (Hs : angle2 {| x := 1; y := 0 |} {| x := 0; y := 0 |} = PI).
  { unfold angle2, normalize, length, sub. cbn [x y].
    replace ((0 - 1) * (0 - 1) + (0 - 0) * (0 - 0)) with 1 by ring.
    rewrite sqrt_1.
    destruct (Req_dec_T 1 0); [lra|].
    destruct (Rlt_dec ((0 - 0) / 1) 0); [lra|].
    replace ((0 - 1) / 1) with (- (1)) by field.
    rewrite acos_opp, acos_1. ring. }
  rewrite Hs.
  replace (INR 18) with 18 by (simpl; lra).
  reflexivity.
Qed.

Lemma semicircle_middle :
  nth 9 (vertices semicircle) {| x := 0; y := 0 |} = {| x := 1; y := -1 |}.
Proof.
  rewrite semicircle_vertices. unfold arc_points.
  cbn [Nat.sub seq map nth]. unfold polar. cbn [x y].
  replace (INR 9) with 9 by (simpl; lra).
  replace (PI + PI / 18 * 9) with (3 * (PI / 2)) by field.
  rewrite cos_3PI2, sin_3PI2, Rabs_R1. f_equal; ring.
Qed.

(** C4, as the specification states it, fails: the middle of the 17
    interior points of the semicircle is (1,-1), at distance 2 from (1,1),
    within no tolerance of it. *)
Lemma semicircle_middle_below :
  let m := nth 9 (vertices semicircle) {| x := 0; y := 0 |} in
  m = {| x := 1; y := -1 |} /\
  Rabs (y m - 1) = 2 /\
  ~ (Rabs (x m - 1) <= / 1000 /\ Rabs (y m - 1) <= / 1000).
Proof.
  cbv zeta. rewrite semicircle_middle. cbn [x y].
  replace (-1 - 1) with (- (2)) by ring.
  rewrite Rabs_Ropp, (Rabs_pos_eq 2) by lra.
  repeat split. intros [_ H]. lra.
Qed.

(** C4, amended: the semicircle from (0,0) to (2,0) of bulge 1 has the
    included angle pi and the radius 1; with the default segment count, 18,
    its vertices are the start point and 17 interior points, and the middle
    one of these, the ninth, is (1,-1): a positive bulge turns
    counterclockwise from the start point, below the chord here. *)
Theorem semicircle_tessellation :
  4 * atan (bulge semicircle) = PI /\
  distanceTo (startPoint semicircle) (endPoint semicircle) / 2
  / sin (PI / 2) = 1 /\
  segments semicircle = 18%nat /\
  exists interior,
    vertices semicircle = {| x := 0; y := 0 |} :: interior /\
    List.length interior = (segments semicircle - 1)%nat /\
    nth 8 interior {| x := 0; y := 0 |} = {| x := 1; y := -1 |}.
Proof.
  split; [|split; [|split; [exact semicircle_segments|]]].
  - cbn [semicircle BulgeGeometry bulge].
    rewrite bulge_or_1_given by lra. rewrite atan_1. field.
  - cbn [semicircle BulgeGeometry startPoint endPoint].
    rewrite semicircle_chord, sin_PI2. field.
  - pose proof semicircle_middle as Hm.
    rewrite semicircle_segments. rewrite semicircle_vertices in *.
    eexists. split; [reflexivity|]. split.
    + unfold arc_points. now rewrite length_map, length_seq.
    + exact Hm.
Qed.


(** *** Vectors and angles *)

Lemma length_sqr v : length v * length v = x v * x v + y v * y v.
Proof. unfold length. apply sqrt_sqrt. nra. Qed.

Lemma length_nonneg v : 0 <= length v.
Proof. apply sqrt_pos. Qed.

Lemma length_sub_pos p q : p <> q -> 0 < length (sub q p).
Proof.
  intros H. destruct (length_nonneg (sub q p)) as [Hl|Hl]; [exact Hl|].
  exfalso. apply H.
  pose proof (length_sqr (sub q p)) as E. rewrite <- Hl in E.
  cbn [sub x y] in E.
  destruct p as [px py], q as [qx qy]. cbn [x y] in E.
  destruct (Rplus_sqr_eq_0 (qx - px) (qy - py)) as [Hx Hy].
  { unfold Rsqr. lra. }
  f_equal; lra.
Qed.

Lemma length_sub_sym p q : length (sub p q) = length (sub q p).
Proof.
  unfold length, sub. cbn [x y]. f_equal. ring.
Qed.

(** [angle2(p, q)] is the direction of the chord from [p] to [q]. *)
Lemma angle2_spec p q :
  p <> q ->
  cos (angle2 p q) = (x q - x p) / length (sub q p) /\
  sin (angle2 p q) = (y q - y p) / length (sub q p).
Proof.
  intros H. pose proof (length_sub_pos p q H) as HL.
  pose proof (length_sqr (sub q p)) as E.
  unfold angle2, normalize.
  set (L := length (sub q p)) in *. cbn [sub x y] in *.
  destruct (Req_dec_T L 0) as [H0|_]; [lra|].
  set (vx := (x q - x p) / L). set (vy := (y q - y p) / L).
  assert (E1 : vx * vx + vy * vy = 1).
  { unfold vx, vy.
    replace ((x q - x p) / L * ((x q - x p) / L)
             + (y q - y p) / L * ((y q - y p) / L))
      with (((x q - x p) * (x q - x p) + (y q - y p) * (y q - y p))
            / (L * L)) by (field; lra).
    rewrite <- E. field. lra. }
  assert (Hx : -1 <= vx <= 1) by (split; nra).
  destruct (Rlt_dec vy 0) as [Hy|Hy].
  - rewrite cos_neg, sin_neg, cos_acos, sin_acos by exact Hx.
    split; [reflexivity|].
    replace (1 - vx²) with ((- vy) * (- vy)) by (unfold Rsqr; lra).
    rewrite sqrt_square by lra. ring.
  - rewrite cos_acos, sin_acos by exact Hx.
    split; [reflexivity|].
    replace (1 - vx²) with (vy * vy) by (unfold Rsqr; lra).
    rewrite sqrt_square by lra. reflexivity.
Qed.

(** A cosine is 1 at no angle strictly between 0 and a full turn, either
    way. *)
Lemma cos_1_full_turn u : u <> 0 -> - (2 * PI) < u < 2 * PI -> cos u <> 1.
Proof.
  intros H0 [Hl Hu] Hc.
  replace u with (2 * (u / 2)) in Hc by field.
  rewrite cos_2a_sin in Hc.
  assert (Hs : sin (u / 2) = 0) by nra.
  destruct (Rtotal_order u 0) as [Hn|[Hz|Hp]]; [|contradiction|].
  - pose proof (sin_lt_0_var (u / 2)). lra.
  - pose proof (sin_gt_0 (u / 2)). lra.
Qed.


(** *** The arc of a bulge *)

Section Arc.

(** Two distinct points and a bulge other than 0; the included angle, the
    radius and the center as the constructor computes them. *)
Variables (s e : Vector3) (b : R).
Hypothesis Hse : s <> e.
Hypothesis Hb : b <> 0.

Let A := 4 * atan b.
Let r := distanceTo s e / 2 / sin (A / 2).
Let psi := angle2 s e + (PI / 2 - A / 2).
Let c := polar s r psi.

Lemma angle_range : A <> 0 /\ - (2 * PI) < A < 2 * PI.
Proof.
  unfold A. pose proof (atan_bound b) as [L U]. split; [|split; lra].
  intros H. apply Hb, atan_eq0. lra.
Qed.

Lemma half_sin_nonzero : sin (A / 2) <> 0.
Proof.
  destruct angle_range as [H0 [L U]].
  destruct (Rtotal_order A 0) as [Hn|[Hz|Hp]]; [|contradiction|].
  - pose proof (sin_lt_0_var (A / 2)). lra.
  - pose proof (sin_gt_0 (A / 2)). lra.
Qed.

Lemma chord_pos : 0 < distanceTo s e.
Proof.
  unfold distanceTo. rewrite length_sub_sym. now apply length_sub_pos.
Qed.

Lemma radius_nonzero : r <> 0.
Proof.
  pose proof chord_pos. pose proof half_sin_nonzero as Hs.
  unfold r. intros H0.
  assert (E : distanceTo s e = distanceTo s e / 2 / sin (A / 2)
                               * (2 * sin (A / 2))) by (field; exact Hs).
  rewrite H0 in E. lra.
Qed.

(** The end point is the point of the circle at the included angle from the
    start point. *)
Lemma end_on_arc :
  x e = x s + r * (cos psi - cos (psi + A)) /\
  y e = y s + r * (sin psi - sin (psi + A)).
Proof.
  pose proof half_sin_nonzero as Hs. pose proof chord_pos as Hd.
  destruct (angle2_spec s e Hse) as [Hc Hsn].
  assert (Edist : distanceTo s e = length (sub e s))
    by apply length_sub_sym.
  rewrite Edist in Hd.
  set (d := length (sub e s)) in *.
  assert (Ex : x e = x s + d * cos (angle2 s e))
    by (rewrite Hc; field; lra).
  assert (Ey : y e = y s + d * sin (angle2 s e))
    by (rewrite Hsn; field; lra).
  assert (Ed : d = 2 * r * sin (A / 2))
    by (unfold r; rewrite Edist; field; exact Hs).
  rewrite form2, form4.
  replace ((psi - (psi + A)) / 2) with (- (A / 2)) by field.
  replace ((psi + (psi + A)) / 2) with (PI / 2 + angle2 s e)
    by (unfold psi; field).
  rewrite sin_neg, <- cos_sin.
  assert (Ecs : cos (PI / 2 + angle2 s e) = - sin (angle2 s e))
    by (rewrite (sin_cos (angle2 s e)); ring).
  rewrite Ecs, Ex, Ey, Ed. split; ring.
Qed.

Lemma center_not_start : c <> s.
Proof.
  intros H. pose proof radius_nonzero as Hr.
  apply (cos_sin_0 psi).
  assert (Hx : x c = x s) by now rewrite H.
  assert (Hy : y c = y s) by now rewrite H.
  unfold c, polar in Hx, Hy. cbn [x y] in Hx, Hy.
  split; apply Rmult_eq_reg_l with r; auto; lra.
Qed.

Lemma center_distance : length (sub s c) = Rabs r.
Proof.
  unfold length, c, polar, sub. cbn [x y].
  replace ((x s - (x s + r * cos psi)) * (x s - (x s + r * cos psi))
           + (y s - (y s + r * sin psi)) * (y s - (y s + r * sin psi)))
    with (Rsqr r * ((sin psi)² + (cos psi)²)) by (unfold Rsqr; ring).
  rewrite sin2_cos2, Rmult_1_r. apply sqrt_Rsqr_abs.
Qed.

(** The points the loop pushes, by the angle [t] turned from the start
    point. *)
Lemma point_on_arc t :
  x (polar c (Rabs r) (angle2 c s + t))
  = x s + r * (cos psi - cos (psi + t)) /\
  y (polar c (Rabs r) (angle2 c s + t))
  = y s + r * (sin psi - sin (psi + t)).
Proof.
  pose proof radius_nonzero as Hr.
  pose proof (Rabs_pos_lt r Hr) as Ha.
  destruct (angle2_spec c s center_not_start) as [Hc Hs].
  rewrite center_distance in Hc, Hs.
  assert (Ec : Rabs r * cos (angle2 c s) = - r * cos psi).
  { rewrite Hc. unfold c, polar. cbn [x y]. field. lra. }
  assert (Es : Rabs r * sin (angle2 c s) = - r * sin psi).
  { rewrite Hs. unfold c, polar. cbn [x y]. field. lra. }
  unfold polar. cbn [x y].
  rewrite !cos_plus, !sin_plus.
  replace (Rabs r * (cos (angle2 c s) * cos t - sin (angle2 c s) * sin t))
    with (Rabs r * cos (angle2 c s) * cos t
          - Rabs r * sin (angle2 c s) * sin t) by ring.
  replace (Rabs r * (sin (angle2 c s) * cos t + cos (angle2 c s) * sin t))
    with (Rabs r * sin (angle2 c s) * cos t
          + Rabs r * cos (angle2 c s) * sin t) by ring.
  rewrite Ec, Es. unfold c, polar. cbn [x y]. split; ring.
Qed.

(** A point short of the included angle, by less than a full turn, is not
    the end point. *)
Lemma arc_point_not_end t :
  A - t <> 0 -> - (2 * PI) < A - t < 2 * PI ->
  polar c (Rabs r) (angle2 c s + t) <> e.
Proof.
  intros H0 Hr Heq. pose proof radius_nonzero as Hrn.
  destruct (point_on_arc t) as [Px Py]. rewrite Heq in Px, Py.
  destruct end_on_arc as [Ex Ey].
  assert (Hc : cos (psi + t) = cos (psi + A))
    by (apply Rmult_eq_reg_l with r; auto; lra).
  assert (Hs : sin (psi + t) = sin (psi + A))
    by (apply Rmult_eq_reg_l with r; auto; lra).
  apply (cos_1_full_turn (A - t) H0 Hr).
  replace (A - t) with ((psi + A) - (psi + t)) by ring.
  rewrite cos_minus, Hc, Hs.
  pose proof (sin2_cos2 (psi + A)) as H1. unfold Rsqr in H1. lra.
Qed.

End Arc.


(** The default segment count is at least 6. *)
Lemma default_segments_ge angle : (6 <= default_segments angle)%nat.
Proof. unfold default_segments. lia. Qed.

Lemma segments_or_default_pos segments0 angle :
  (1 <= segments_or_default segments0 angle)%nat.
Proof.
  destruct segments0 as [[|m]|]; cbn [segments_or_default];
    try (pose proof (default_segments_ge angle)); lia.
Qed.

(** The angle turned at an interior point is short of the included angle. *)
Lemma interior_angle A n i :
  A <> 0 -> - (2 * PI) < A < 2 * PI -> (1 <= i)%nat -> (i < n)%nat ->
  A - A / INR n * INR i <> 0 /\
  - (2 * PI) < A - A / INR n * INR i < 2 * PI.
Proof.
  intros H0 [L U] Hi Hn.
  assert (Hi' : 0 < INR i) by (apply lt_0_INR; lia).
  assert (Hn' : INR i < INR n) by (apply lt_INR; lia).
  destruct (div_bounds (INR i) (INR n) 0 1) as [Q0 Q1]; [lra|lra|].
  replace (A - A / INR n * INR i) with (A * (1 - INR i / INR n))
    by (field; lra).
  set (q := INR i / INR n) in *.
  destruct (Rtotal_order A 0) as [Hneg|[Hz|Hpos]]; [|contradiction|];
    repeat split; nra.
Qed.

(** C6, as the specification states it, fails in two places: a segment
    count given as 0 is taken as left out, so that the semicircle gets its 18
    vertices; and when the end point is the start point the list, which
    begins with the start point, contains the end point. *)
Lemma vertices_counterexample :
  List.length
    (vertices (BulgeGeometry {| x := 0; y := 0 |} (Some {| x := 2; y := 0 |})
                 (Some 1) (Some 0%nat))) = 18%nat /\
  In {| x := 0; y := 0 |}
    (vertices (BulgeGeometry {| x := 0; y := 0 |} (Some {| x := 0; y := 0 |})
                 (Some 1) (Some 4%nat))).
Proof.
  split.
  - change (BulgeGeometry {| x := 0; y := 0 |} (Some {| x := 2; y := 0 |})
              (Some 1) (Some 0%nat)) with semicircle.
    rewrite semicircle_vertices. unfold arc_points. cbn [List.length].
    now rewrite length_map, length_seq.
  - cbn [BulgeGeometry vertices]. now left.
Qed.

(** C6, amended: with [n] the segment count in use (the one given when it
    is not 0, the default one otherwise), which is at least 1, the vertex
    list is the start point followed by the [n - 1] arc points
    [polar(center, |radius|, startAngle + thetaAngle * i)] for [i] from 1 to
    [n - 1], in that order, and, when the end point is not the start point,
    the end point is not in it. *)
Theorem vertices_shape (startPoint0 : Vector3) (endPoint0 : option Vector3)
  (bulge0 : option R) (segments0 : option nat) :
  let g := BulgeGeometry startPoint0 endPoint0 bulge0 segments0 in
  let n := segments g in
  let angle := 4 * atan (bulge g) in
  let radius := distanceTo startPoint0 (endPoint g) / 2 / sin (angle / 2) in
  let center :=
    polar startPoint0 radius
      (angle2 startPoint0 (endPoint g) + (PI / 2 - angle / 2)) in
  let startAngle := angle2 center startPoint0 in
  let thetaAngle := angle / INR n in
  (1 <= n)%nat /\
  (forall m, segments0 = Some (S m) -> n = S m) /\
  vertices g =
  startPoint0
    :: map (fun i => polar center (Rabs radius)
                       (startAngle + thetaAngle * INR i))
         (seq 1 (n - 1)) /\
  List.length (vertices g) = n /\
  (startPoint0 <> endPoint g -> ~ In (endPoint g) (vertices g)).
Proof.
  intros g n angle radius center startAngle thetaAngle.
  assert (Hn : (1 <= n)%nat) by apply segments_or_default_pos.
  assert (Hv : vertices g =
               startPoint0
                 :: map (fun i => polar center (Rabs radius)
                                    (startAngle + thetaAngle * INR i))
                      (seq 1 (n - 1))) by reflexivity.
  split; [exact Hn|]. split; [|split; [exact Hv|split]].
  - intros m ->. reflexivity.
  - rewrite Hv. cbn [List.length]. rewrite length_map, length_seq. lia.
  - intros Hne Hin. rewrite Hv in Hin. destruct Hin as [Hin|Hin].
    { now apply Hne. }
    apply in_map_iff in Hin. destruct Hin as (i & Hi & Hin).
    apply in_seq in Hin.
    pose proof (bulge_or_1_nonzero bulge0) as Hb.
    destruct (angle_range (bulge_or_1 bulge0) Hb) as [HA0 HAr].
    destruct (interior_angle angle n i HA0 HAr) as [H0 Hr]; try lia.
    exact (arc_point_not_end startPoint0 (endPoint g) (bulge_or_1 bulge0)
             Hne Hb (thetaAngle * INR i) H0 Hr Hi).
Qed.

End THREExFacts.


(** ** More on the intersection worker *)

Module LinesFacts.
Import Num NumFacts Intersect IntersectFacts Lines.
Import ZFacts MathjsFacts.
Local Open Scope Qc_scope.

Section Worker.
Context {solver : Solver}.

(** What the array of [getCoefficienConst] says of the two points it was
    made from, when the answer of the solver solves its system. *)
Lemma coefs_inv p1 p2 ao ko :
  answers ((x p1, 1), (x p2, 1)) (y p1, y p2) ->
  getCoefficienConst p1 p2 = Some (ao, ko) ->
  match model_of (ao, ko) with
  | Degenerate => x p1 = x p2 /\ y p1 = y p2
  | Vertical vx => x p1 = vx /\ x p2 = vx
  | Horizontal hy => y p1 = hy /\ y p2 = hy
  | Sloped a k => x p1 * a + k = y p1 /\ x p2 * a + k = y p2
  end.
Proof.
  intros Ha. unfold getCoefficienConst, solveSimultaneousEquation.
  destruct (eqb_spec (x p1) (x p2)) as [Hx|Hx];
    destruct (eqb_spec (y p1) (y p2)) as [Hy|Hy]; cbn [andb].
  - intros [= <- <-]. cbn [model_of]. auto.
  - intros [= <- <-]. cbn [model_of]. auto.
  - intros [= <- <-]. cbn [model_of]. auto.
  - destruct (lusolve _ _) as [[r0 r1]|] eqn:E; [|discriminate].
    intros [= <- <-]. cbn [model_of].
    apply Ha in E. destruct E as [E1 E2]. cbn [fst snd] in E1, E2.
    rewrite Qcmult_1_l in E1, E2. auto.
Qed.

(** A point on the line of the array of two points is on the line through
    them. *)
Lemma on_line_collinear p1 p2 ao ko p :
  answers ((x p1, 1), (x p2, 1)) (y p1, y p2) ->
  getCoefficienConst p1 p2 = Some (ao, ko) ->
  on_line (model_of (ao, ko)) p -> collinear p1 p2 p.
Proof.
  intros Ha Hc Hp. pose proof (coefs_inv p1 p2 ao ko Ha Hc) as Hm.
  unfold collinear.
  destruct (model_of (ao, ko)) as [vx|hy|a k|]; cbn [on_line] in Hp.
  - destruct Hm as (H1 & H2). rewrite Hp, H1, H2. ring.
  - destruct Hm as (H1 & H2). rewrite Hp, H1, H2. ring.
  - destruct Hm as (H1 & H2). rewrite Hp, <- H1, <- H2. ring.
  - contradiction.
Qed.

(** The point the chain assigns is on the lines of the two arrays, when the
    answer of the solver for two sloped lines solves their system. *)
Lemma cross_on_lines ao ko at_ kt iX iY :
  (forall a1 k1 a2 k2,
      ao = Some a1 -> ko = Some k1 -> at_ = Some a2 -> kt = Some k2 ->
      answers ((1, - (1) * a1), (1, - (1) * a2)) (k1, k2)) ->
  cross ao ko at_ kt = Assign iX iY ->
  on_line (model_of (ao, ko)) {| x := iX; y := iY |} /\
  on_line (model_of (at_, kt)) {| x := iX; y := iY |}.
Proof.
  intros Ha.
  destruct ao as [ao|], ko as [ko|], at_ as [at_|], kt as [kt|];
    cbn [cross model_of on_line x y]; try discriminate;
    try (intros [= <- <-]; split; reflexivity).
  - specialize (Ha ao ko at_ kt eq_refl eq_refl eq_refl eq_refl).
    unfold solveSimultaneousEquation.
    destruct (lusolve _ _) as [[r0 r1]|] eqn:E; [|discriminate].
    intros [= <- <-]. apply Ha in E. destruct E as [E1 E2].
    cbn [fst snd] in E1, E2. split.
    + rewrite <- E1. ring.
    + rewrite <- E2. ring.
  - unfold quotient. destruct (eqb_spec ao 0) as [|N]; [discriminate|].
    intros [= <- <-]. split; [|reflexivity]. field. exact N.
  - unfold quotient. destruct (eqb_spec at_ 0) as [|N]; [discriminate|].
    intros [= <- <-]. split; [reflexivity|]. field. exact N.
Qed.

End Worker.

(** A solver whose answer is known answers with a solution when that
    answer is one. *)
Lemma answers_computed {solver : Solver} A b r :
  lusolve A b = Some r -> solves A b r -> answers A b.
Proof. intros H Hr r' H'. congruence. Qed.

(** X1: whatever the solver is, when the chain assigns a point for a query
    and a candidate, that point is on the line through the two ends of the
    query and on the line through the two ends of the candidate, provided
    what the solver returned for the three systems involved, the two of
    [getCoefficienConst] and the one of the two sloped lines, solves them. *)
Theorem crossing_on_both_lines (solver : Solver) point1 point2 c
  ao ko at_ kt iX iY :
  answers ((x point1, 1), (x point2, 1)) (y point1, y point2) ->
  answers ((x (start c), 1), (x (end_ c), 1)) (y (start c), y (end_ c)) ->
  (forall a1 k1 a2 k2,
      ao = Some a1 -> ko = Some k1 -> at_ = Some a2 -> kt = Some k2 ->
      answers ((1, - (1) * a1), (1, - (1) * a2)) (k1, k2)) ->
  getCoefficienConst point1 point2 = Some (ao, ko) ->
  getCoefficienConst (start c) (end_ c) = Some (at_, kt) ->
  cross ao ko at_ kt = Assign iX iY ->
  collinear point1 point2 {| x := iX; y := iY |} /\
  collinear (start c) (end_ c) {| x := iX; y := iY |}.
Proof.
  intros Ao At Ax Ho Ht Hc.
  destruct (cross_on_lines ao ko at_ kt iX iY Ax Hc) as [H1 H2].
  split.
  - exact (on_line_collinear point1 point2 ao ko _ Ao Ho H1).
  - exact (on_line_collinear (start c) (end_ c) at_ kt _ At Ht H2).
Qed.

Lemma vector_eq (o p : option Mathjs.vector) :
  option_eqb (fun a b => eqb (fst a) (fst b) && eqb (snd a) (snd b)) o p
  = true -> o = p.
Proof.
  apply option_eqb_eq. intros [a1 a2] [b1 b2]. cbn [fst snd]. intros H.
  apply andb_prop in H. destruct H as [H1 H2].
  apply eqb_eq in H1, H2. congruence.
Qed.

(** The diagonals of the square of side 2 cross at (1,1). *)
Lemma crossing_on_both_lines_witness :
  collinear (pt 0 0) (pt 2 2) {| x := of_Z 1; y := of_Z 1 |} /\
  collinear (start (seg 0 2 2 0)) (end_ (seg 0 2 2 0))
    {| x := of_Z 1; y := of_Z 1 |}.
Proof.
  apply (crossing_on_both_lines mathjs (pt 0 0) (pt 2 2) (seg 0 2 2 0)
           (Some (of_Z 1)) (Some (of_Z 0))
           (Some (of_Z (-1))) (Some (of_Z 2))).
  - apply (answers_computed _ _ (of_Z 1, of_Z 0)).
    + apply vector_eq. vm_compute. reflexivity.
    + split; apply Qc_is_canon; reflexivity.
  - apply (answers_computed _ _ (of_Z (-1), of_Z 2)).
    + apply vector_eq. vm_compute. reflexivity.
    + split; apply Qc_is_canon; reflexivity.
  - intros a1 k1 a2 k2 [= <-] [= <-] [= <-] [= <-].
    apply (answers_computed _ _ (of_Z 1, of_Z 1)).
    + apply vector_eq. vm_compute. reflexivity.
    + split; apply Qc_is_canon; reflexivity.
  - apply coefs_eq. vm_compute. reflexivity.
  - apply coefs_eq. vm_compute. reflexivity.
  - apply chain_eq. vm_compute. reflexivity.
Defined.

(** Without these hypotheses the point can be off the line of the query:
    on the query (0,0)-(2,2^-60) the solver of mathjs takes the ordinate
    2^-60 for 0 and returns the slope 0 and the intercept 0; against the
    vertical segment (1,-1)-(1,1) the point is (1,0), which is returned,
    where the line of the query passes at (1,2^-61). *)
Lemma assigned_off_line :
  let point2 := {| x := of_Z 2; y := / of_Z (2 ^ 60) |} in
  getCoefficienConst (pt 0 0) point2 = Some (Some (of_Z 0), Some (of_Z 0)) /\
  findCrossPoint (pt 0 0) point2 [seg 1 (-1) 1 1]%list
  = Some [pt 1 0]%list /\
  ~ collinear (pt 0 0) point2 (pt 1 0).
Proof.
  intros point2. split; [apply coefs_eq; vm_compute; reflexivity|].
  split; [apply points_eq; vm_compute; reflexivity|].
  unfold collinear. cbn [x y pt point2]. intros H.
  apply (f_equal this) in H. vm_compute in H. discriminate H.
Qed.

(** X2: with the solver of mathjs, the chain does not depend on which of
    the two lines is the query: with the coefficients of the query and of the
    candidate exchanged it skips, assigns the same point, or catches the
    error, alike, provided the intercepts of two sloped lines and their
    difference are 0 or at least 2^-52 away from 0. *)
Theorem cross_symmetric ao ko at_ kt :
  (forall a1 k1 a2 k2,
      ao = Some a1 -> ko = Some k1 -> at_ = Some a2 -> kt = Some k2 ->
      Mathjs.zero_or_far k1 /\ Mathjs.zero_or_far k2 /\
      Mathjs.zero_or_far (k2 - k1)) ->
  cross ao ko at_ kt = cross at_ kt ao ko.
Proof.
  intros Hf.
  destruct ao as [ao|], ko as [ko|], at_ as [at_|], kt as [kt|];
    try reflexivity.
  destruct (Hf ao ko at_ kt eq_refl eq_refl eq_refl eq_refl)
    as (F1 & F2 & Fd).
  assert (Fd' : Mathjs.zero_or_far (ko - kt)).
  { destruct Fd as [E|H]; [left|right].
    - apply minus_eq_0 in E. subst kt. ring.
    - now rewrite Qcabs_Qcminus. }
  cbn [cross]. unfold solveSimultaneousEquation.
  change (@lusolve mathjs) with Mathjs.lusolve. rewrite !lusolve_ones.
  rewrite !lsolve_far; try assumption;
    try (now replace (kt - ko * 1) with (kt - ko) by ring);
    try (now replace (ko - kt * 1) with (ko - kt) by ring).
  replace (kt - ko * 1) with (kt - ko) by ring.
  replace (ko - kt * 1) with (ko - kt) by ring.
  replace (- (1) * at_ - - (1) * ao) with (ao - at_) by ring.
  replace (- (1) * ao - - (1) * at_) with (at_ - ao) by ring.
  assert (H1 : Mathjs.DBL_EPSILON <= Qcabs 1)
    by (apply equalScalar_0_false; reflexivity).
  destruct (eqb_spec kt ko) as [E|N].
  - subst kt. replace (ko - ko) with 0 by ring.
    rewrite !usolve_far; try (now left); try (intros H; now contradiction H);
      try (intros _; exact H1);
      try (rewrite div_0_l;
           now replace (ko - 0 * (- (1) * ao)) with ko by ring);
      try (rewrite div_0_l;
           now replace (ko - 0 * (- (1) * at_)) with ko by ring).
    rewrite !div_0_l, !div_1.
    replace (ko - 0 * (- (1) * ao)) with ko by ring.
    now replace (ko - 0 * (- (1) * at_)) with ko by ring.
  - assert (Nd : kt - ko <> 0) by now apply minus_neq_0.
    assert (Nd' : ko - kt <> 0) by now apply minus_neq_0, not_eq_sym.
    destruct (Qclt_le_dec (Qcabs (ao - at_)) Mathjs.DBL_EPSILON) as [Hs|Hr].
    + rewrite !usolve_raises; try assumption; [reflexivity|].
      now rewrite Qcabs_Qcminus.
    + assert (Hr' : Mathjs.DBL_EPSILON <= Qcabs (at_ - ao))
        by now rewrite Qcabs_Qcminus.
      pose proof (far_nonzero _ Hr) as Nu.
      pose proof (far_nonzero _ Hr') as Nu'.
      rewrite !usolve_regular by assumption.
      assert (Ex : (ko - kt) / (at_ - ao) = (kt - ko) / (ao - at_))
        by (field; split; assumption).
      assert (Ey : kt - (ko - kt) / (at_ - ao) * (- (1) * at_)
                   = ko - (kt - ko) / (ao - at_) * (- (1) * ao))
        by (field; split; assumption).
      now rewrite Ey, Ex.
Qed.

(** Two sloped lines of slopes 1 and 2 and of intercepts 0 and 1. *)
Lemma cross_symmetric_witness :
  cross (Some (of_Z 1)) (Some (of_Z 0)) (Some (of_Z 2)) (Some (of_Z 1))
  = cross (Some (of_Z 2)) (Some (of_Z 1)) (Some (of_Z 1)) (Some (of_Z 0)).
Proof.
  apply (cross_symmetric (Some (of_Z 1)) (Some (of_Z 0))
           (Some (of_Z 2)) (Some (of_Z 1))).
  intros a1 k1 a2 k2 [= <-] [= <-] [= <-] [= <-].
  split; [now left|].
  split; right; apply equalScalar_0_false; reflexivity.
Defined.

(** Without that hypothesis the two orders differ: with the slopes 2 and 1
    and the intercepts 2^-60 and 2^-50, the solver takes 2^-60 for 0 when it
    comes first, and the point is (2^-50, 2^-49); in the other order the
    point is (2^-50 - 2^-60, 2^-49 - 2^-60), where the lines cross. *)
Lemma cross_asymmetric :
  cross (Some (of_Z 2)) (Some (/ of_Z (2 ^ 60)))
        (Some (of_Z 1)) (Some (/ of_Z (2 ^ 50)))
  = Assign (/ of_Z (2 ^ 50)) (/ of_Z (2 ^ 49)) /\
  cross (Some (of_Z 1)) (Some (/ of_Z (2 ^ 50)))
        (Some (of_Z 2)) (Some (/ of_Z (2 ^ 60)))
  = Assign (/ of_Z (2 ^ 50) - / of_Z (2 ^ 60))
           (/ of_Z (2 ^ 49) - / of_Z (2 ^ 60)).
Proof.
  split; apply chain_eq; vm_compute; reflexivity.
Qed.

Local Close Scope Qc_scope.

(** *** What the loop keeps true *)

Section Loop.
Context {solver : Solver}.










(** *** Candidates without effect *)

Lemma getCoefficienConst_point p :
  getCoefficienConst p p = Some (None, None).
Proof. unfold getCoefficienConst. now rewrite !eqb_refl. Qed.

Lemma cross_degenerate_r ao ko : cross ao ko None None = Continue.
Proof. now destruct ao, ko. Qed.


Lemma iteration_skip point1 point2 ao ko st c :
  disjoint (box point1 point2) (box (start c) (end_ c)) = true \/
  start c = end_ c ->
  iteration point1 point2 ao ko st c = Some st.
Proof.
  intros [H|H]; unfold iteration.
  - now rewrite H.
  - destruct (disjoint _ _); [reflexivity|].
    rewrite H, getCoefficienConst_point, cross_degenerate_r. reflexivity.
Qed.


(** *** The older viewer *)








End Loop.



(** X5: a candidate whose bounding box is disjoint from the bounding box of
    the query, or whose two ends are the same point, has no effect on the
    result of [findCrossPoint], wherever it stands in the list and whatever
    the solver is. *)
Theorem candidate_without_effect (solver : Solver) point1 point2 before c
  after :
  disjoint (box point1 point2) (box (start c) (end_ c)) = true \/
  start c = end_ c ->
  findCrossPoint point1 point2 (before ++ c :: after)
  = findCrossPoint point1 point2 (before ++ after).
Proof.
  intros H. unfold findCrossPoint.
  destruct (getCoefficienConst point1 point2) as [[ao ko]|]; [|reflexivity].
  f_equal. rewrite !loop_app.
  destruct (loop point1 point2 ao ko _ before) as [st|]; [|reflexivity].
  cbn [loop]. now rewrite iteration_skip.
Qed.

(** The far segment (5,5)-(6,6) between two candidates of the diagonal
    (0,0)-(2,2). *)
Lemma candidate_without_effect_witness :
  findCrossPoint (pt 0 0) (pt 2 2)
    ([seg 0 2 2 0] ++ seg 5 5 6 6 :: [seg 0 1 1 0])
  = findCrossPoint (pt 0 0) (pt 2 2) ([seg 0 2 2 0] ++ [seg 0 1 1 0]).
Proof.
  apply (candidate_without_effect mathjs (pt 0 0) (pt 2 2)
           [seg 0 2 2 0] (seg 5 5 6 6) [seg 0 1 1 0]).
  left. vm_compute. reflexivity.
Defined.




(** Without the first hypothesis the two differ: the segment (5,-1)-(6,-2),
    far from the query (0,0)-(4,4), is on a line that crosses it at (2,2);
    the older code assigns that point, and pushes it on the next candidate,
    parallel to the query, whose box holds it. And the older code raises
    where [findCrossPoint] returns: on the far segment (2^53,9)-(2^53-1,10),
    for which the solver of mathjs raises. *)
Lemma createIntersectPoint_differs :
  Dist.createIntersectPoint (pt 0 0) (pt 4 4)
    [seg 5 (-1) 6 (-2); seg 1 2 3 4] [] = Some [pt 2 2] /\
  findCrossPoint (pt 0 0) (pt 4 4) [seg 5 (-1) 6 (-2); seg 1 2 3 4]
  = Some [] /\
  Dist.createIntersectPoint (pt 0 0) (pt 4 4)
    [seg (2 ^ 53) 9 (2 ^ 53 - 1) 10] [] = None /\
  findCrossPoint (pt 0 0) (pt 4 4) [seg (2 ^ 53) 9 (2 ^ 53 - 1) 10]
  = Some [].
Proof.
  repeat split; apply points_eq; vm_compute; reflexivity.
Qed.



End LinesFacts.

(** ** The order of the results *)

Module DealFacts.
Import Intersect Scheduler Viewer Lines Deal.
Import IntersectFacts SchedulerFacts ViewerFacts LinesFacts.

Lemma Forall2_no_raise {T E : Type} (items : list (item T E)) (vs : list T) :
  Forall2 (fun it v => it tt = Value v) items vs ->
  forall it, In it items -> raises it = false.
Proof.
  induction 1 as [|it' v l l' Hv _ IH]; intros it; [intros []|].
  intros [<-|H]; [|now apply IH].
  unfold raises. now rewrite Hv.
Qed.

Lemma Forall2_value_nth {T E : Type} (items : list (item T E))
  (vs : list T) :
  Forall2 (fun it v => it tt = Value v) items vs ->
  forall m it,
    nth_error items m = Some it ->
    exists v, it tt = Value v /\ nth_error vs m = Some v.
Proof.
  induction 1 as [|it' v l l' Hv _ IH]; intros [|m] it;
    cbn [nth_error]; try discriminate.
  - intros [= <-]. eauto.
  - apply IH.
Qed.

Section Rounds.

Variables T E : Type.
Variable items : list (item T E).
Variable concurrency : nat.
Variable vs : list T.

Hypothesis HC : 1 <= concurrency.
Hypothesis Hvs : Forall2 (fun it v => it tt = Value v) items vs.

Implicit Types (s : state T E) (w : worker T E).

Lemma values_no_raise it : In it items -> raises it = false.
Proof. exact (Forall2_no_raise items vs Hvs it). Qed.

Lemma values_nth m it :
  nth_error items m = Some it ->
  exists v, it tt = Value v /\ nth_error vs m = Some v.
Proof. exact (Forall2_value_nth items vs Hvs m it). Qed.

Lemma values_length : length items = length vs.
Proof. exact (Forall2_length Hvs). Qed.

(** Once the iterator is done, [m] items at least have been taken, and a
    step more changes nothing of what [dealt] says. *)
Lemma dealt_done m s :
  Inv items s -> iterator s = [] -> dealt concurrency vs m s ->
  Nat.min (S m) (length vs) = Nat.min m (length vs).
Proof.
  intros HI Hnil [Hy _].
  pose proof values_length as Hlen.
  pose proof (inv_iterator _ _ _ _ HI) as Hi. rewrite Hnil in Hi.
  apply (f_equal (@length _)) in Hi. rewrite length_skipn in Hi.
  cbn [length] in Hi. lia.
Qed.

Lemma turn_dealt k a s :
  a < concurrency ->
  Inv items s -> Good concurrency s ->
  dealt concurrency vs (k * concurrency + a) s ->
  dealt concurrency vs (S (k * concurrency + a)) (turn a s).
Proof.
  intros Ha HI HG Hd.
  pose proof values_length as Hlen.
  destruct HG as (Hws & Hstop & _ & _).
  destruct (nth_error (workers s) a) as [wa|] eqn:Ewa;
    [|apply nth_error_None in Ewa; lia].
  destruct (turn_cases T E a s)
    as [[Et Hno]|[(vals & Hw & Hnil & Et)|(vals & it & rest & Hw & Hcons & Et)]].
  - (* the worker has resolved: the iterator is done *)
    assert (Hnil : iterator s = []).
    { apply (inv_resolved _ _ _ _ HI). exists wa. split.
      - eapply nth_error_In; eauto.
      - pose proof (Hstop wa (nth_error_In _ _ Ewa)) as Hs.
        destruct wa as [vals|vals|vals e]; try reflexivity; try discriminate.
        now destruct (Hno vals). }
    rewrite Et. unfold dealt. rewrite (dealt_done _ s HI Hnil Hd). exact Hd.
  - rewrite Et. unfold dealt. cbn [yielded workers].
    rewrite (dealt_done _ s HI Hnil Hd). destruct Hd as [Hy Hd].
    split; [exact Hy|]. intros j w Hj.
    destruct (Nat.eq_dec j a) as [->|Hne].
    + rewrite set_nth_same in Hj by (apply nth_error_Some; congruence).
      injection Hj as <-. exact (Hd a _ Hw).
    + rewrite set_nth_other in Hj by congruence. exact (Hd j w Hj).
  - destruct Hd as [Hy Hd].
    pose proof (inv_iterator _ _ _ _ HI) as Hi. rewrite Hcons in Hi.
    symmetry in Hi.
    destruct (skipn_cons_firstn _ _ _ _ Hi) as (_ & _ & Hlt).
    assert (Hm : yielded s = k * concurrency + a) by lia.
    assert (Hit : nth_error items (k * concurrency + a) = Some it).
    { rewrite <- Hm, <- hd_error_skipn, Hi. reflexivity. }
    destruct (values_nth _ _ Hit) as (v & Hv & Hvm).
    rewrite Et, Hv. unfold dealt. cbn [yielded workers].
    replace (Nat.min (S (k * concurrency + a)) (length vs))
      with (S (k * concurrency + a)) by lia.
    replace (Nat.min (k * concurrency + a) (length vs))
      with (k * concurrency + a) in Hd by lia.
    split; [lia|]. intros j w Hj.
    destruct (Nat.eq_dec j a) as [->|Hne].
    + rewrite set_nth_same in Hj by (apply nth_error_Some; congruence).
      injection Hj as <-. cbn [vals_of].
      specialize (Hd a _ Hw). cbn [vals_of] in Hd.
      assert (Hk : length vals = k).
      { assert (Hle : length vals <= k).
        { apply nth_error_None. rewrite Hd.
          destruct (Nat.ltb_spec (a + k * concurrency)
                      (k * concurrency + a)); [lia|reflexivity]. }
        destruct k as [|k']; [lia|].
        assert (Hgt : k' < length vals).
        { apply nth_error_Some. rewrite Hd.
          destruct (Nat.ltb_spec (a + k' * concurrency)
                      (S k' * concurrency + a)) as [L|L]; [|nia].
          apply nth_error_Some. nia. }
        lia. }
      intros i. destruct (lt_eq_lt_dec i k) as [[Hik| ->]|Hik].
      * rewrite nth_error_app1 by lia. rewrite Hd.
        destruct (Nat.ltb_spec (a + i * concurrency) (k * concurrency + a));
          [|nia].
        destruct (Nat.ltb_spec (a + i * concurrency)
                    (S (k * concurrency + a))); [reflexivity|lia].
      * rewrite nth_error_app2 by lia. rewrite Hk, Nat.sub_diag.
        cbn [nth_error].
        destruct (Nat.ltb_spec (a + k * concurrency)
                    (S (k * concurrency + a))); [|lia].
        now rewrite (Nat.add_comm a).
      * rewrite nth_error_app2 by lia. rewrite Hk.
        destruct (i - k) as [|d] eqn:Ed; [lia|]. cbn [nth_error].
        destruct (Nat.ltb_spec (a + i * concurrency)
                    (S (k * concurrency + a))); [nia|].
        now destruct d.
    + rewrite set_nth_other in Hj by congruence.
      assert (Hjc : j < concurrency).
      { rewrite <- Hws. apply nth_error_Some. congruence. }
      intros i. rewrite (Hd j w Hj).
      assert (Hneq : j + i * concurrency <> k * concurrency + a).
      { destruct (lt_eq_lt_dec i k) as [[Hik| ->]|Hik]; [nia|lia|nia]. }
      destruct (Nat.ltb_spec (j + i * concurrency) (k * concurrency + a)),
        (Nat.ltb_spec (j + i * concurrency) (S (k * concurrency + a)));
        try reflexivity; lia.
Qed.

(** The steps of the workers [a], [a + 1], ... of one round. *)
Lemma round_dealt k n :
  forall a s,
    a + n <= concurrency ->
    Inv items s -> Good concurrency s ->
    dealt concurrency vs (k * concurrency + a) s ->
    dealt concurrency vs (k * concurrency + a + n) (run (seq a n) s).
Proof.
  induction n as [|n IH]; intros a s Han HI HG Hd.
  - cbn [seq run fold_left]. now rewrite Nat.add_0_r.
  - cbn [seq]. rewrite run_cons.
    replace (k * concurrency + a + S n) with (k * concurrency + S a + n)
      by lia.
    apply IH; [lia|now apply Inv_turn|now apply Good_turn|].
    replace (k * concurrency + S a) with (S (k * concurrency + a)) by lia.
    apply turn_dealt; auto. lia.
Qed.

Lemma rounds_dealt rounds :
  forall k s,
    Inv items s -> Good concurrency s ->
    dealt concurrency vs (k * concurrency) s ->
    dealt concurrency vs ((k + rounds) * concurrency)
      (run (round_robin concurrency rounds) s).
Proof.
  induction rounds as [|r IH]; intros k s HI HG Hd.
  - cbn [round_robin repeat concat run fold_left]. now rewrite Nat.add_0_r.
  - rewrite round_robin_S, run_app.
    replace ((k + S r) * concurrency) with ((S k + r) * concurrency) by lia.
    apply IH; [now apply Inv_run|now apply Good_run|].
    replace (S k * concurrency) with (k * concurrency + 0 + concurrency)
      by lia.
    apply round_dealt; auto.
    now rewrite Nat.add_0_r.
Qed.

Lemma init_dealt : dealt concurrency vs 0 (init items concurrency).
Proof.
  split; [reflexivity|]. cbn [init workers Nat.min]. intros j w Hj i.
  apply nth_error_In, repeat_spec in Hj. subst w. cbn [vals_of].
  destruct (Nat.ltb_spec (j + i * concurrency) 0); [lia|]. now destruct i.
Qed.

(** The call is fulfilled with one group for each worker, and the group [j]
    holds the values of the items [j], [j + concurrency], ... in order. *)
Lemma asynccParallel_dealt :
  exists r,
    asynccParallel items concurrency = Fulfilled r /\
    length r = concurrency /\
    forall j g,
      nth_error r j = Some g ->
      forall i, nth_error g i = nth_error vs (j + i * concurrency).
Proof.
  pose proof values_length as Hlen.
  pose proof (Good_init T E items concurrency values_no_raise) as HG0.
  pose proof (Inv_init T E items concurrency) as HI0.
  set (sch := round_robin concurrency (S (length items))).
  assert (Hres : forall w, In w (workers (final items concurrency)) ->
                           is_resolved w = true).
  { apply (rounds_resolve T E concurrency HC (length items)); auto. }
  pose proof (Good_run T E concurrency sch _ HG0) as (Hws & _).
  pose proof (rounds_dealt (S (length items)) 0 _ HI0 HG0 init_dealt)
    as [_ Hd].
  fold sch in Hd. fold (final items concurrency) in Hd, Hws.
  exists (map vals_of (workers (final items concurrency))).
  split; [now apply resolved_outcome|]. split; [now rewrite length_map|].
  intros j g Hj i. rewrite nth_error_map in Hj.
  destruct (nth_error (workers (final items concurrency)) j) as [w|] eqn:Ew;
    [|discriminate].
  injection Hj as <-. rewrite (Hd j w Ew).
  destruct (Nat.ltb_spec (j + i * concurrency)
              (Nat.min ((0 + S (length items)) * concurrency) (length vs)))
    as [L|L]; [reflexivity|].
  symmetry. apply nth_error_None. nia.
Qed.

End Rounds.


(** X9: with a concurrency of 0 the call of [asynccParallel] is fulfilled
    with no group at all, and no item is taken from the iterator nor
    executed, whatever the items are. *)
Theorem no_worker_no_work (T E : Type) (items : list (item T E)) :
  asynccParallel items 0 = Fulfilled [] /\
  executed (final items 0) = [] /\
  iterator (final items 0) = items.
Proof.
  assert (H0 : forall k, round_robin 0 k = []).
  { induction k as [|k IH]; [reflexivity|].
    rewrite round_robin_S. exact IH. }
  unfold asynccParallel, final. rewrite H0.
  cbn [run fold_left init]. repeat split.
Qed.

(** X10: when no item raises, the call of [asynccParallel] with at least one
    worker is fulfilled with one group for each worker, and the items are
    dealt to the workers in turn: with [vs] the values of the items, the
    group [j] holds the values of the items [j], [j + concurrency],
    [j + 2 * concurrency], ... in that order, and nothing else. *)
Theorem round_robin_deal (T E : Type) (items : list (item T E))
  (concurrency : nat) :
  1 <= concurrency ->
  (forall it, In it items -> raises it = false) ->
  exists r vs,
    asynccParallel items concurrency = Fulfilled r /\
    Forall2 (fun it v => it tt = Value v) items vs /\
    length r = concurrency /\
    forall j g,
      nth_error r j = Some g ->
      forall i, nth_error g i = nth_error vs (j + i * concurrency).
Proof.
  intros HC Hok.
  destruct (values_Forall2 T E items Hok) as (vs & Hvs & _).
  destruct (asynccParallel_dealt T E items concurrency vs HC Hvs)
    as (r & Er & Hr & Hd).
  exists r, vs. auto.
Qed.

(** Three items and two workers. *)
Lemma round_robin_deal_witness :
  exists r vs,
    asynccParallel sound_batch 2 = Fulfilled r /\
    Forall2 (fun it v => it tt = Value v) sound_batch vs /\
    length r = 2 /\
    forall j g,
      nth_error r j = Some g ->
      forall i, nth_error g i = nth_error vs (j + i * 2).
Proof.
  apply (round_robin_deal nat unit sound_batch 2).
  - lia.
  - intros it [<-|[<-|[<-|[]]]]; reflexivity.
Defined.

(** *** The points of the viewer *)

(** Groups dealt from no more values than there are groups hold one value at
    most each: concatenated, they are the values in their order. *)
Lemma dealt_concat {A : Type} (c : nat) (r : list (list A)) (vs : list A) :
  length r = c -> length vs <= c ->
  (forall j g,
      nth_error r j = Some g ->
      forall i, nth_error g i = nth_error vs (j + i * c)) ->
  concat r = vs.
Proof.
  intros Hr Hvs H.
  assert (E : r = map (fun v => [v]) vs ++ repeat [] (c - length vs)).
  { apply nth_error_ext. intros j.
    destruct (nth_error r j) as [g|] eqn:Ej.
    - assert (Hj : j < c).
      { rewrite <- Hr. apply nth_error_Some. congruence. }
      specialize (H j g Ej).
      destruct (Nat.lt_ge_cases j (length vs)) as [L|L].
      + rewrite nth_error_app1 by now rewrite length_map.
        rewrite nth_error_map.
        destruct (nth_error vs j) as [v|] eqn:Ev;
          [|apply nth_error_None in Ev; lia].
        cbn [option_map]. f_equal. apply nth_error_ext. intros [|i].
        * rewrite H. cbn [Nat.mul]. now rewrite Nat.add_0_r.
        * rewrite H. cbn [nth_error].
          transitivity (@None A); [apply nth_error_None; nia|].
          now destruct i.
      + rewrite nth_error_app2 by now rewrite length_map.
        rewrite length_map, nth_error_repeat by lia.
        f_equal. apply nth_error_ext. intros i. rewrite H.
        transitivity (@None A); [apply nth_error_None; nia|].
        now destruct i.
    - symmetry. apply nth_error_None. apply nth_error_None in Ej.
      rewrite length_app, length_map, repeat_length. lia. }
  rewrite E, concat_app.
  assert (E1 : forall l : list A, concat (map (fun v => [v]) l) = l).
  { induction l as [|v l IH]; [reflexivity|]. cbn. now rewrite IH. }
  assert (E2 : forall n, concat (repeat (@nil A) n) = []).
  { induction n as [|n IH]; [reflexivity|]. exact IH. }
  now rewrite E1, E2, app_nil_r.
Qed.

(** A call with at least one worker stays pending when an item raises. *)
Lemma raise_pending {T E : Type} (items : list (item T E)) concurrency :
  1 <= concurrency ->
  (exists it, In it items /\ raises it = true) ->
  asynccParallel items concurrency = Pending.
Proof.
  intros HC (bad & Hin & Hbad). unfold asynccParallel, final.
  destruct (outcome _) as [|r|e] eqn:Ho; [reflexivity| |].
  - exfalso.
    destruct (fulfilled_sound T E items concurrency _ r HC Ho)
      as (_ & vs & F & _).
    pose proof (Forall2_no_raise items vs F bad Hin). congruence.
  - exfalso. now apply outcome_not_rejected in Ho.
Qed.

Lemma Forall2_values_eq {T E : Type} (items : list (item T E)) :
  forall vs vs',
    Forall2 (fun it v => it tt = Value v) items vs ->
    Forall2 (fun it v => it tt = Value v) items vs' ->
    vs = vs'.
Proof.
  induction items as [|it l IH]; intros vs vs' H H';
    inversion H; inversion H'; subst; [reflexivity|].
  f_equal; [congruence|now apply IH].
Qed.


Section Worker.
Context {solver : Solver}.





(** The generator has an item that raises when an entry is [undefined]. *)
Lemma undefined_raises (lines : list (option Line)) :
  In None lines ->
  exists it, In it (createGenerator lines) /\ raises it = true.
Proof.
  intros H. apply In_nth_error in H. destruct H as [i Hi].
  exists (work None (firstn i lines)). split; [|reflexivity].
  apply nth_error_In with i.
  apply (generate_nth lines (length lines) 0 i None); [|exact Hi].
  apply nth_error_Some. congruence.
Qed.

(** It has one when a call of [findCrossPoint] raises. *)
Lemma singular_raises (lines : list Line) index line :
  nth_error lines index = Some line ->
  findCrossPoint (start line) (end_ line) (firstn index lines) = None ->
  exists it, In it (createGenerator (map Some lines)) /\ raises it = true.
Proof.
  intros Hl Hn.
  exists (work (Some line) (firstn index (map Some lines))). split.
  - apply nth_error_In with index.
    apply (generate_nth (map Some lines) (length (map Some lines)) 0 index
             (Some line)).
    + rewrite length_map. apply nth_error_Some. congruence.
    + cbn [Nat.add]. now rewrite nth_error_map, Hl.
  - unfold raises. now rewrite firstn_map, work_defined, Hn.
Qed.

End Worker.



(** The call stays pending, and gives no point, when an entry of the list is
    [undefined], as [createObjects] leaves one for an entity without
    [lineVecs], and when a call of [findCrossPoint] raises: on the segment
    (2^53,0)-(2^53-1,1) alone the solver of mathjs raises. *)
Lemma createIntersectPoints_pending :
  (forall (solver : Solver) (lines : list (option Line)),
      In None lines -> createIntersectPoints lines = Pending) /\
  (forall (solver : Solver) (lines : list Line) index line,
      nth_error lines index = Some line ->
      findCrossPoint (start line) (end_ line) (firstn index lines) = None ->
      createIntersectPoints (map Some lines) = Pending) /\
  createIntersectPoints [Some (seg (2 ^ 53) 0 (2 ^ 53 - 1) 1)] = Pending.
Proof.
  assert (HC : 1 <= CONCURRENCY) by (unfold CONCURRENCY; lia).
  split; [|split].
  - intros solver lines H. unfold createIntersectPoints.
    now rewrite (raise_pending _ _ HC (undefined_raises lines H)).
  - intros solver lines index line Hl Hn. unfold createIntersectPoints.
    now rewrite (raise_pending _ _ HC (singular_raises lines index line Hl Hn)).
  - vm_compute. reflexivity.
Qed.

End DealFacts.

(** ** More on the bulge arcs *)

Module ArcFacts.
Import THREEx THREExFacts.
Local Open Scope R_scope.

Lemma Vector3_eq (v w : Vector3) : x v = x w -> y v = y w -> v = w.
Proof. destruct v, w. cbn [x y]. now intros -> ->. Qed.

Lemma Vector3_eq_dec (v w : Vector3) : {v = w} + {v <> w}.
Proof.
  destruct (Req_dec_T (x v) (x w)) as [Hx|Hx].
  - destruct (Req_dec_T (y v) (y w)) as [Hy|Hy].
    + left. now apply Vector3_eq.
    + right. now intros ->.
  - right. now intros ->.
Qed.

(** A point at the offset [r] in the direction [a] from [c] is at the
    distance [|r|] from it. *)
Lemma offset_distance c v r a :
  x v - x c = r * cos a -> y v - y c = r * sin a ->
  length (sub v c) = Rabs r.
Proof.
  intros Hx Hy. unfold length, sub. cbn [x y]. rewrite Hx, Hy.
  replace (r * cos a * (r * cos a) + r * sin a * (r * sin a))
    with (Rsqr r * ((sin a)² + (cos a)²)) by (unfold Rsqr; ring).
  rewrite sin2_cos2, Rmult_1_r. apply sqrt_Rsqr_abs.
Qed.

(** [polar(c, d, t)] is at the distance [|d|] from [c]. *)
Lemma polar_distance c d t : length (sub (polar c d t) c) = Rabs d.
Proof.
  apply (offset_distance c _ d t); unfold polar; cbn [x y]; ring.
Qed.

Lemma polar_0 c t : polar c 0 t = c.
Proof. apply Vector3_eq; unfold polar; cbn [x y]; ring. Qed.

Lemma length_0 v : length (sub v v) = 0.
Proof.
  unfold length, sub. cbn [x y].
  replace ((x v - x v) * (x v - x v) + (y v - y v) * (y v - y v)) with 0
    by ring.
  apply sqrt_0.
Qed.

(** The arc point at the angle [t] from the start point, for any two points
    and any bulge other than 0. *)
Lemma arc_point s e b t :
  b <> 0 ->
  let A := 4 * atan b in
  let r := distanceTo s e / 2 / sin (A / 2) in
  let psi := angle2 s e + (PI / 2 - A / 2) in
  let c := polar s r psi in
  (s <> e ->
   x (polar c (Rabs r) (angle2 c s + t))
   = x s + r * (cos psi - cos (psi + t)) /\
   y (polar c (Rabs r) (angle2 c s + t))
   = y s + r * (sin psi - sin (psi + t))) /\
  (s = e -> r = 0 /\ c = s).
Proof.
  intros Hb A r psi c. split.
  - intros Hse. exact (point_on_arc s e b Hse Hb t).
  - intros <-. assert (Hr : r = 0).
    { unfold r, distanceTo. rewrite length_0. unfold Rdiv.
      now rewrite !Rmult_0_l. }
    split; [exact Hr|]. unfold c. rewrite Hr. apply polar_0.
Qed.

(** X12: the center that [BulgeGeometry] computes is the center of a circle
    through the start point and the end point: every vertex of the geometry,
    and the end point, is at the distance [|radius|] from it. *)
Theorem arc_on_circle (startPoint0 : Vector3) (endPoint0 : option Vector3)
  (bulge0 : option R) (segments0 : option nat) :
  let g := BulgeGeometry startPoint0 endPoint0 bulge0 segments0 in
  let angle := 4 * atan (bulge g) in
  let radius := distanceTo startPoint0 (endPoint g) / 2 / sin (angle / 2) in
  let center :=
    polar startPoint0 radius
      (angle2 startPoint0 (endPoint g) + (PI / 2 - angle / 2)) in
  Forall (fun v => distanceTo v center = Rabs radius) (vertices g) /\
  distanceTo (endPoint g) center = Rabs radius.
Proof.
  intros g angle radius center.
  pose proof (bulge_or_1_nonzero bulge0) as Hb.
  set (e := endPoint g) in *.
  split.
  - cbn [g BulgeGeometry vertices]. constructor.
    + exact (center_distance startPoint0 e (bulge_or_1 bulge0)).
    + unfold arc_points. apply Forall_forall. intros v Hv.
      apply in_map_iff in Hv. destruct Hv as (i & <- & _).
      change (distanceTo
                (polar center (Rabs radius)
                   (angle2 center startPoint0
                    + angle / INR (segments g) * INR i)) center
              = Rabs radius).
      unfold distanceTo. rewrite polar_distance. apply Rabs_Rabsolu.
  - destruct (Vector3_eq_dec startPoint0 e) as [Heq|Hne].
    + rewrite <- Heq.
      exact (center_distance startPoint0 e (bulge_or_1 bulge0)).
    + destruct (end_on_arc startPoint0 e (bulge_or_1 bulge0) Hne Hb)
        as [Ex Ey].
      set (psi := angle2 startPoint0 e + (PI / 2 - angle / 2)) in *.
      change (x e = x startPoint0 + radius * (cos psi - cos (psi + angle)))
        in Ex.
      change (y e = y startPoint0 + radius * (sin psi - sin (psi + angle)))
        in Ey.
      unfold distanceTo. rewrite <- (Rabs_Ropp radius).
      apply (offset_distance center e (- radius) (psi + angle));
        unfold center, polar; cbn [x y]; lra.
Qed.


(** The arc point of index [n] is the end point. *)
Lemma arc_end (startPoint0 : Vector3) (endPoint0 : option Vector3)
  (bulge0 : option R) (segments0 : option nat) :
  let g := BulgeGeometry startPoint0 endPoint0 bulge0 segments0 in
  let n := segments g in
  let angle := 4 * atan (bulge g) in
  let radius := distanceTo startPoint0 (endPoint g) / 2 / sin (angle / 2) in
  let center :=
    polar startPoint0 radius
      (angle2 startPoint0 (endPoint g) + (PI / 2 - angle / 2)) in
  let startAngle := angle2 center startPoint0 in
  let thetaAngle := angle / INR n in
  polar center (Rabs radius) (startAngle + thetaAngle * INR n) = endPoint g.
Proof.
  intros g n angle radius center startAngle thetaAngle.
  pose proof (bulge_or_1_nonzero bulge0) as Hb.
  assert (Hn : (1 <= n)%nat) by apply segments_or_default_pos.
  assert (Hn' : 0 < INR n) by (apply lt_0_INR; lia).
  set (e := endPoint g) in *.
  destruct (arc_point startPoint0 e (bulge_or_1 bulge0) angle Hb) as [Pn Qn].
  set (psi := angle2 startPoint0 e + (PI / 2 - angle / 2)) in *.
  change (startPoint0 <> e ->
          x (polar center (Rabs radius) (startAngle + angle))
          = x startPoint0 + radius * (cos psi - cos (psi + angle)) /\
          y (polar center (Rabs radius) (startAngle + angle))
          = y startPoint0 + radius * (sin psi - sin (psi + angle))) in Pn.
  change (startPoint0 = e -> radius = 0 /\ center = startPoint0) in Qn.
  replace (thetaAngle * INR n) with angle by (unfold thetaAngle; field; lra).
  destruct (Vector3_eq_dec startPoint0 e) as [Heq|Hne].
  - destruct (Qn Heq) as [Hr Hc]. now rewrite Hr, Rabs_R0, polar_0, Hc.
  - destruct (Pn Hne) as [Xn Yn].
    destruct (end_on_arc startPoint0 e (bulge_or_1 bulge0) Hne Hb)
      as [Ex Ey].
    change (x e = x startPoint0 + radius * (cos psi - cos (psi + angle)))
      in Ex.
    change (y e = y startPoint0 + radius * (sin psi - sin (psi + angle)))
      in Ey.
    apply Vector3_eq; lra.
Qed.

(** X13: the arc points of [BulgeGeometry] divide the arc from the start
    point to the end point: with [n] the segment count in use, the point of
    index 0 of the formula of the loop is the start point and the point of
    index [n] is the end point; the loop pushes those of index 1 to
    [n - 1]. *)
Theorem arc_from_start_to_end (startPoint0 : Vector3)
  (endPoint0 : option Vector3) (bulge0 : option R) (segments0 : option nat) :
  let g := BulgeGeometry startPoint0 endPoint0 bulge0 segments0 in
  let n := segments g in
  let angle := 4 * atan (bulge g) in
  let radius := distanceTo startPoint0 (endPoint g) / 2 / sin (angle / 2) in
  let center :=
    polar startPoint0 radius
      (angle2 startPoint0 (endPoint g) + (PI / 2 - angle / 2)) in
  let startAngle := angle2 center startPoint0 in
  let thetaAngle := angle / INR n in
  polar center (Rabs radius) (startAngle + thetaAngle * INR 0) = startPoint0 /\
  polar center (Rabs radius) (startAngle + thetaAngle * INR n) = endPoint g.
Proof.
  intros g n angle radius center startAngle thetaAngle.
  split; [|exact (arc_end startPoint0 endPoint0 bulge0 segments0)].
  pose proof (bulge_or_1_nonzero bulge0) as Hb.
  set (e := endPoint g) in *.
  destruct (arc_point startPoint0 e (bulge_or_1 bulge0) 0 Hb) as [P0 Q0].
  set (psi := angle2 startPoint0 e + (PI / 2 - angle / 2)) in *.
  change (startPoint0 <> e ->
          x (polar center (Rabs radius) (startAngle + 0))
          = x startPoint0 + radius * (cos psi - cos (psi + 0)) /\
          y (polar center (Rabs radius) (startAngle + 0))
          = y startPoint0 + radius * (sin psi - sin (psi + 0))) in P0.
  change (startPoint0 = e -> radius = 0 /\ center = startPoint0) in Q0.
  replace (thetaAngle * INR 0) with 0 by (cbn [INR]; ring).
  destruct (Vector3_eq_dec startPoint0 e) as [Heq|Hne].
  - destruct (Q0 Heq) as [Hr Hc]. now rewrite Hr, Rabs_R0, polar_0, Hc.
  - destruct (P0 Hne) as [X0 Y0]. rewrite (Rplus_0_r psi) in X0, Y0.
    apply Vector3_eq; lra.
Qed.

(** *** [angle2] and [polar] *)

(** The chord from [p] to [polar(p, d, t)], normalized, for [d > 0]. *)
Lemma normalize_polar p d t :
  0 < d ->
  normalize (sub (polar p d t) p) = {| x := cos t; y := sin t |}.
Proof.
  intros Hd. unfold normalize. rewrite polar_distance.
  rewrite (Rabs_pos_eq d) by lra.
  destruct (Req_dec_T d 0) as [H0|_]; [lra|].
  unfold sub, polar. cbn [x y]. apply Vector3_eq; cbn [x y]; field; lra.
Qed.

(** X14: [angle2] gives back the angle [polar] was given: for a distance
    [d > 0] and an angle [t] with [-PI < t <= PI], the angle of the vector
    from [p] to [polar(p, d, t)] is [t], and that point is at the distance
    [d] from [p]. *)
Theorem angle2_of_polar (p : Vector3) (d t : R) :
  0 < d -> - PI < t <= PI ->
  angle2 p (polar p d t) = t /\ distanceTo (polar p d t) p = d.
Proof.
  intros Hd [Hl Hu]. split.
  - unfold angle2. rewrite normalize_polar by exact Hd. cbn [x y].
    destruct (Rlt_dec (sin t) 0) as [Hs|Hs].
    + assert (Ht : t < 0).
      { destruct (Rlt_le_dec t 0) as [H|H]; [exact H|].
        pose proof (sin_ge_0 t H Hu). lra. }
      rewrite <- (cos_neg t), acos_cos by lra. ring.
    + assert (Ht : 0 <= t).
      { destruct (Rlt_le_dec t 0) as [H|H]; [|exact H].
        pose proof (sin_lt_0_var t). lra. }
      apply acos_cos. lra.
  - unfold distanceTo. rewrite polar_distance. apply Rabs_pos_eq. lra.
Qed.

(** The point at the distance 1 from the origin in the direction 0. *)
Lemma angle2_of_polar_witness :
  angle2 {| x := 0; y := 0 |} (polar {| x := 0; y := 0 |} 1 0) = 0 /\
  distanceTo (polar {| x := 0; y := 0 |} 1 0) {| x := 0; y := 0 |} = 1.
Proof.
  apply (angle2_of_polar {| x := 0; y := 0 |} 1 0).
  - lra.
  - pose proof PI_RGT_0. lra.
Defined.

(** X15: [angle2(p, q)] is an angle in [(-PI, PI]]; when [q] is not [p],
    [polar] with the distance from [p] to [q] and that angle leads from [p]
    to [q]; when [q] is [p], the angle is [PI / 2]. *)
Theorem polar_of_angle2 (p q : Vector3) :
  - PI < angle2 p q <= PI /\
  (p <> q -> polar p (distanceTo p q) (angle2 p q) = q) /\
  (p = q -> angle2 p q = PI / 2).
Proof.
  assert (Hsame : angle2 p p = PI / 2).
  { unfold angle2, normalize. rewrite length_0.
    destruct (Req_dec_T 0 0) as [_|H]; [|lra].
    unfold sub. cbn [x y].
    replace ((y p - y p) / 1) with 0 by field.
    replace ((x p - x p) / 1) with 0 by field.
    destruct (Rlt_dec 0 0) as [H|_]; [lra|]. apply acos_0. }
  pose proof PI_RGT_0 as Hpi.
  split; [|split].
  - destruct (Vector3_eq_dec p q) as [<-|Hne]; [rewrite Hsame; lra|].
    destruct (angle2_spec p q Hne) as [_ Hs].
    pose proof (length_sub_pos p q Hne) as HL.
    assert (Hy : y (normalize (sub q p)) = (y q - y p) / length (sub q p)).
    { unfold normalize.
      destruct (Req_dec_T (length (sub q p)) 0) as [H0|_]; [lra|].
      reflexivity. }
    revert Hs. unfold angle2. rewrite Hy.
    pose proof (acos_bound (x (normalize (sub q p)))) as [B0 B1].
    destruct (Rlt_dec _ 0) as [Hneg|Hpos]; intros Hs; [|lra].
    split; [|lra].
    destruct B1 as [B1|B1]; [lra|]. exfalso.
    rewrite B1, sin_neg, sin_PI in Hs. lra.
  - intros Hne. destruct (angle2_spec p q Hne) as [Hc Hs].
    pose proof (length_sub_pos p q Hne) as HL.
    unfold distanceTo. rewrite length_sub_sym.
    apply Vector3_eq; unfold polar; cbn [x y].
    + rewrite Hc. field. lra.
    + rewrite Hs. field. lra.
  - intros <-. exact Hsame.
Qed.

End ArcFacts.

(** ** Polylines *)

Module PolylineFacts.
Import THREEx THREExFacts ArcFacts Polyline.
Local Open Scope R_scope.

(** The loop only pushes: what [geometry.vertices] held stays in front. *)
Lemma geometry_loop_prefix rest :
  forall acc, exists tail, geometry_loop rest acc = acc ++ tail.
Proof.
  induction rest as [|v rest IH]; intros acc; cbn [geometry_loop].
  - exists []. now rewrite app_nil_r.
  - destruct (truthy_bulge v) as [b|].
    + destruct (IH (acc ++ vertices
                      (BulgeGeometry (vec v)
                         match rest with
                         | w :: _ => Some (vec w)
                         | [] => hd_error acc
                         end (Some b) None))) as [tail ->].
      rewrite <- app_assoc. eauto.
    + destruct (IH (acc ++ [vec v])) as [tail ->].
      rewrite <- app_assoc. eauto.
Qed.

(** Without a bulge, one vertex for each vertex of the entity. *)
Lemma geometry_loop_straight rest :
  Forall (fun v => truthy_bulge v = None) rest ->
  forall acc, geometry_loop rest acc = acc ++ map vec rest.
Proof.
  induction 1 as [|v rest Hv _ IH]; intros acc; cbn [geometry_loop map].
  - now rewrite app_nil_r.
  - rewrite Hv, IH, <- app_assoc. reflexivity.
Qed.

(** The segment [i] goes from the vertex [i] to the vertex [i + 1]. *)
Lemma pairs_nth vs :
  forall i,
    nth_error (pairs vs) i =
    match nth_error vs i, nth_error vs (S i) with
    | Some a, Some b => Some {| start := a; end_ := b |}
    | _, _ => None
    end.
Proof.
  induction vs as [|a vs IH]; intros i.
  - now destruct i.
  - destruct vs as [|b vs'].
    + destruct i as [|[|i]]; reflexivity.
    + destruct i as [|i].
      * reflexivity.
      * change (pairs (a :: b :: vs'))
          with ({| start := a; end_ := b |} :: pairs (b :: vs')).
        cbn [nth_error]. rewrite IH. reflexivity.
Qed.

Lemma pairs_length vs :
  List.length (pairs vs) = (List.length vs - 1)%nat.
Proof.
  induction vs as [|a vs IH]; [reflexivity|].
  destruct vs as [|b vs']; [reflexivity|].
  change (pairs (a :: b :: vs'))
    with ({| start := a; end_ := b |} :: pairs (b :: vs')).
  cbn [List.length] in *. lia.
Qed.

(** X16: the segments [drawLine] returns form a chain: each one starts where
    the one before it ends; when [entity.shape] is set the last one ends
    where the first one starts; and for a polyline without bulges they are
    the segments between consecutive vertices of the entity, one fewer than
    the vertices, or as many when [entity.shape] is set. *)
Theorem drawLine_chain (entity_vertices : list Vertex) (shape : bool) :
  let lineVecs := drawLine entity_vertices shape in
  (forall i a b,
      nth_error lineVecs i = Some a -> nth_error lineVecs (S i) = Some b ->
      end_ a = start b) /\
  (shape = true ->
   forall a z,
     nth_error lineVecs 0 = Some a ->
     nth_error lineVecs (List.length lineVecs - 1) = Some z ->
     end_ z = start a) /\
  (Forall (fun v => truthy_bulge v = None) entity_vertices ->
   lineVecs = pairs (closed shape (map vec entity_vertices)) /\
   List.length lineVecs =
   if shape then List.length entity_vertices
   else (List.length entity_vertices - 1)%nat).
Proof.
  intros lineVecs. unfold lineVecs, drawLine. split; [|split].
  - intros i a b. rewrite !pairs_nth.
    destruct (nth_error _ i) as [u|]; [|discriminate].
    destruct (nth_error _ (S i)) as [v|]; [|discriminate].
    destruct (nth_error _ (S (S i))) as [w|]; [|discriminate].
    now intros [= <-] [= <-].
  - intros -> a z. rewrite pairs_length, !pairs_nth. cbn [closed].
    destruct (geometry_vertices entity_vertices) as [|v0 g];
      [cbn; discriminate|].
    set (L := v0 :: g).
    assert (Hlen : (List.length (L ++ [v0]) - 1 - 1)%nat = List.length g)
      by (rewrite length_app; cbn [L List.length]; lia).
    assert (H0 : nth_error (L ++ [v0]) 0 = Some v0) by reflexivity.
    assert (Hn : nth_error (L ++ [v0]) (S (List.length g)) = Some v0).
    { rewrite nth_error_app2 by (cbn [L List.length]; lia).
      cbn [L List.length]. now rewrite Nat.sub_diag. }
    rewrite Hlen, H0, Hn.
    destruct (nth_error (L ++ [v0]) 1); [|discriminate]. intros [= <-].
    destruct (nth_error (L ++ [v0]) (List.length g)); [|discriminate].
    now intros [= <-].
  - intros Hs. unfold geometry_vertices.
    rewrite (geometry_loop_straight _ Hs []). cbn [app].
    split; [reflexivity|]. rewrite pairs_length.
    destruct shape; cbn [closed]; [|now rewrite length_map].
    destruct entity_vertices as [|v vs]; [reflexivity|].
    cbn [map]. rewrite length_app. cbn [List.length]. rewrite length_map. lia.
Qed.


Lemma geometry_loop_bulge v rest acc b :
  truthy_bulge v = Some b ->
  geometry_loop (v :: rest) acc =
  geometry_loop rest
    (acc ++ vertices
       (BulgeGeometry (vec v)
          match rest with
          | w :: _ => Some (vec w)
          | [] => hd_error acc
          end (Some b) None)).
Proof. intros H. cbn [geometry_loop]. now rewrite H. Qed.

Lemma geometry_loop_plain v rest acc :
  truthy_bulge v = None ->
  geometry_loop (v :: rest) acc = geometry_loop rest (acc ++ [vec v]).
Proof. intros H. cbn [geometry_loop]. now rewrite H. Qed.

(** What the loop pushes for a vertex begins with that vertex. *)
Lemma geometry_loop_cons v rest acc :
  exists tail, geometry_loop (v :: rest) acc = acc ++ vec v :: tail.
Proof.
  cbn [geometry_loop]. destruct (truthy_bulge v) as [b|].
  - destruct (geometry_loop_prefix rest
                (acc ++ vertices
                   (BulgeGeometry (vec v)
                      match rest with
                      | w :: _ => Some (vec w)
                      | [] => hd_error acc
                      end (Some b) None))) as [tail ->].
    cbn [BulgeGeometry vertices]. rewrite <- app_assoc. cbn [app]. eauto.
  - destruct (geometry_loop_prefix rest (acc ++ [vec v])) as [tail ->].
    rewrite <- app_assoc. cbn [app]. eauto.
Qed.

(** The arc of a vertex with a bulge and the vertex after it. *)
Lemma geometry_loop_arc pre v w post b :
  truthy_bulge v = Some b ->
  forall acc, exists before after,
    geometry_loop (pre ++ v :: w :: post) acc =
    before ++ vertices (BulgeGeometry (vec v) (Some (vec w)) (Some b) None)
      ++ vec w :: after.
Proof.
  intros Hb. induction pre as [|u pre IH]; intros acc.
  - cbn [app]. rewrite (geometry_loop_bulge _ _ _ _ Hb).
    destruct (geometry_loop_cons w post
                (acc ++ vertices
                   (BulgeGeometry (vec v) (Some (vec w)) (Some b) None)))
      as [tail ->].
    exists acc, tail. now rewrite <- app_assoc.
  - cbn [app].
    destruct (truthy_bulge u) as [bu|] eqn:Hu.
    + rewrite (geometry_loop_bulge _ _ _ _ Hu). apply IH.
    + rewrite (geometry_loop_plain _ _ _ Hu). apply IH.
Qed.

(** The arc of a last vertex with a bulge ends at [geometry.vertices[0]]. *)
Lemma geometry_loop_last mid v b h :
  truthy_bulge v = Some b ->
  forall acc,
    hd_error acc = Some h ->
    exists before,
      geometry_loop (mid ++ [v]) acc =
      before ++ vertices (BulgeGeometry (vec v) (Some h) (Some b) None) /\
      hd_error before = Some h.
Proof.
  intros Hb. induction mid as [|u mid IH]; intros acc Hh.
  - cbn [app]. rewrite (geometry_loop_bulge _ _ _ _ Hb), Hh.
    cbn [geometry_loop]. eauto.
  - assert (Hd : forall l, hd_error (acc ++ l) = Some h).
    { intros l. destruct acc; [discriminate|exact Hh]. }
    cbn [app]. destruct (truthy_bulge u) as [bu|] eqn:Hu.
    + rewrite (geometry_loop_bulge _ _ _ _ Hu). apply IH, Hd.
    + rewrite (geometry_loop_plain _ _ _ Hu). apply IH, Hd.
Qed.

(** X17: in the vertices of [drawLine], the vertices of the arc of a vertex
    with a bulge are followed by the next vertex of the entity, which is the
    end point of that arc: the point of index [n] of the formula of the arc
    points, [n] being the segment count of the arc. After the last vertex of
    the entity the arc ends at the first vertex, which follows it when
    [entity.shape] is set; and the arc of a vertex that is alone ends at
    (1, 0). *)
Theorem drawLine_arc_joined (pre : list Vertex) (v w : Vertex)
  (post : list Vertex) (b : R) :
  truthy_bulge v = Some b ->
  let g := BulgeGeometry (vec v) (Some (vec w)) (Some b) None in
  let n := segments g in
  let angle := 4 * atan b in
  let radius := distanceTo (vec v) (vec w) / 2 / sin (angle / 2) in
  let center :=
    polar (vec v) radius (angle2 (vec v) (vec w) + (PI / 2 - angle / 2)) in
  let startAngle := angle2 center (vec v) in
  let thetaAngle := angle / INR n in
  (exists before after,
      geometry_vertices (pre ++ v :: w :: post) =
      before ++ vertices g ++ vec w :: after) /\
  polar center (Rabs radius) (startAngle + thetaAngle * INR n) = vec w /\
  (exists before,
      closed true (geometry_vertices (w :: pre ++ [v])) =
      before
        ++ vertices (BulgeGeometry (vec v) (Some (vec w)) (Some b) None)
        ++ [vec w]) /\
  geometry_vertices [v] =
  vertices (BulgeGeometry (vec v) None (Some b) None).
Proof.
  intros Hb g n angle radius center startAngle thetaAngle.
  assert (Hbulge : bulge_or_1 (Some b) = b).
  { unfold truthy_bulge in Hb. destruct (vbulge v) as [b'|]; [|discriminate].
    destruct (Req_dec_T b' 0) as [|Hne]; [discriminate|].
    injection Hb as ->. cbn [bulge_or_1].
    destruct (Req_dec_T b 0); [contradiction|reflexivity]. }
  split; [|split; [|split]].
  - apply geometry_loop_arc, Hb.
  - pose proof (arc_end (vec v) (Some (vec w)) (Some b) None) as He.
    cbn [BulgeGeometry bulge endPoint segments] in He.
    rewrite Hbulge in He.
    unfold thetaAngle, n, g. cbn [BulgeGeometry segments].
    rewrite Hbulge. exact He.
  - unfold geometry_vertices.
    assert (Hfirst : exists acc,
               geometry_loop (w :: pre ++ [v]) []
               = geometry_loop (pre ++ [v]) acc /\
               hd_error acc = Some (vec w)).
    { destruct (truthy_bulge w) as [bw|] eqn:Hw.
      - rewrite (geometry_loop_bulge _ _ _ _ Hw).
        eexists. split; [reflexivity|]. reflexivity.
      - rewrite (geometry_loop_plain _ _ _ Hw).
        eexists. split; [reflexivity|]. reflexivity. }
    destruct Hfirst as (acc & -> & Hacc).
    destruct (geometry_loop_last pre v b (vec w) Hb acc Hacc)
      as (before & -> & Hbefore).
    destruct before as [|h before']; [discriminate|].
    injection Hbefore as ->.
    cbn [closed app]. exists (vec w :: before').
    now rewrite <- !app_assoc.
  - unfold geometry_vertices. cbn [geometry_loop]. rewrite Hb. reflexivity.
Qed.

(** The arc of bulge 1 from (0,0) to the vertex (2,0). *)
Lemma drawLine_arc_joined_witness :
  let v := {| vx := 0; vy := 0; vbulge := Some 1 |} in
  let w := {| vx := 2; vy := 0; vbulge := None |} in
  exists before after,
    geometry_vertices ([] ++ v :: w :: []) =
    before ++ vertices (BulgeGeometry (vec v) (Some (vec w)) (Some 1) None)
      ++ vec w :: after.
Proof.
  intros v w.
  refine (proj1 (drawLine_arc_joined [] v w [] 1 _)).
  unfold truthy_bulge, v. cbn [vbulge].
  destruct (Req_dec_T 1 0); [lra|reflexivity].
Defined.

End PolylineFacts.

(** ** Colors and solids *)

Module EntitiesFacts.
Import Num NumFacts Entities.
Local Open Scope Qc_scope.

(** X18: [getColor] never returns white (0xffffff), which it replaces by
    black, as it does a color left out; a color of the entity other than 0
    and white is returned as it is; a color of the entity that is 0 or left
    out gives way to the color of the layer, and to black when there is no
    layer or the layer has no color. *)
Theorem getColor_never_white (entity_color : option Z)
  (layer : option (option Z)) :
  getColor entity_color layer <> white /\
  (forall c, entity_color = Some c -> c <> 0%Z -> c <> white ->
             getColor entity_color layer = c) /\
  (entity_color = None \/ entity_color = Some 0%Z ->
   (forall c, layer = Some (Some c) -> c <> white ->
              getColor entity_color layer = c) /\
   (layer = None \/ layer = Some None ->
    getColor entity_color layer = 0%Z)).
Proof.
  assert (Hw : forall o : option Z,
             match o with
             | None => 0%Z
             | Some c => if (c =? white)%Z then 0%Z else c
             end <> white).
  { intros [c|]; [|discriminate].
    destruct (Z.eqb_spec c white); [discriminate|assumption]. }
  split; [|split].
  - unfold getColor. apply Hw.
  - intros c -> H0 Hc. unfold getColor.
    destruct (Z.eqb_spec c 0); [contradiction|].
    destruct (Z.eqb_spec c white); [contradiction|reflexivity].
  - intros He. split.
    + intros c -> Hc. unfold getColor.
      destruct He as [->| ->]; cbn [Z.eqb];
        destruct (Z.eqb_spec c white); try contradiction; reflexivity.
    + intros Hl. unfold getColor.
      destruct He as [->| ->], Hl as [->| ->]; reflexivity.
Qed.

Lemma cross_z_swap a b c : cross_z c b a = - cross_z a b c.
Proof. unfold cross_z. ring. Qed.

(** X19: of four points or more, [drawSolid] makes two faces on the points
    0, 2 and one of 1 and 3 each, and the first face is never clockwise: its
    three points, in the order of the face, have a signed area that is not
    negative, the order being reversed when that of the points is clockwise.
    With fewer than four points it raises. *)
Theorem drawSolid_first_face (points : list Point3) :
  (forall p0 p1 p2 p3 rest,
      points = p0 :: p1 :: p2 :: p3 :: rest ->
      (drawSolid points = Some [(0, 1, 2); (0, 3, 2)]%nat /\
       0 <= cross_z p0 p1 p2) \/
      (drawSolid points = Some [(2, 1, 0); (2, 3, 0)]%nat /\
       0 < cross_z p2 p1 p0)) /\
  ((List.length points < 4)%nat -> drawSolid points = None).
Proof.
  split.
  - intros p0 p1 p2 p3 rest ->. cbn [drawSolid].
    destruct (ltb_spec (cross_z p0 p1 p2) 0) as [H|H].
    + right. split; [reflexivity|]. rewrite cross_z_swap.
      apply Qclt_minus_iff in H. now rewrite Qcplus_0_l in H.
    + left. split; [reflexivity|]. now apply Qcnot_lt_le.
  - intros H. destruct points as [|p0 [|p1 [|p2 [|p3 rest]]]];
      try reflexivity. cbn [List.length] in H. lia.
Qed.

End EntitiesFacts.

(** ** The scope of the view *)

Module ViewScopeFacts.
Import Num NumFacts ViewScope.
Local Open Scope Qc_scope.

Section Pick.

(** A comparison [before] that decides an order [le]. *)
Variable before : num -> num -> bool.
Variable le : num -> num -> Prop.
Hypothesis le_refl : forall a, le a a.
Hypothesis le_trans : forall a b c, le a b -> le b c -> le a c.
Hypothesis before_true : forall a b, before a b = true -> le a b.
Hypothesis before_false : forall a b, before a b = false -> le b a.

Lemma pick_fold bounds :
  forall d,
    match d with None => True | Some v => v <> 0 end ->
    match fold_left (pick before) bounds d with
    | None => d = None /\ Forall (fun b => b = 0) bounds
    | Some m =>
        m <> 0 /\ (d = Some m \/ In m bounds) /\
        (forall v, d = Some v -> le m v) /\
        (forall b, In b bounds -> b <> 0 -> le m b)
    end.
Proof.
  induction bounds as [|b l IH]; intros d Hd; cbn [fold_left].
  - destruct d as [m|]; [|auto].
    split; [exact Hd|]. split; [now left|]. split.
    + now intros v [= <-].
    + intros b [].
  - assert (Hd' : match pick before d b with
                  | None => True
                  | Some v => v <> 0
                  end).
    { unfold pick. destruct (eqb_spec b 0) as [H0|H0]; cbn [negb andb];
        [exact Hd|].
      destruct d as [v|]; [|exact H0].
      destruct (before b v); [exact H0|exact Hd]. }
    specialize (IH (pick before d b) Hd').
    destruct (fold_left (pick before) l (pick before d b)) as [m|].
    + destruct IH as (Hm & Hin & Hle & Hall).
      unfold pick in Hin, Hle.
      destruct (eqb_spec b 0) as [H0|H0]; cbn [negb andb] in Hin, Hle.
      * split; [exact Hm|]. split; [|split; [exact Hle|]].
        -- destruct Hin as [Hin|Hin]; [now left|right; now right].
        -- intros b' [<-|Hb'] Hne; [contradiction|now apply Hall].
      * destruct d as [v|].
        -- destruct (before b v) eqn:Hbv.
           ++ split; [exact Hm|]. split; [|split].
              ** right. destruct Hin as [[= <-]|Hin]; [now left|now right].
              ** intros v' [= <-]. apply le_trans with b; auto.
              ** intros b' [<-|Hb'] Hne; [now apply Hle|now apply Hall].
           ++ split; [exact Hm|]. split; [|split; [exact Hle|]].
              ** destruct Hin as [Hin|Hin]; [now left|right; now right].
              ** intros b' [<-|Hb'] Hne; [|now apply Hall].
                 apply le_trans with v; auto.
        -- split; [exact Hm|]. split; [|split; [discriminate|]].
           ++ right. destruct Hin as [[= <-]|Hin]; [now left|now right].
           ++ intros b' [<-|Hb'] Hne; [now apply Hle|now apply Hall].
    + destruct IH as [Hp Hl]. unfold pick in Hp.
      destruct (eqb_spec b 0) as [H0|H0]; cbn [negb andb] in Hp.
      * split; [exact Hp|]. now constructor.
      * destruct d as [v|]; [|discriminate].
        destruct (before b v); discriminate.
Qed.

End Pick.

Lemma ltb_true a b : ltb a b = true -> a <= b.
Proof.
  destruct (ltb_spec a b) as [H|H]; [|discriminate].
  intros _. now apply Qclt_le_weak.
Qed.

Lemma ltb_false a b : ltb a b = false -> b <= a.
Proof.
  destruct (ltb_spec a b) as [H|H]; [discriminate|].
  intros _. now apply Qcnot_lt_le.
Qed.

Lemma lower_least bounds : least_nonzero bounds (fold_left lower bounds None).
Proof.
  pose proof (pick_fold (fun b v => ltb b v) Qcle Qcle_refl Qcle_trans
                ltb_true ltb_false bounds None I) as H.
  change (fold_left (pick (fun b v => ltb b v)) bounds None)
    with (fold_left lower bounds None) in H.
  unfold least_nonzero. destruct (fold_left lower bounds None) as [m|].
  - destruct H as (Hm & [Hd|Hin] & _ & Hall); [discriminate|auto].
  - exact (proj2 H).
Qed.

Lemma upper_greatest bounds :
  greatest_nonzero bounds (fold_left upper bounds None).
Proof.
  pose proof (pick_fold (fun b v => ltb v b) (fun a b => b <= a)
                Qcle_refl (fun a b c H1 H2 => Qcle_trans _ _ _ H2 H1)
                (fun a b => ltb_true b a) (fun a b => ltb_false b a)
                bounds None I) as H.
  change (fold_left (pick (fun b v => ltb v b)) bounds None)
    with (fold_left upper bounds None) in H.
  unfold greatest_nonzero. destruct (fold_left upper bounds None) as [m|].
  - destruct H as (Hm & [Hd|Hin] & _ & Hall); [discriminate|auto].
  - exact (proj2 H).
Qed.

(** Each field of [dims] follows its own bound of the boxes. *)
Lemma scope_fields boxes :
  forall d,
    let r := fold_left scope_step boxes d in
    dmin_x r = fold_left lower (map min_x boxes) (dmin_x d) /\
    dmin_y r = fold_left lower (map min_y boxes) (dmin_y d) /\
    dmin_z r = fold_left lower (map min_z boxes) (dmin_z d) /\
    dmax_x r = fold_left upper (map max_x boxes) (dmax_x d) /\
    dmax_y r = fold_left upper (map max_y boxes) (dmax_y d) /\
    dmax_z r = fold_left upper (map max_z boxes) (dmax_z d).
Proof.
  induction boxes as [|b l IH]; intros d; cbn [fold_left map].
  - repeat split.
  - exact (IH (scope_step d b)).
Qed.

(** X20: every field of the scope [createViewScope] returns is the least,
    for [min], or the greatest, for [max], of the bounds of the boxes that
    are not 0, and it is [false] when there is none: a bound that is 0 never
    enters the scope. *)
Theorem createViewScope_bounds (boxes : list Box3) :
  let dims := createViewScope boxes in
  least_nonzero (map min_x boxes) (dmin_x dims) /\
  least_nonzero (map min_y boxes) (dmin_y dims) /\
  least_nonzero (map min_z boxes) (dmin_z dims) /\
  greatest_nonzero (map max_x boxes) (dmax_x dims) /\
  greatest_nonzero (map max_y boxes) (dmax_y dims) /\
  greatest_nonzero (map max_z boxes) (dmax_z dims).
Proof.
  intros dims. unfold dims, createViewScope.
  destruct (scope_fields boxes
              {| dmin_x := None; dmin_y := None; dmin_z := None;
                 dmax_x := None; dmax_y := None; dmax_z := None |})
    as (E1 & E2 & E3 & E4 & E5 & E6).
  cbn [dmin_x dmin_y dmin_z dmax_x dmax_y dmax_z] in *.
  rewrite E1, E2, E3, E4, E5, E6.
  repeat split; auto using lower_least, upper_greatest.
Qed.

(** *** The viewport *)

Lemma of_Z_2 : of_Z 2 = 1 + 1.
Proof. apply Qc_is_canon. reflexivity. Qed.

Ltac solve_field := field; repeat split; try discriminate; auto.

Lemma pos_nonzero a : 0 < a -> a <> 0.
Proof. intros H ->. exact (Qclt_not_le _ _ H (Qcle_refl 0)). Qed.

(** The two ways the viewport is widened to the aspect ratio [a]. *)
Lemma fit_wider a w h :
  0 < h -> Qcabs (w / h) < a -> w <= h * a.
Proof.
  intros Hh Ha. pose proof (pos_nonzero h Hh) as Hn.
  replace w with (w / h * h) by (field; exact Hn).
  rewrite (Qcmult_comm h a).
  apply Qcmult_le_compat_r; [|now apply Qclt_le_weak].
  apply Qclt_le_weak. eapply Qcle_lt_trans; [apply Qcle_Qcabs|exact Ha].
Qed.

Lemma fit_higher a w h :
  0 < a -> 0 <= w -> 0 < h -> ~ Qcabs (w / h) < a -> h <= w / a.
Proof.
  intros Ha Hw Hh Hn. pose proof (pos_nonzero h Hh) as Hh0.
  pose proof (pos_nonzero a Ha) as Ha0.
  assert (Hq : 0 <= w / h).
  { apply Qcmult_lt_0_le_reg_r with h; [exact Hh|].
    replace (w / h * h) with w by (field; exact Hh0).
    now rewrite Qcmult_0_l. }
  apply Qcnot_lt_le in Hn. rewrite (Qcabs_pos _ Hq) in Hn.
  apply Qcmult_lt_0_le_reg_r with a; [exact Ha|].
  replace (w / a * a) with w by (field; exact Ha0).
  rewrite Qcmult_comm.
  replace w with (w / h * h) by (field; exact Hh0).
  apply Qcmult_le_compat_r; [exact Hn|now apply Qclt_le_weak].
Qed.

Lemma div_pos a b : 0 < a -> 0 < b -> 0 < a / b.
Proof.
  intros Ha Hb. pose proof (pos_nonzero b Hb) as Hb0.
  destruct (Qclt_le_dec 0 (a / b)) as [H|H]; [exact H|].
  exfalso. apply (Qclt_not_le _ _ Ha).
  replace a with (a / b * b) by (field; exact Hb0).
  rewrite <- (Qcmult_0_l b).
  apply Qcmult_le_compat_r; [exact H|now apply Qclt_le_weak].
Qed.

(** X21: for a canvas of positive width and height and a scope of positive
    height whose width is not negative, the viewport of [Viewer] has the
    aspect ratio of the canvas, is as wide and as high as the scope at
    least, is symmetric about its center, and its center is the middle of
    the scope: the whole drawing is in view, undistorted. *)
Theorem viewPort_fits (width height : num) (dims : Dims) :
  let minx := number_of (dmin_x dims) in
  let maxx := number_of (dmax_x dims) in
  let miny := number_of (dmin_y dims) in
  let maxy := number_of (dmax_y dims) in
  0 < width -> 0 < height -> minx <= maxx -> miny < maxy ->
  exists vp,
    viewPort width height dims = Some vp /\
    right vp - left vp = (top vp - bottom vp) * (width / height) /\
    maxx - minx <= right vp - left vp /\
    maxy - miny <= top vp - bottom vp /\
    left vp = - right vp /\ bottom vp = - top vp /\
    center_x vp = minx + (maxx - minx) / of_Z 2 /\
    center_y vp = miny + (maxy - miny) / of_Z 2.
Proof.
  intros minx maxx miny maxy Hw Hh Hx Hy.
  pose proof (pos_nonzero _ Hw) as Hw0.
  pose proof (pos_nonzero _ Hh) as Hh0.
  pose proof (div_pos _ _ Hw Hh) as Ha.
  pose proof (pos_nonzero _ Ha) as Ha0.
  assert (Hvh : 0 < maxy - miny).
  { apply Qclt_minus_iff in Hy. exact Hy. }
  assert (Hvw : 0 <= maxx - minx).
  { apply Qcle_minus_iff in Hx. exact Hx. }
  pose proof (pos_nonzero _ Hvh) as Hvh0.
  unfold viewPort. fold minx maxx miny maxy.
  clearbody minx maxx miny maxy. rewrite !of_Z_2.
  destruct (eqb_spec height 0) as [E|_]; [contradiction|].
  destruct (eqb_spec (maxy - miny) 0) as [E|_]; [contradiction|].
  destruct (ltb_spec (Qcabs ((maxx - minx) / (maxy - miny))) (width / height))
    as [L|L].
  - eexists. split; [reflexivity|]. cbn [right left top bottom center_x center_y].
    pose proof (fit_wider _ _ _ Hvh L) as Hfit.
    replace ((maxy - miny) * (width / height) / (1 + 1)
             - - ((maxy - miny) * (width / height)) / (1 + 1))
      with ((maxy - miny) * (width / height)) by solve_field.
    replace ((maxy - miny) / (1 + 1) - - (maxy - miny) / (1 + 1))
      with (maxy - miny) by solve_field.
    split; [reflexivity|]. split; [exact Hfit|].
    split; [apply Qcle_refl|].
    repeat split; solve_field.
  - destruct (eqb_spec (width / height) 0) as [E|_]; [contradiction|].
    eexists. split; [reflexivity|]. cbn [right left top bottom center_x center_y].
    pose proof (fit_higher _ _ _ Ha Hvw Hvh L) as Hfit.
    replace ((maxx - minx) / (1 + 1) - - (maxx - minx) / (1 + 1))
      with (maxx - minx) by solve_field.
    replace ((maxx - minx) / (width / height) / (1 + 1)
             - - ((maxx - minx) / (width / height)) / (1 + 1))
      with ((maxx - minx) / (width / height)) by solve_field.
    split; [solve_field|]. split; [apply Qcle_refl|].
    split; [exact Hfit|].
    repeat split; solve_field.
Qed.

(** A canvas of 4 by 2 and the scope from (1,1) to (3,2). *)
Lemma viewPort_fits_witness :
  let dims :=
    {| dmin_x := Some (of_Z 1); dmin_y := Some (of_Z 1); dmin_z := None;
       dmax_x := Some (of_Z 3); dmax_y := Some (of_Z 2); dmax_z := None |} in
  exists vp,
    viewPort (of_Z 4) (of_Z 2) dims = Some vp /\
    right vp - left vp = (top vp - bottom vp) * (of_Z 4 / of_Z 2) /\
    of_Z 3 - of_Z 1 <= right vp - left vp /\
    of_Z 2 - of_Z 1 <= top vp - bottom vp /\
    left vp = - right vp /\ bottom vp = - top vp /\
    center_x vp = of_Z 1 + (of_Z 3 - of_Z 1) / of_Z 2 /\
    center_y vp = of_Z 1 + (of_Z 2 - of_Z 1) / of_Z 2.
Proof.
  intros dims.
  apply (viewPort_fits (of_Z 4) (of_Z 2) dims).
  - apply (reflect_iff _ _ (ltb_spec _ _)). vm_compute. reflexivity.
  - apply (reflect_iff _ _ (ltb_spec _ _)). vm_compute. reflexivity.
  - apply (reflect_iff _ _ (leb_spec _ _)). vm_compute. reflexivity.
  - apply (reflect_iff _ _ (ltb_spec _ _)). vm_compute. reflexivity.
Defined.

End ViewScopeFacts.

(** ** The camera after [resize] *)

Module ResizeFacts.
Import Num NumFacts Resize.
Local Open Scope Qc_scope.

Lemma of_Z_nonzero z : z <> 0%Z -> of_Z z <> 0.
Proof.
  intros Hz H. apply Hz. unfold of_Z in H.
  apply (f_equal this) in H. cbn [this Q2Qc] in H.
  assert (E : (Qred (inject_Z z) == 0)%Q) by (rewrite H; reflexivity).
  rewrite Qred_correct in E. unfold Qeq in E. cbn in E. lia.
Qed.

Lemma resize_some width height v :
  domElement_width v <> 0%Z -> domElement_height v <> 0%Z ->
  resize width height v =
  Some {| camera :=
            {| top := of_Z height / of_Z (domElement_height v)
                      * top (camera v);
               bottom := of_Z height / of_Z (domElement_height v)
                         * bottom (camera v);
               left := of_Z width / of_Z (domElement_width v)
                       * left (camera v);
               right := of_Z width / of_Z (domElement_width v)
                        * right (camera v) |};
          domElement_width := width;
          domElement_height := height |}.
Proof.
  intros Hw Hh. unfold resize.
  destruct (Z.eqb_spec (domElement_width v) 0); [contradiction|].
  destruct (Z.eqb_spec (domElement_height v) 0); [contradiction|].
  reflexivity.
Qed.

(** X22: on a canvas with a width and a height, a [resize] after another is
    the last [resize] alone, and a [resize] to the size the canvas has
    changes nothing: to resize and to resize back gives the first camera
    again; and a camera that has the aspect ratio of the canvas has, after a
    [resize], the aspect ratio of the new canvas. *)
Theorem resize_composes (v : View) (w1 h1 w2 h2 : Z) :
  domElement_width v <> 0%Z -> domElement_height v <> 0%Z ->
  w1 <> 0%Z -> h1 <> 0%Z ->
  (exists v1,
      resize w1 h1 v = Some v1 /\ resize w2 h2 v1 = resize w2 h2 v) /\
  resize (domElement_width v) (domElement_height v) v = Some v /\
  (right (camera v) - left (camera v) =
   (top (camera v) - bottom (camera v))
   * (of_Z (domElement_width v) / of_Z (domElement_height v)) ->
   exists v1,
     resize w1 h1 v = Some v1 /\
     right (camera v1) - left (camera v1) =
     (top (camera v1) - bottom (camera v1)) * (of_Z w1 / of_Z h1)).
Proof.
  intros HW HH Hw1 Hh1.
  pose proof (of_Z_nonzero _ HW) as HW'. pose proof (of_Z_nonzero _ HH) as HH'.
  pose proof (of_Z_nonzero _ Hw1) as Hw1'.
  pose proof (of_Z_nonzero _ Hh1) as Hh1'.
  rewrite (resize_some w1 h1 v HW HH).
  split; [|split].
  - eexists. split; [reflexivity|].
    rewrite (resize_some w2 h2 v HW HH).
    rewrite resize_some by assumption.
    cbn [camera domElement_width domElement_height top bottom left right].
    do 2 f_equal; f_equal; field; auto.
  - rewrite (resize_some _ _ v HW HH). destruct v as [[l r t b] W H].
    cbn [camera domElement_width domElement_height top bottom left right]
      in *.
    do 2 f_equal; f_equal; field; auto.
  - intros Ha. eexists. split; [reflexivity|].
    cbn [camera top bottom left right].
    replace (of_Z w1 / of_Z (domElement_width v) * right (camera v)
             - of_Z w1 / of_Z (domElement_width v) * left (camera v))
      with (of_Z w1 / of_Z (domElement_width v)
            * (right (camera v) - left (camera v))) by ring.
    rewrite Ha. field. auto.
Qed.

(** A canvas of 4 by 2 resized to 8 by 2 and back. *)
Lemma resize_composes_witness :
  let v := {| camera := {| left := - of_Z 2; right := of_Z 2;
                           top := of_Z 1; bottom := - of_Z 1 |};
              domElement_width := 4; domElement_height := 2 |} in
  exists v1, resize 8 2 v = Some v1 /\ resize 4 2 v1 = resize 4 2 v.
Proof.
  intros v.
  refine (proj1 (resize_composes v 8 2 4 2 _ _ _ _)); cbn; lia.
Defined.

End ResizeFacts.

(** ** The objects of the scene *)

Module ObjectsFacts.
Import Intersect Scheduler Viewer Deal Objects.
Import SchedulerFacts DealFacts.

Section Draw.

Variables Entity Mesh E : Type.
Variable drawEntity : Entity -> settled (drawn Mesh) E.

Lemma collect_fold (l : list (drawn Mesh)) :
  forall acc,
    fold_left
      (fun acc item =>
         match mesh item with
         | None => acc
         | Some obj =>
             (fst acc ++ [obj], concat_lineVecs (snd acc) (lineVecs item))
         end) l acc
    = (fst acc ++ objs_of l, snd acc ++ lineVecs_of l).
Proof.
  induction l as [|d l IH]; intros [objs lv]; cbn [fold_left fst snd].
  - unfold objs_of, lineVecs_of. cbn [flat_map]. now rewrite !app_nil_r.
  - rewrite IH. unfold objs_of, lineVecs_of. cbn [flat_map].
    destruct (mesh d) as [obj|]; cbn [fst snd app].
    + unfold concat_lineVecs. cbn [app]. now rewrite <- !app_assoc.
    + reflexivity.
Qed.

Lemma collect_concat (results : list (list (drawn Mesh))) :
  collect results = (objs_of (concat results), lineVecs_of (concat results)).
Proof. unfold collect. now rewrite collect_fold. Qed.

Lemma generator_values entities ds :
  Forall2 (fun entity d => drawEntity entity = Value d) entities ds ->
  Forall2 (fun it v => it tt = Value v)
    (createGenerator drawEntity entities) ds.
Proof.
  induction 1 as [|entity d l l' Hd _ IH]; cbn [createGenerator map];
    constructor; auto.
Qed.

End Draw.

(** X23: when [drawEntity] returns for every entity, [createObjects] is
    fulfilled; [objs] holds the meshes of the entities that have one and
    [lineVecs] the segments of these entities, up to their order, and in the
    order of the entities when there are no more entities than workers; the
    segments of an entity without mesh are left out. When [drawEntity]
    raises for one entity, the promise of [createObjects] stays pending. *)
Theorem createObjects_result (Entity Mesh E : Type)
  (drawEntity : Entity -> settled (drawn Mesh) E) (entities : list Entity) :
  (forall ds,
      Forall2 (fun entity d => drawEntity entity = Value d) entities ds ->
      exists objs lv,
        createObjects drawEntity entities = Fulfilled (objs, lv) /\
        Permutation objs (objs_of ds) /\
        Permutation lv (lineVecs_of ds) /\
        (length entities <= CONCURRENCY ->
         objs = objs_of ds /\ lv = lineVecs_of ds)) /\
  ((exists entity e, In entity entities /\ drawEntity entity = Raise e) ->
   createObjects drawEntity entities = Pending).
Proof.
  assert (HC : 1 <= CONCURRENCY) by (unfold CONCURRENCY; lia).
  split.
  - intros ds Hds.
    pose proof (generator_values _ _ _ drawEntity _ _ Hds) as Hvs.
    destruct (asynccParallel_dealt _ _ (createGenerator drawEntity entities)
                CONCURRENCY ds HC Hvs) as (r & Er & Hr & Hd).
    destruct (fulfilled_sound _ _ (createGenerator drawEntity entities)
                CONCURRENCY _ r HC Er) as (_ & vs' & Hvs' & HP).
    rewrite <- (Forall2_values_eq _ _ _ Hvs Hvs') in HP.
    exists (objs_of (concat r)), (lineVecs_of (concat r)).
    unfold createObjects. rewrite Er, collect_concat.
    split; [reflexivity|]. split; [|split].
    + unfold objs_of. now apply Permutation_flat_map.
    + unfold lineVecs_of. now apply Permutation_flat_map.
    + intros Hn.
      assert (Ec : concat r = ds).
      { apply (dealt_concat CONCURRENCY); auto.
        rewrite <- (Forall2_length Hds). exact Hn. }
      now rewrite Ec.
  - intros (entity & e & Hin & He).
    unfold createObjects.
    destruct (asynccParallel (createGenerator drawEntity entities) CONCURRENCY)
      as [|r|e'] eqn:Er; [reflexivity| |].
    + exfalso.
      destruct (fulfilled_sound _ _ (createGenerator drawEntity entities)
                  CONCURRENCY _ r HC Er) as (_ & vs & Hvs & _).
      assert (Hin' : In (fun _ : unit => drawEntity entity)
                       (createGenerator drawEntity entities)).
      { unfold createGenerator.
        apply (in_map (fun entity (_ : unit) => drawEntity entity)), Hin. }
      pose proof (Forall2_no_raise _ _ Hvs _ Hin') as Hr.
      unfold raises in Hr. rewrite He in Hr. discriminate.
    + exfalso. exact (outcome_not_rejected _ _ _ _ Er).
Qed.

End ObjectsFacts.
